(** * PackExperience.X: the intensity-driven scene, effects and audio glue

    A shallow embedding of the four source files of the repository
    (main.js, effects.js, world.js, audio.js) and the properties the
    specification states about them.

    JavaScript numbers are IEEE 754 binary64 values; they are modelled by
    Rocq's primitive [float], whose operations are the same binary64
    operations (round to nearest, ties to even), so that every definition
    below evaluates exactly as the source does. *)

From Stdlib Require Import ZArith Lia List Bool Floats String.
From Stdlib Require Reals Lra.
From stdpp Require Import gmap.

Set Warnings "-inexact-float".
Set Warnings "-abstract-large-number".
#[local] Open Scope Z_scope.

(* ================================================================== *)
(** * Part I: the program                                              *)
(* ================================================================== *)

(** ** JavaScript values and the built-ins the program calls *)

Module JS.

(** A JavaScript value as far as the program uses one in arithmetic: a
    number, or [undefined] (the value of a parameter no argument was
    passed for). *)
Inductive value :=
| undefined
| number (x : float).

(** ToNumber: [undefined] converts to NaN. *)
Definition ToNumber (v : value) : float :=
  match v with
  | undefined => nan
  | number x => x
  end.

(** [a < b] on numbers: false when either side is NaN. *)
Definition lt (a b : float) : bool := (a <? b)%float.

(** [a > b] on numbers. *)
Definition gt (a b : float) : bool := (b <? a)%float.

(** [Math.min(a, b)]: NaN when either argument is NaN; -0 is smaller
    than +0. *)
Definition Math_min (a b : float) : float :=
  if is_nan a || is_nan b then nan
  else if (a <? b)%float then a
  else if (b <? a)%float then b
  else if get_sign a then a else b.

End JS.

(** ** The parts of three.js the program relies on *)

Module THREE.

(** [THREE.Vector3]. *)
Record Vector3 := mkVector3 { x : float; y : float; z : float }.

(** [Vector3.distanceToSquared]. *)
Definition distanceToSquared (a b : Vector3) : float :=
  let dx := (x a - x b)%float in
  let dy := (y a - y b)%float in
  let dz := (z a - z b)%float in
  (dx * dx + dy * dy + dz * dz)%float.

(** [Vector3.distanceTo]. *)
Definition distanceTo (a b : Vector3) : float :=
  PrimFloat.sqrt (distanceToSquared a b).

(** [THREE.Audio], the fields and methods audio.js uses.  [source] is the
    buffer-source node the last [play] created; [sounding] are the nodes of
    this sound that the audio context is currently playing, each with the
    offset into the buffer it was started at. *)
Record Audio := mkAudio {
  buffer : option string;
  isPlaying : bool;
  loop : bool;
  volume : float;
  progress : float;
  source : option nat;
  nextNode : nat;
  sounding : list (nat * float)
}.

(** [new THREE.Audio(listener)]. *)
Definition newAudio : Audio :=
  {| buffer := None; isPlaying := false; loop := false; volume := 1%float;
     progress := 0%float; source := None; nextNode := O; sounding := nil |}.

Definition setBuffer (b : string) (a : Audio) : Audio :=
  {| buffer := Some b; isPlaying := isPlaying a; loop := loop a;
     volume := volume a; progress := progress a; source := source a;
     nextNode := nextNode a; sounding := sounding a |}.

Definition setLoop (l : bool) (a : Audio) : Audio :=
  {| buffer := buffer a; isPlaying := isPlaying a; loop := l;
     volume := volume a; progress := progress a; source := source a;
     nextNode := nextNode a; sounding := sounding a |}.

Definition setVolume (v : float) (a : Audio) : Audio :=
  {| buffer := buffer a; isPlaying := isPlaying a; loop := loop a;
     volume := v; progress := progress a; source := source a;
     nextNode := nextNode a; sounding := sounding a |}.

(** [Audio.play()]: refuses (with a console warning) when the sound is
    already playing; otherwise creates a fresh source node, starts it at
    the stored progress, and records it. *)
Definition play (a : Audio) : Audio :=
  if isPlaying a then a
  else
    {| buffer := buffer a; isPlaying := true; loop := loop a;
       volume := volume a; progress := progress a;
       source := Some (nextNode a);
       nextNode := S (nextNode a);
       sounding := (nextNode a, progress a) :: sounding a |}.

Definition silence (n : option nat) (l : list (nat * float)) : list (nat * float) :=
  match n with
  | Some k => List.filter (fun p => negb (Nat.eqb (fst p) k)) l
  | None => l
  end.

(** [Audio.stop()]: resets the progress, stops the current source node
    and clears [isPlaying]. *)
Definition stop (a : Audio) : Audio :=
  {| buffer := buffer a; isPlaying := false; loop := loop a;
     volume := volume a; progress := 0%float; source := source a;
     nextNode := nextNode a; sounding := silence (source a) (sounding a) |}.

(** The [onended] callback of source node [k]: the node has played its
    buffer to the end.  [stop] detaches the callback of the node it
    stops, so only the current node's end is reported to the sound. *)
Definition ended (k : nat) (a : Audio) : Audio :=
  if existsb (fun p => Nat.eqb (fst p) k) (sounding a) then
    {| buffer := buffer a; isPlaying := false; loop := loop a;
       volume := volume a; progress := progress a; source := source a;
       nextNode := nextNode a; sounding := silence (Some k) (sounding a) |}
  else a.

End THREE.

(** ** world.js *)

Module World.

(** An object of the scene graph, with the properties [updateWorld] reads
    or writes.  [intensity] is the property of that name, present on
    lights. *)
Record Object3D := mkObject3D {
  isMesh : bool;
  isPoints : bool;
  position : THREE.Vector3;
  rotation : THREE.Vector3;
  scale : THREE.Vector3;
  intensity : option float
}.

(** The objects of the scene live in a store and the module-level arrays
    hold references to them; [anomalyPositions] is the exported array of
    points. *)
Record state := mkState {
  heap : gmap nat Object3D;
  animatedObjects : list nat;
  pulsatingLights : list nat;
  anomalyPositions : list THREE.Vector3
}.

(** The body of the first [forEach]: the rotation of a tracked object. *)
Definition rotate (obj : Object3D) : Object3D :=
  if isMesh obj then
    {| isMesh := isMesh obj; isPoints := isPoints obj; position := position obj;
       rotation :=
         {| THREE.x := (THREE.x (rotation obj) + 0.0002)%float;
            THREE.y := (THREE.y (rotation obj) + 0.0005)%float;
            THREE.z := THREE.z (rotation obj) |};
       scale := scale obj; intensity := intensity obj |}
  else if isPoints obj then
    {| isMesh := isMesh obj; isPoints := isPoints obj; position := position obj;
       rotation :=
         {| THREE.x := THREE.x (rotation obj);
            THREE.y := (THREE.y (rotation obj) + 0.0001)%float;
            THREE.z := THREE.z (rotation obj) |};
       scale := scale obj; intensity := intensity obj |}
  else obj.

(** Writing through a reference held in one of the arrays. *)
Definition mutate (f : Object3D -> Object3D) (h : gmap nat Object3D) (r : nat)
  : gmap nat Object3D :=
  match h !! r with
  | Some obj => <[r := f obj]> h
  | None => h
  end.

Section WithSin.

(** [Math.sin], which the language leaves to the implementation. *)
Variable Math_sin : float -> float.

(** The value the second [forEach] assigns to [light.intensity]. *)
Definition lightIntensity (time intensity : JS.value) : float :=
  (1.5 + JS.ToNumber intensity * 1.5
     + Math_sin (JS.ToNumber time * 3) * 0.5)%float.

(** The body of the second [forEach]. *)
Definition pulse (time intensity : JS.value) (light : Object3D) : Object3D :=
  {| isMesh := isMesh light; isPoints := isPoints light;
     position := position light; rotation := rotation light;
     scale := scale light;
     intensity := Some (lightIntensity time intensity) |}.

(** [updateWorld(time, intensity)]. *)
Definition updateWorld (w : state) (time intensity : JS.value) : state :=
  let h1 := fold_left (mutate rotate) (animatedObjects w) (heap w) in
  let h2 := fold_left (mutate (pulse time intensity)) (pulsatingLights w) h1 in
  {| heap := h2;
     animatedObjects := animatedObjects w;
     pulsatingLights := pulsatingLights w;
     anomalyPositions := anomalyPositions w |}.

End WithSin.

End World.

(** ** world.js: building the scene *)

Module Build.

(** [Math.floor] on numbers: a number with no fractional bits, an
    infinity, NaN or a zero is returned as it is; otherwise the
    significand is shifted, down for a positive number and up for a
    negative one. *)
Definition Math_floor (x : float) : float :=
  match Prim2SF x with
  | S754_finite s m e =>
      if 0 <=? e then x
      else
        let q := Zpos m / 2 ^ (- e) in
        if s then
          let n := if Zpos m mod 2 ^ (- e) =? 0 then q else q + 1 in
          (- of_uint63 (Uint63.of_Z n))%float
        else of_uint63 (Uint63.of_Z q)
  | _ => x
  end.

(** [Math.PI]. *)
Definition Math_PI : float := 3.141592653589793%float.

(** [THREE.FogExp2]. *)
Record FogExp2 := mkFogExp2 { color : Z; density : float }.

(** The scene [buildWorld] receives and fills, with the module-level
    arrays of world.js.  The objects live in the store of [World.state];
    [children] are the references [scene.add] received, in order;
    [created] counts the objects made so far, and is the next free
    reference; [drawn] counts the calls of [Math.random] so far. *)
Record Scene := mkScene {
  world : World.state;
  children : list nat;
  fog : option FogExp2;
  created : nat;
  drawn : N
}.

(** A statement of [buildWorld]: it changes the scene and yields a
    value, or does not complete ([None]). *)
Definition M (A : Type) : Type := Scene -> option (A * Scene).

#[export] Instance M_ret : MRet M := fun A a s => Some (a, s).

#[export] Instance M_bind : MBind M := fun A B f m s =>
  match m s with
  | Some (a, s') => f a s'
  | None => None
  end.

Definition with_world (f : World.state -> World.state) : M unit := fun s =>
  Some (tt, {| world := f (world s); children := children s; fog := fog s;
               created := created s; drawn := drawn s |}).

Definition with_heap (f : gmap nat World.Object3D -> gmap nat World.Object3D) : M unit :=
  with_world (fun w =>
    {| World.heap := f (World.heap w);
       World.animatedObjects := World.animatedObjects w;
       World.pulsatingLights := World.pulsatingLights w;
       World.anomalyPositions := World.anomalyPositions w |}).

(** *** Objects *)

Definition zero3 : THREE.Vector3 := {| THREE.x := 0; THREE.y := 0; THREE.z := 0 |}.
Definition one3 : THREE.Vector3 := {| THREE.x := 1; THREE.y := 1; THREE.z := 1 |}.

(** A new [Object3D]: at the origin, not rotated, of scale 1. *)
Definition object3D (isMesh isPoints : bool) (intensity : option float) : World.Object3D :=
  {| World.isMesh := isMesh; World.isPoints := isPoints;
     World.position := zero3; World.rotation := zero3; World.scale := one3;
     World.intensity := intensity |}.

(** [new]: the object gets the next free reference. *)
Definition new (obj : World.Object3D) : M nat := fun s =>
  Some (created s,
        {| world :=
             {| World.heap := <[created s := obj]> (World.heap (world s));
                World.animatedObjects := World.animatedObjects (world s);
                World.pulsatingLights := World.pulsatingLights (world s);
                World.anomalyPositions := World.anomalyPositions (world s) |};
           children := children s; fog := fog s;
           created := S (created s); drawn := drawn s |}).

Definition new_Mesh : M nat := new (object3D true false None).
Definition new_InstancedMesh : M nat := new (object3D true false None).
Definition new_Points : M nat := new (object3D false true None).
Definition new_GridHelper : M nat := new (object3D false false None).
Definition new_PointLight (intensity : float) : M nat :=
  new (object3D false false (Some intensity)).
Definition new_DirectionalLight (intensity : float) : M nat :=
  new (object3D false false (Some intensity)).
Definition new_AmbientLight : M nat := new (object3D false false (Some 1%float)).

(** Assignments through a reference. *)
Definition set_position (v : THREE.Vector3) (obj : World.Object3D) : World.Object3D :=
  {| World.isMesh := World.isMesh obj; World.isPoints := World.isPoints obj;
     World.position := v; World.rotation := World.rotation obj;
     World.scale := World.scale obj; World.intensity := World.intensity obj |}.

Definition set_rotation (v : THREE.Vector3) (obj : World.Object3D) : World.Object3D :=
  {| World.isMesh := World.isMesh obj; World.isPoints := World.isPoints obj;
     World.position := World.position obj; World.rotation := v;
     World.scale := World.scale obj; World.intensity := World.intensity obj |}.

Definition with_x (v : float) (p : THREE.Vector3) : THREE.Vector3 :=
  {| THREE.x := v; THREE.y := THREE.y p; THREE.z := THREE.z p |}.
Definition with_y (v : float) (p : THREE.Vector3) : THREE.Vector3 :=
  {| THREE.x := THREE.x p; THREE.y := v; THREE.z := THREE.z p |}.
Definition with_z (v : float) (p : THREE.Vector3) : THREE.Vector3 :=
  {| THREE.x := THREE.x p; THREE.y := THREE.y p; THREE.z := v |}.

(** [obj.position.set(x, y, z)] and [obj.position.copy(v)]. *)
Definition position_set (r : nat) (x y z : float) : M unit :=
  with_heap (fun h =>
    World.mutate (set_position {| THREE.x := x; THREE.y := y; THREE.z := z |}) h r).
Definition position_copy (r : nat) (v : THREE.Vector3) : M unit :=
  with_heap (fun h => World.mutate (set_position v) h r).

(** [obj.position.x = v], and so on. *)
Definition position_x (r : nat) (v : float) : M unit :=
  with_heap (fun h =>
    World.mutate (fun obj => set_position (with_x v (World.position obj)) obj) h r).
Definition position_y (r : nat) (v : float) : M unit :=
  with_heap (fun h =>
    World.mutate (fun obj => set_position (with_y v (World.position obj)) obj) h r).
Definition position_z (r : nat) (v : float) : M unit :=
  with_heap (fun h =>
    World.mutate (fun obj => set_position (with_z v (World.position obj)) obj) h r).

(** [obj.rotation.set(x, y, z)], [obj.rotation.x = v], [obj.rotation.y = v]. *)
Definition rotation_set (r : nat) (x y z : float) : M unit :=
  with_heap (fun h =>
    World.mutate (set_rotation {| THREE.x := x; THREE.y := y; THREE.z := z |}) h r).
Definition rotation_x (r : nat) (v : float) : M unit :=
  with_heap (fun h =>
    World.mutate (fun obj => set_rotation (with_x v (World.rotation obj)) obj) h r).
Definition rotation_y (r : nat) (v : float) : M unit :=
  with_heap (fun h =>
    World.mutate (fun obj => set_rotation (with_y v (World.rotation obj)) obj) h r).

(** Reading [obj.position]; a reference to no object does not occur. *)
Definition position_of (r : nat) : M THREE.Vector3 := fun s =>
  match World.heap (world s) !! r with
  | Some obj => Some (World.position obj, s)
  | None => None
  end.

(** [scene.add(obj)]: the object leaves the parent it had, and becomes
    the last child of the scene. *)
Definition add (r : nat) : M unit := fun s =>
  Some (tt, {| world := world s;
               children := List.filter (fun k => negb (Nat.eqb k r)) (children s) ++ r :: nil;
               fog := fog s; created := created s; drawn := drawn s |}).

(** [animatedObjects.push], [pulsatingLights.push], [anomalyPositions.push]. *)
Definition animatedObjects_push (r : nat) : M unit :=
  with_world (fun w =>
    {| World.heap := World.heap w;
       World.animatedObjects := World.animatedObjects w ++ r :: nil;
       World.pulsatingLights := World.pulsatingLights w;
       World.anomalyPositions := World.anomalyPositions w |}).

Definition pulsatingLights_push (r : nat) : M unit :=
  with_world (fun w =>
    {| World.heap := World.heap w;
       World.animatedObjects := World.animatedObjects w;
       World.pulsatingLights := World.pulsatingLights w ++ r :: nil;
       World.anomalyPositions := World.anomalyPositions w |}).

Definition anomalyPositions_push (v : THREE.Vector3) : M unit :=
  with_world (fun w =>
    {| World.heap := World.heap w;
       World.animatedObjects := World.animatedObjects w;
       World.pulsatingLights := World.pulsatingLights w;
       World.anomalyPositions := World.anomalyPositions w ++ v :: nil |}).

Definition set_fog (f : FogExp2) : M unit := fun s =>
  Some (tt, {| world := world s; children := children s; fog := Some f;
               created := created s; drawn := drawn s |}).

(** *** Loops *)

(** [for (let i = 0; i < n; i++)] for a literal [n]: [i] counts up from
    [i0] as the number it is in the program. *)
Fixpoint for_n (n : nat) (i : float) (body : float -> M unit) : M unit :=
  match n with
  | O => mret tt
  | S n' => body i;; for_n n' (i + 1)%float body
  end.

(** The same loop where each round yields an element of a local array. *)
Fixpoint collect_n {A} (n : nat) (i : float) (body : float -> M A) : M (list A) :=
  match n with
  | O => mret nil
  | S n' => a ← body i; l ← collect_n n' (i + 1)%float body; mret (a :: l)
  end.

(** [array.forEach(body)]. *)
Fixpoint forEach {A} (l : list A) (body : A -> M unit) : M unit :=
  match l with
  | nil => mret tt
  | a :: l' => body a;; forEach l' body
  end.

(** A loop of [n] rounds, for a literal [n], whose body does not use the
    index. *)
Definition times (n : N) (body : M unit) : M unit := fun s =>
  N.iter n (fun r => match r with Some (_, s') => body s' | None => None end)
         (Some (tt, s)).

(** [for (let j = j0; j < bound; j++)] for a bound the program computed:
    [fuel] bounds the number of tests the loop makes. *)
Fixpoint for_lt (fuel : nat) (j bound : float) (body : float -> M unit) : M unit :=
  match fuel with
  | O => fun _ => None
  | S fuel' =>
      if JS.lt j bound then body j;; for_lt fuel' (j + 1)%float bound body
      else mret tt
  end.

Section WithMath.

(** [Math.random]: the value of its [n]-th call.  [Math.sin], [Math.cos]
    and [Math.acos] are left to the implementation by the language. *)
Variable Math_random : N -> float.
Variables Math_sin Math_cos Math_acos : float -> float.

Definition random : M float := fun s =>
  Some (Math_random (drawn s),
        {| world := world s; children := children s; fog := fog s;
           created := created s; drawn := N.succ (drawn s) |}).

(** [randomPastel()]; the colour it makes is not part of the model, its
    call of [Math.random] is. *)
Definition randomPastel : M unit := _ ← random; mret tt.

(** [createStarTexture()] and [createGroundTexture()]: the canvases are
    not part of the model; the second one draws 10000 specks with three
    random numbers each. *)
Definition createStarTexture : M unit := mret tt.

Definition createGroundTexture : M unit :=
  times 10000 (_ ← random; _ ← random; _ ← random; mret tt).

(** [obj.rotation.set(Math.random() * Math.PI, Math.random() * Math.PI,
    Math.random() * Math.PI)]. *)
Definition random_rotation (r : nat) : M unit :=
  a ← random; b ← random; c ← random;
  rotation_set r (a * Math_PI) (b * Math_PI) (c * Math_PI).

(** The distant starfield: 150000 stars, seven random numbers each
    (position, tint, colour, size), and the point cloud that shows them. *)
Definition stars_object : M unit :=
  stars ← new_Points;
  add stars;;
  animatedObjects_push stars.

Definition starfield : M unit :=
  times 150000 (
    _ ← random; _ ← random; _ ← random;
    _ ← random; _ ← random; _ ← random;
    _ ← random; mret tt);;
  createStarTexture;;
  stars_object.

Definition galaxy : M unit :=
  galaxy ← new_Mesh;
  position_set galaxy 400 200 (-600);;
  rotation_x galaxy 0.5;;
  rotation_y galaxy 0.2;;
  add galaxy;;
  animatedObjects_push galaxy.

(** The ground and the grid on it. *)
Definition ground_object : M unit :=
  ground ← new_Mesh;
  rotation_x ground (- Math_PI / 2);;
  position_y ground (-5);;
  add ground.

Definition grid_object : M unit :=
  gridHelper ← new_GridHelper;
  position_y gridHelper (-4.9);;
  add gridHelper.

Definition ground : M unit :=
  createGroundTexture;;
  ground_object;;
  grid_object.

(** A crystal on an island. *)
Definition crystal (island : nat) : M unit :=
  randomPastel;;
  crystal ← new_Mesh;
  p ← position_of island;
  a ← random; b ← random; c ← random;
  position_set crystal
    (THREE.x p + (a - 0.5) * 6)
    (THREE.y p + 3 + b * 4)
    (THREE.z p + (c - 0.5) * 6);;
  random_rotation crystal;;
  add crystal;;
  animatedObjects_push crystal.

(** An island (its geometry is picked with the first random number)
    and its crystals. *)
Definition island (fuel : nat) : M unit :=
  _ ← random;
  island ← new_Mesh;
  a ← random;
  let angle := (a * Math_PI * 2)%float in
  b ← random;
  let radius := (100 + b * 700)%float in
  position_x island (Math_cos angle * radius);;
  position_z island (Math_sin angle * radius);;
  c ← random;
  position_y island (10 + c * 100);;
  random_rotation island;;
  add island;;
  animatedObjects_push island;;
  d ← random;
  let crystalCount := (10 + Math_floor (d * 20))%float in
  for_lt fuel 0 crystalCount (fun _ => crystal island).

Definition islands (fuel : nat) : M unit := for_n 200 0 (fun _ => island fuel).

(** An instanced mesh of 20000 rocks, seven random numbers each.  The
    [dummy] object that carries the matrix of each rock is local to the
    callback, like the geometries and the materials, and is left out. *)
Definition rock : M unit :=
  instanced ← new_InstancedMesh;
  times 20000 (
    _ ← random; _ ← random; _ ← random;
    _ ← random; _ ← random; _ ← random;
    _ ← random; mret tt);;
  add instanced.

Definition rocks : M unit := for_n 5 0 (fun _ => rock).

(** A unique large object: a random number picks the geometry, three go
    to the material. *)
Definition unique_object : M unit :=
  _ ← random;
  randomPastel;;
  _ ← random;
  _ ← random;
  mesh ← new_Mesh;
  a ← random;
  let theta := (a * Math_PI * 2)%float in
  b ← random;
  let phi := Math_acos (2 * b - 1) in
  c ← random;
  let rad := (100 + c * 400)%float in
  position_x mesh (rad * Math_sin phi * Math_cos theta);;
  position_y mesh (rad * Math_sin phi * Math_sin theta);;
  position_z mesh (rad * Math_cos phi);;
  random_rotation mesh;;
  add mesh;;
  animatedObjects_push mesh.

Definition unique : M unit := for_n 1500 0 (fun _ => unique_object).

(** The dust: 40000 particles, five random numbers each. *)
Definition dust_object : M unit :=
  dustParticles ← new_Points;
  add dustParticles;;
  animatedObjects_push dustParticles.

Definition dust : M unit :=
  times 40000 (
    _ ← random; _ ← random; _ ← random;
    _ ← random; _ ← random; mret tt);;
  dust_object.

(** The teleporters. *)
Definition teleporterPositions : M (list THREE.Vector3) :=
  collect_n 10 0 (fun t =>
    let angle := (t / 10 * Math_PI * 2)%float in
    a ← random;
    let radius := (300 + a * 200)%float in
    let x := (Math_cos angle * radius)%float in
    let z := (Math_sin angle * radius)%float in
    b ← random;
    let y := (20 + b * 50)%float in
    mret {| THREE.x := x; THREE.y := y; THREE.z := z |}).

Definition ring_object (pos : THREE.Vector3) : M unit :=
  ring ← new_Mesh;
  position_copy ring pos;;
  rotation_x ring (Math_PI / 2);;
  add ring;;
  animatedObjects_push ring.

Definition swirl_object : M unit :=
  times 200 (_ ← random; _ ← random; _ ← random; mret tt);;
  swirl ← new_Points;
  add swirl;;
  animatedObjects_push swirl.

Definition light_object (intensity : float) (pos : THREE.Vector3) : M unit :=
  light ← new_PointLight intensity;
  position_copy light pos;;
  add light;;
  pulsatingLights_push light.

Definition teleporter (pos : THREE.Vector3) : M unit :=
  ring_object pos;;
  swirl_object;;
  light_object 1.5 pos.

Definition teleporters : M unit :=
  l ← teleporterPositions;
  forEach l teleporter.

(** An anomaly zone at [pos]: the glowing orb (a random number sizes its
    geometry), three rings, eight orbiting orbs and a light. *)
Definition core_object (pos : THREE.Vector3) : M unit :=
  _ ← random;
  core ← new_Mesh;
  position_copy core pos;;
  add core;;
  animatedObjects_push core.

Definition zone_ring (pos : THREE.Vector3) (r : float) : M unit :=
  ring ← new_Mesh;
  position_copy ring pos;;
  rotation_x ring (Math_PI / 2);;
  rotation_y ring (r * 1.5);;
  add ring;;
  animatedObjects_push ring.

Definition zone_orb (pos : THREE.Vector3) (o : float) : M unit :=
  randomPastel;;
  orb ← new_Mesh;
  let orbAngle := (o / 8 * Math_PI * 2)%float in
  position_set orb
    (THREE.x pos + Math_cos orbAngle * 10)
    (THREE.y pos + Math_sin (orbAngle * 2) * 3)
    (THREE.z pos + Math_sin orbAngle * 10);;
  add orb;;
  animatedObjects_push orb.

Definition zone (pos : THREE.Vector3) : M unit :=
  anomalyPositions_push pos;;
  core_object pos;;
  for_n 3 0 (zone_ring pos);;
  for_n 8 0 (zone_orb pos);;
  light_object 2 pos.

Definition anomaly : M unit :=
  a ← random;
  let angle := (a * Math_PI * 2)%float in
  b ← random;
  let radius := (150 + b * 500)%float in
  let x := (Math_cos angle * radius)%float in
  let z := (Math_sin angle * radius)%float in
  c ← random;
  let y := (10 + c * 100)%float in
  zone {| THREE.x := x; THREE.y := y; THREE.z := z |}.

Definition anomalies : M unit := for_n 20 0 (fun _ => anomaly).

(** The ambient, the directional and the back light. *)
Definition ambient_object : M unit :=
  ambient ← new_AmbientLight;
  add ambient.

Definition dirLight_object : M unit :=
  dirLight ← new_DirectionalLight 1.2;
  position_set dirLight 20 50 20;;
  add dirLight.

Definition backLight_object : M unit :=
  backLight ← new_PointLight 0.8;
  position_set backLight (-50) 30 (-80);;
  add backLight.

Definition lighting : M unit :=
  ambient_object;;
  dirLight_object;;
  backLight_object.

(** [buildWorld(scene)]. *)
Definition buildWorld (fuel : nat) : M unit :=
  starfield;;
  galaxy;;
  ground;;
  islands fuel;;
  rocks;;
  unique;;
  dust;;
  teleporters;;
  anomalies;;
  lighting;;
  set_fog {| color := 0x0a0a14; density := 0.002 |}.

End WithMath.

(** The scene main.js makes before it calls [buildWorld], and the arrays
    of world.js as the module leaves them. *)
Definition scene0 : Scene :=
  {| world := {| World.heap := ∅; World.animatedObjects := nil;
                 World.pulsatingLights := nil; World.anomalyPositions := nil |};
     children := nil;
     fog := Some {| color := 0x050510; density := 0.008 |};
     created := O; drawn := 0%N |}.

End Build.

(** ** effects.js *)

Module Effects.

(** [UnrealBloomPass]. *)
Record BloomPass := mkBloomPass {
  threshold : float;
  strength : float;
  radius : float;
  bloom_renderToScreen : bool
}.

(** [ShaderPass(RGBShiftShader)] with its [amount] and [angle] uniforms. *)
Record RGBShiftPass := mkRGBShiftPass {
  amount : float;
  angle : float;
  rgb_renderToScreen : bool
}.

(** [FilmPass] with the uniforms of its four-argument form. *)
Record FilmPass := mkFilmPass {
  nIntensity : float;
  sIntensity : float;
  sCount : float;
  grayscale : bool;
  film_renderToScreen : bool
}.

(** [ShaderPass(VignetteShader)]. *)
Record VignettePass := mkVignettePass {
  offset : float;
  darkness : float;
  vignette_renderToScreen : bool
}.

(** The module-level variables [bloomPass], [rgbShiftPass], [filmPass]
    and [vignettePass]: undefined until [setupEffects] runs. *)
Record state := mkState {
  bloomPass : option BloomPass;
  rgbShiftPass : option RGBShiftPass;
  filmPass : option FilmPass;
  vignettePass : option VignettePass
}.

Definition initial : state :=
  {| bloomPass := None; rgbShiftPass := None; filmPass := None;
     vignettePass := None |}.

(** The passes a composer can hold. *)
Inductive pass := renderScene | bloom | rgbShift | film | vignette.

(** [EffectComposer]: the passes in the order [addPass] received them. *)
Record EffectComposer := mkComposer { passes : list pass }.

Definition addPass (p : pass) (c : EffectComposer) : EffectComposer :=
  {| passes := passes c ++ p :: nil |}.

(** [setupEffects(scene, camera, renderer)]: the module state it leaves
    and the composer it returns.  A pass is constructed with
    [renderToScreen = false]. *)
Definition setupEffects : state * EffectComposer :=
  let bloomPass :=
    {| threshold := 0.1; strength := 1.2; radius := 0.5;
       bloom_renderToScreen := false |} in
  let rgbShiftPass :=
    {| amount := 0.0025; angle := 0; rgb_renderToScreen := false |} in
  let filmPass :=
    {| nIntensity := 0.35; sIntensity := 0.5; sCount := 2048;
       grayscale := false; film_renderToScreen := false |} in
  let vignettePass :=
    {| offset := 0.8; darkness := 1.2; vignette_renderToScreen := false |} in
  let composer := {| passes := nil |} in
  let composer := addPass renderScene composer in
  let composer := addPass bloom composer in
  let composer := addPass rgbShift composer in
  let composer := addPass film composer in
  let composer := addPass vignette composer in
  let vignettePass :=
    {| offset := offset vignettePass; darkness := darkness vignettePass;
       vignette_renderToScreen := true |} in
  ({| bloomPass := Some bloomPass; rgbShiftPass := Some rgbShiftPass;
      filmPass := Some filmPass; vignettePass := Some vignettePass |},
   composer).

(** Whether a pass of the chain presents its output to the screen; the
    render pass is local to [setupEffects] and keeps the constructor's
    [false]. *)
Definition renderToScreen (s : state) (p : pass) : option bool :=
  match p with
  | renderScene => Some false
  | bloom => option_map bloom_renderToScreen (bloomPass s)
  | rgbShift => option_map rgb_renderToScreen (rgbShiftPass s)
  | film => option_map film_renderToScreen (filmPass s)
  | vignette => option_map vignette_renderToScreen (vignettePass s)
  end.

(** [updateEffects(intensity)]. *)
Definition updateEffects (s : state) (intensity : float) : state :=
  {| bloomPass :=
       match bloomPass s with
       | Some b =>
           Some {| threshold := threshold b;
                   strength := (0.8 + intensity * 2.0)%float;
                   radius := (0.3 + intensity * 0.7)%float;
                   bloom_renderToScreen := bloom_renderToScreen b |}
       | None => None
       end;
     rgbShiftPass :=
       match rgbShiftPass s with
       | Some r =>
           Some {| amount := (0.001 + intensity * 0.012)%float;
                   angle := angle r;
                   rgb_renderToScreen := rgb_renderToScreen r |}
       | None => None
       end;
     filmPass :=
       match filmPass s with
       | Some f =>
           Some {| nIntensity := (0.2 + intensity * 0.8)%float;
                   sIntensity := (0.3 + intensity * 0.7)%float;
                   sCount := sCount f; grayscale := grayscale f;
                   film_renderToScreen := film_renderToScreen f |}
       | None => None
       end;
     vignettePass :=
       match vignettePass s with
       | Some v =>
           Some {| offset := (0.9 - intensity * 0.4)%float;
                   darkness := (1.0 + intensity * 0.8)%float;
                   vignette_renderToScreen := vignette_renderToScreen v |}
       | None => None
       end |}.

End Effects.

(** ** audio.js *)

Module Audio.

(** The module-level variables [backgroundMusic] and [pillSound]
    (undefined until [setupAudio] runs) and the positional sounds
    [setupAudio] adds to the scene. *)
Record state := mkState {
  backgroundMusic : option THREE.Audio;
  pillSound : option THREE.Audio;
  positional : list THREE.Audio
}.

Definition initial : state :=
  {| backgroundMusic := None; pillSound := None; positional := nil |}.

(** [setupAudio(scene, listener)], up to the loads it starts: the sounds
    exist, none has a buffer yet. *)
Definition setupAudio : state :=
  {| backgroundMusic := Some THREE.newAudio;
     pillSound := Some THREE.newAudio;
     positional := repeat THREE.newAudio (6 + 12) |}.

(** The completion callback of the music load. *)
Definition musicLoaded (b : string) (s : state) : state :=
  {| backgroundMusic :=
       option_map
         (fun m => THREE.play (THREE.setVolume 0.5 (THREE.setLoop true (THREE.setBuffer b m))))
         (backgroundMusic s);
     pillSound := pillSound s;
     positional := positional s |}.

(** The completion callback of the pill-sound load. *)
Definition pillLoaded (b : string) (s : state) : state :=
  {| backgroundMusic := backgroundMusic s;
     pillSound :=
       option_map (fun p => THREE.setVolume 0.8 (THREE.setBuffer b p)) (pillSound s);
     positional := positional s |}.

(** A source node of the pill sound has played to its end. *)
Definition pillEnded (k : nat) (s : state) : state :=
  {| backgroundMusic := backgroundMusic s;
     pillSound := option_map (THREE.ended k) (pillSound s);
     positional := positional s |}.

(** [updateAudio(intensity)]. *)
Definition updateAudio (s : state) (intensity : float) : state :=
  match backgroundMusic s with
  | Some m =>
      {| backgroundMusic := Some (THREE.setVolume (0.3 + intensity * 0.7)%float m);
         pillSound := pillSound s;
         positional := positional s |}
  | None => s
  end.

(** [triggerPill()]. *)
Definition triggerPill (s : state) : state :=
  match pillSound s with
  | Some p =>
      match THREE.buffer p with
      | Some _ =>
          let p := if THREE.isPlaying p then THREE.stop p else p in
          {| backgroundMusic := backgroundMusic s;
             pillSound := Some (THREE.play p);
             positional := positional s |}
      | None => s
      end
  | None => s
  end.

(** What can happen to the audio layer after [setupAudio]. *)
Inductive event :=
| Trigger
| Update (intensity : float)
| MusicLoaded (b : string)
| PillLoaded (b : string)
| PillEnded (k : nat).

Definition step (s : state) (e : event) : state :=
  match e with
  | Trigger => triggerPill s
  | Update i => updateAudio s i
  | MusicLoaded b => musicLoaded b s
  | PillLoaded b => pillLoaded b s
  | PillEnded k => pillEnded k s
  end.

Definition run (s : state) (es : list event) : state := fold_left step es s.

(** The source nodes of the pill sound that are audible. *)
Definition pillSounding (s : state) : list (nat * float) :=
  match pillSound s with
  | Some p => THREE.sounding p
  | None => nil
  end.

End Audio.

(** ** main.js *)

Module Main.

(** The state the driver owns or reaches through the modules it imports. *)
Record state := mkState {
  world : World.state;
  effects : Effects.state;
  audio : Audio.state;
  pillIntensity : float
}.

(** What a frame reads from the host: [performance.now() / 1000] and the
    camera position once the controls have been advanced. *)
Record frame := mkFrame {
  elapsedTime : float;
  camera_position : THREE.Vector3
}.

(** The body of the [forEach] over [anomalyPositions]. *)
Definition accumulate (camera : THREE.Vector3) (baseIntensity : float)
           (pos : THREE.Vector3) : float :=
  let dist := THREE.distanceTo camera pos in
  if JS.lt dist 40 then (baseIntensity + (1 - dist / 40) * 0.33)%float
  else baseIntensity.

(** [baseIntensity] after the loop and the [Math.min]. *)
Definition baseIntensity (camera : THREE.Vector3)
           (anomalyPositions : list THREE.Vector3) : float :=
  JS.Math_min (fold_left (accumulate camera) anomalyPositions 0%float) 1.

(** The fade of the pill effect, once per frame. *)
Definition fade (pillIntensity : float) : float :=
  if JS.gt pillIntensity 0 then
    let pillIntensity := (pillIntensity * 0.99)%float in
    if JS.lt pillIntensity 0.01 then 0%float else pillIntensity
  else pillIntensity.

(** [totalIntensity], from the anomaly positions, the camera and the
    pill intensity the frame starts with. *)
Definition totalIntensity (camera : THREE.Vector3)
           (anomalyPositions : list THREE.Vector3) (pillIntensity : float) : float :=
  JS.Math_min 1 (baseIntensity camera anomalyPositions + fade pillIntensity)%float.

(** The [keydown] listener. *)
Definition keydown (s : state) (code : string) : state :=
  if String.eqb code "KeyE" then
    {| world := world s;
       effects := effects s;
       audio := Audio.triggerPill (audio s);
       pillIntensity := 1.0 |}
  else s.

(** The program start: the world [buildWorld] made, then [setupAudio],
    [setupEffects] and [pillIntensity = 0.0]. *)
Definition start (w : World.state) : state :=
  {| world := w;
     effects := fst Effects.setupEffects;
     audio := Audio.setupAudio;
     pillIntensity := 0.0 |}.

(** Frames and key presses, in the order the host delivers them. *)
Inductive event :=
| Frame (f : frame)
| KeyDown (code : string).

Section WithSin.

Variable Math_sin : float -> float.

(** [animate()], one frame.  [updateWorld] is called with the elapsed
    time only. *)
Definition animate (s : state) (f : frame) : state :=
  let w := World.updateWorld Math_sin (world s)
             (JS.number (elapsedTime f)) JS.undefined in
  let total :=
    totalIntensity (camera_position f) (World.anomalyPositions w)
      (pillIntensity s) in
  {| world := w;
     effects := Effects.updateEffects (effects s) total;
     audio := Audio.updateAudio (audio s) total;
     pillIntensity := fade (pillIntensity s) |}.

Definition step (s : state) (e : event) : state :=
  match e with
  | Frame f => animate s f
  | KeyDown code => keydown s code
  end.

Definition run (s : state) (es : list event) : state := fold_left step es s.

End WithSin.

End Main.

(** ** The program as the host runs it *)

Module Host.

(** What the host can deliver once the script has run: a frame, a key
    press, or the completion of one of the loads [setupAudio] started. *)
Inductive event :=
| Frame (f : Main.frame)
| KeyDown (code : string)
| MusicLoaded (b : string)
| PillLoaded (b : string)
| PillEnded (k : nat).

(** A callback of audio.js runs on the audio layer alone. *)
Definition callback (g : Audio.state -> Audio.state) (s : Main.state) : Main.state :=
  {| Main.world := Main.world s;
     Main.effects := Main.effects s;
     Main.audio := g (Main.audio s);
     Main.pillIntensity := Main.pillIntensity s |}.

Section WithSin.

Variable Math_sin : float -> float.

Definition step (s : Main.state) (e : event) : Main.state :=
  match e with
  | Frame f => Main.animate Math_sin s f
  | KeyDown code => Main.keydown s code
  | MusicLoaded b => callback (Audio.musicLoaded b) s
  | PillLoaded b => callback (Audio.pillLoaded b) s
  | PillEnded k => callback (Audio.pillEnded k) s
  end.

Definition run (s : Main.state) (es : list event) : Main.state := fold_left step es s.

End WithSin.

End Host.

(* ================================================================== *)
(** * Part II: binary64 arithmetic                                     *)
(* ================================================================== *)

(** The comparisons the claims make are comparisons of binary64 numbers.
    This part relates the operations of the format, as [SpecFloat]
    defines them, to exact integer arithmetic: every finite number is an
    integer multiple of [2 ^ -1074], every operation on non-negative
    finite numbers returns the rounding of the exact result, and rounding
    is monotone. *)

Module B64.

(** ** The rounding record of a quotient

    [SpecFloat] rounds by shifting a mantissa right while it remembers a
    round bit and a sticky bit.  For a quotient [n / d] the three fields
    are the integer part, whether the remainder is at least half of [d],
    and whether it is neither 0 nor exactly half. *)

Definition rec_of (n d : Z) : shr_record :=
  {| shr_m := n / d;
     shr_r := d <=? 2 * (n mod d);
     shr_s := negb (n mod d =? 0) && negb (2 * (n mod d) =? d) |}.

(** [n / d] rounded to the nearest integer, ties to even. *)
Definition rne (n d : Z) : Z :=
  let q := n / d in
  let r := n mod d in
  if 2 * r <? d then q
  else if d <? 2 * r then q + 1
  else if Z.even q then q else q + 1.

(** *** Number of binary digits *)

Lemma digits2_pos_log2 p : Zpos (digits2_pos p) = Z.log2 (Zpos p) + 1.
Proof.
  induction p as [p IH|p IH|]; cbn [digits2_pos]; rewrite ?Pos2Z.inj_succ, ?IH.
  - rewrite Pos2Z.inj_xI, Z.log2_succ_double by lia. lia.
  - rewrite Pos2Z.inj_xO, Z.log2_double by lia. lia.
  - reflexivity.
Qed.

Lemma Zdigits2_log2 m : 0 < m -> Zdigits2 m = Z.log2 m + 1.
Proof. destruct m; try lia. intros _. apply digits2_pos_log2. Qed.

Lemma Zdigits2_nonneg m : 0 <= Zdigits2 m.
Proof. destruct m; cbn; lia. Qed.

Lemma Zdigits2_bounds m : 0 < m -> 2 ^ (Zdigits2 m - 1) <= m < 2 ^ Zdigits2 m.
Proof.
  intros H. rewrite Zdigits2_log2 by lia.
  replace (Z.log2 m + 1 - 1) with (Z.log2 m) by lia.
  replace (Z.log2 m + 1) with (Z.succ (Z.log2 m)) by lia.
  apply Z.log2_spec; lia.
Qed.

Lemma Zdigits2_lt_pow2 m k : 0 <= m -> 0 <= k -> m < 2 ^ k -> Zdigits2 m <= k.
Proof.
  intros Hm Hk H. destruct (Z.eq_dec m 0) as [->|Hm0]; [cbn; lia|].
  rewrite Zdigits2_log2 by lia.
  assert (Z.log2 m < k) by (apply Z.log2_lt_pow2; lia). lia.
Qed.

Lemma Zdigits2_ge_pow2 m k : 0 <= k -> 2 ^ k <= m -> k + 1 <= Zdigits2 m.
Proof.
  intros Hk H. assert (0 < m) by (pose proof (Z.pow_pos_nonneg 2 k); lia).
  rewrite Zdigits2_log2 by lia.
  assert (k <= Z.log2 m) by (apply Z.log2_le_pow2; lia). lia.
Qed.

(** *** One shift doubles the denominator *)

Lemma shr_1_nonneg m r s :
  0 <= m -> shr_1 {| shr_m := m; shr_r := r; shr_s := s |}
            = {| shr_m := m / 2; shr_r := Z.odd m; shr_s := r || s |}.
Proof.
  intros Hm. rewrite <- Z.div2_div.
  destruct m as [|[p|p|]|p]; try lia; reflexivity.
Qed.

Lemma rec_of_shr_1 n d : 0 <= n -> 0 < d -> shr_1 (rec_of n d) = rec_of n (2 * d).
Proof.
  intros Hn Hd. unfold rec_of. rewrite shr_1_nonneg by (apply Z.div_pos; lia).
  assert (Hq : n / (2 * d) = n / d / 2).
  { rewrite (Z.mul_comm 2 d), Z.div_div by lia. reflexivity. }
  assert (Hm : n mod (2 * d) = n mod d + d * ((n / d) mod 2)).
  { rewrite (Z.mul_comm 2 d). apply Z.rem_mul_r; lia. }
  pose proof (Z.mod_pos_bound n d Hd) as Hr.
  pose proof (Z.mod_pos_bound (n / d) 2 ltac:(lia)) as Hb.
  rewrite Hq, Hm. clear Hq Hm.
  assert (Hc : (n / d) mod 2 = 0 \/ (n / d) mod 2 = 1) by lia.
  rewrite <- Z.negb_even, Zeven_mod.
  destruct Hc as [-> | ->]; cbn [Z.eqb negb];
    rewrite ?Z.mul_0_r, ?Z.mul_1_r, ?Z.add_0_r.
  - f_equal.
    + symmetry. apply Z.leb_gt. lia.
    + destruct (Z.leb_spec d (2 * (n mod d)));
      destruct (Z.eqb_spec (n mod d) 0);
      destruct (Z.eqb_spec (2 * (n mod d)) d);
      destruct (Z.eqb_spec (2 * (n mod d)) (2 * d));
      cbn; try reflexivity; lia.
  - f_equal.
    + symmetry. apply Z.leb_le. lia.
    + destruct (Z.leb_spec d (2 * (n mod d)));
      destruct (Z.eqb_spec (n mod d) 0);
      destruct (Z.eqb_spec (2 * (n mod d)) d);
      destruct (Z.eqb_spec (n mod d + d) 0);
      destruct (Z.eqb_spec (2 * (n mod d + d)) (2 * d));
      cbn; try reflexivity; lia.
Qed.

Lemma pow2_xI p : 2 ^ Zpos p~1 = 2 * 2 ^ Zpos p * 2 ^ Zpos p.
Proof.
  replace (Zpos p~1) with (1 + Zpos p + Zpos p) by lia.
  rewrite !Z.pow_add_r by lia. reflexivity.
Qed.

Lemma pow2_xO p : 2 ^ Zpos p~0 = 2 ^ Zpos p * 2 ^ Zpos p.
Proof.
  replace (Zpos p~0) with (Zpos p + Zpos p) by lia.
  rewrite !Z.pow_add_r by lia. reflexivity.
Qed.

Lemma pow2_pos k : 0 <= k -> 0 < 2 ^ k.
Proof. intros. apply Z.pow_pos_nonneg; lia. Qed.

Lemma iter_pos_shr_1 p : forall n d, 0 <= n -> 0 < d ->
  SpecFloat.iter_pos shr_1 p (rec_of n d) = rec_of n (d * 2 ^ Zpos p).
Proof.
  induction p as [p IH|p IH|]; intros n d Hn Hd; cbn [SpecFloat.iter_pos];
    try pose proof (pow2_pos (Zpos p) ltac:(lia)).
  - rewrite rec_of_shr_1, IH, IH by nia.
    f_equal. rewrite pow2_xI. ring.
  - rewrite IH, IH by nia.
    f_equal. rewrite pow2_xO. ring.
  - rewrite rec_of_shr_1 by lia. f_equal. change (2 ^ 1) with 2. ring.
Qed.

Lemma rne_rec n d : 0 < d ->
  round_nearest_even (shr_m (rec_of n d)) (loc_of_shr_record (rec_of n d)) = rne n d.
Proof.
  intros Hd. unfold rec_of, rne, loc_of_shr_record, round_nearest_even; cbn [shr_m].
  pose proof (Z.mod_pos_bound n d Hd) as Hr.
  destruct (Z.leb_spec d (2 * (n mod d)));
  destruct (Z.eqb_spec (n mod d) 0);
  destruct (Z.eqb_spec (2 * (n mod d)) d);
  destruct (Z.ltb_spec (2 * (n mod d)) d);
  destruct (Z.ltb_spec d (2 * (n mod d)));
  cbn; try reflexivity; try lia.
Qed.

(** ** Rounding in binary64 *)

(** The exponent of the format for a number of magnitude [e]: 53 bits of
    precision, smallest exponent -1074. *)
Definition fexp64 (e : Z) : Z := Z.max (e - 53) (-1074).

Lemma fexp_eq e : SpecFloat.fexp prec emax e = fexp64 e.
Proof. reflexivity. Qed.

(** Infinity, in units of [2 ^ -1074]: [2 ^ 1024]. *)
Definition overflow : Z := 2 ^ 2098.

(** The value of a number in units of [2 ^ -1074], an integer for every
    valid number; NaN is given 0. *)
Definition scaled (x : spec_float) : Z :=
  match x with
  | S754_zero _ => 0
  | S754_nan => 0
  | S754_infinity s => if s then - overflow else overflow
  | S754_finite s m e =>
      if s then - (Zpos m * 2 ^ (e + 1074)) else Zpos m * 2 ^ (e + 1074)
  end.

Lemma shr_rec n d e k : 0 <= n -> 0 < d ->
  shr (rec_of n d) e k = (rec_of n (d * 2 ^ Z.max k 0), e + Z.max k 0).
Proof.
  intros Hn Hd. destruct k as [|p|p]; cbn [shr].
  - cbn. rewrite Z.mul_1_r, Z.add_0_r. reflexivity.
  - rewrite iter_pos_shr_1 by lia. rewrite Z.max_l by lia. reflexivity.
  - rewrite Z.max_r by lia. cbn [Z.pow]. rewrite Z.mul_1_r, Z.add_0_r. reflexivity.
Qed.

Lemma rec_of_exact m : shr_record_of_loc m loc_Exact = rec_of m 1.
Proof.
  unfold rec_of. rewrite Z.div_1_r, Z.mod_1_r. reflexivity.
Qed.

(** The second half of [binary_round_aux]: renormalise the rounded
    mantissa and detect overflow. *)
Definition finish (s : bool) (m1 E : Z) : spec_float :=
  let '(mrs, e2) := shr_fexp prec emax m1 E loc_Exact in
  match shr_m mrs with
  | Z0 => S754_zero s
  | Zpos m => if e2 <=? emax - prec then S754_finite s m e2 else S754_infinity s
  | Zneg _ => S754_nan
  end.

Lemma binary_round_aux_rec s mx ex lx n d :
  shr_record_of_loc mx lx = rec_of n d -> 0 <= n -> 0 < d ->
  binary_round_aux prec emax s mx ex lx =
  let k := Z.max (fexp64 (Zdigits2 mx + ex) - ex) 0 in
  finish s (rne n (d * 2 ^ k)) (ex + k).
Proof.
  intros Hrec Hn Hd. unfold binary_round_aux, finish.
  unfold shr_fexp at 1. rewrite Hrec, fexp_eq, shr_rec by assumption.
  cbv zeta. rewrite rne_rec by (pose proof (pow2_pos (Z.max (fexp64 (Zdigits2 mx + ex) - ex) 0)); nia).
  reflexivity.
Qed.

Lemma pow2_le a b : 0 <= a <= b -> 2 ^ a <= 2 ^ b.
Proof. intros. apply Z.pow_le_mono_r; lia. Qed.

Lemma finish_scaled m1 E :
  0 <= m1 <= 2 ^ 53 -> -1074 <= E -> (E <= 971 \/ 2 ^ 52 <= m1) ->
  finish false m1 E <> S754_nan /\
  scaled (finish false m1 E) = Z.min (m1 * 2 ^ (E + 1074)) overflow.
Proof.
  intros [Hm0 Hm] HE Hov. unfold finish, shr_fexp.
  rewrite rec_of_exact, shr_rec, fexp_eq by lia. cbn [shr_m rec_of].
  rewrite Z.mul_1_l.
  assert (Hpe : 0 < 2 ^ (E + 1074)) by (apply pow2_pos; lia).
  destruct (Z.eq_dec m1 0) as [->|Hm1].
  { rewrite Z.div_0_l by (pose proof (pow2_pos (Z.max (fexp64 (Zdigits2 0 + E) - E) 0)); lia).
    split; [discriminate|]. cbn [scaled]. unfold overflow. rewrite Z.min_l; [reflexivity|].
    cbn. lia. }
  destruct (Z.eq_dec m1 (2 ^ 53)) as [->|Hm2].
  { replace (Zdigits2 (2 ^ 53)) with 54 by reflexivity.
    replace (Z.max (fexp64 (54 + E) - E) 0) with 1 by (unfold fexp64; lia).
    change (2 ^ 53 / 2 ^ 1) with (Zpos (Z.to_pos (2 ^ 52))).
    change (emax - prec) with 971.
    destruct (Z.leb_spec (E + 1) 971) as [H1|H1].
    - split; [discriminate|]. cbn [scaled].
      rewrite Z2Pos.id by (apply pow2_pos; lia).
      replace (E + 1 + 1074) with (1 + (E + 1074)) by lia.
      rewrite Z.pow_add_r by lia.
      assert (2 ^ 53 * 2 ^ (E + 1074) <= overflow).
      { unfold overflow. rewrite <- Z.pow_add_r by lia. apply pow2_le. lia. }
      rewrite Z.min_l by lia. change (2 ^ 53) with (2 ^ 52 * 2 ^ 1). ring.
    - split; [discriminate|]. cbn [scaled].
      assert (overflow <= 2 ^ 53 * 2 ^ (E + 1074)).
      { unfold overflow. rewrite <- Z.pow_add_r by lia. apply pow2_le. lia. }
      rewrite Z.min_r by lia. reflexivity. }
  assert (Hd : Zdigits2 m1 <= 53) by (apply Zdigits2_lt_pow2; lia).
  replace (Z.max (fexp64 (Zdigits2 m1 + E) - E) 0) with 0 by (unfold fexp64; lia).
  change (2 ^ 0) with 1. rewrite Z.div_1_r, Z.add_0_r.
  destruct m1 as [|p|p]; try lia.
  change (emax - prec) with 971.
  destruct (Z.leb_spec E 971) as [H1|H1].
  - split; [discriminate|]. cbn [scaled].
    assert (Zpos p * 2 ^ (E + 1074) <= overflow).
    { unfold overflow. transitivity (2 ^ 53 * 2 ^ (E + 1074)); [nia|].
      rewrite <- Z.pow_add_r by lia. apply pow2_le. lia. }
    rewrite Z.min_l by lia. reflexivity.
  - split; [discriminate|]. cbn [scaled].
    assert (overflow <= Zpos p * 2 ^ (E + 1074)).
    { unfold overflow. transitivity (2 ^ 52 * 2 ^ (E + 1074)); [|nia].
      rewrite <- Z.pow_add_r by lia. apply pow2_le. lia. }
    rewrite Z.min_r by lia. reflexivity.
Qed.

(** ** Rounding is monotone *)

Lemma rne_bounds n d : 0 < d -> n / d <= rne n d <= n / d + 1.
Proof.
  intros Hd. unfold rne.
  destruct (2 * (n mod d) <? d); [lia|].
  destruct (d <? 2 * (n mod d)); [lia|].
  destruct (Z.even (n / d)); lia.
Qed.

Lemma rne_mono n1 d1 n2 d2 :
  0 < d1 -> 0 < d2 -> n1 * d2 <= n2 * d1 -> rne n1 d1 <= rne n2 d2.
Proof.
  intros Hd1 Hd2 H.
  pose proof (Z.div_mod n1 d1 ltac:(lia)) as E1.
  pose proof (Z.div_mod n2 d2 ltac:(lia)) as E2.
  pose proof (Z.mod_pos_bound n1 d1 Hd1) as B1.
  pose proof (Z.mod_pos_bound n2 d2 Hd2) as B2.
  pose proof (rne_bounds n1 d1 Hd1) as R1.
  pose proof (rne_bounds n2 d2 Hd2) as R2.
  assert (Hq : n1 / d1 <= n2 / d2).
  { apply Z.div_le_lower_bound; [lia|].
    apply Z.lt_succ_r.
    apply (Z.mul_lt_mono_pos_r d1); [lia|].
    assert (n1 / d1 * d1 <= n1) by nia. nia. }
  destruct (Z.eq_dec (n1 / d1) (n2 / d2)) as [Heq|Hne]; [|lia].
  unfold rne in *. rewrite <- Heq in *.
  set (q := n1 / d1) in *. set (r1 := n1 mod d1) in *. set (r2 := n2 mod d2) in *.
  assert (Hr : r1 * d2 <= r2 * d1) by nia.
  destruct (Z.ltb_spec (2 * r1) d1); [lia|].
  destruct (Z.ltb_spec (2 * r2) d2); [nia|].
  destruct (Z.ltb_spec d1 (2 * r1)).
  - destruct (Z.ltb_spec d2 (2 * r2)); [lia|]. nia.
  - destruct (Z.ltb_spec d2 (2 * r2)); [destruct (Z.even q); lia|].
    lia.
Qed.

Lemma cross_scale A B P1 P2 Q1 Q2 T :
  0 < T -> P1 * Q1 = T -> P2 * Q2 = T -> 0 < Q1 -> 0 < Q2 ->
  A * P1 <= B * P2 -> A * Q2 <= B * Q1.
Proof.
  intros HT H1 H2 HQ1 HQ2 H.
  apply (Z.mul_le_mono_pos_r _ _ T); [assumption|].
  replace (A * Q2 * T) with (A * P1 * (Q1 * Q2)) by (rewrite <- H1; ring).
  replace (B * Q1 * T) with (B * P2 * (Q1 * Q2)) by (rewrite <- H2; ring).
  apply Z.mul_le_mono_nonneg_r; [nia|assumption].
Qed.

Lemma fexp64_mono a b : a <= b -> fexp64 a <= fexp64 b.
Proof. unfold fexp64. lia. Qed.

Lemma fexp64_ge e : -1074 <= fexp64 e.
Proof. unfold fexp64. lia. Qed.

(** Rounding the rational [n / d * 2 ^ e] to binary64. *)
Definition round_to (n d e : Z) : spec_float :=
  let k := Z.max (fexp64 (Zdigits2 (n / d) + e) - e) 0 in
  finish false (rne n (d * 2 ^ k)) (e + k).

Lemma norm_bounds n d e :
  0 <= n -> 0 < d -> e <= fexp64 (Zdigits2 (n / d) + e) ->
  let F := fexp64 (Zdigits2 (n / d) + e) in
  let D := d * 2 ^ (F - e) in
  0 < D /\ n / D < 2 ^ 53 /\ (-1074 < F -> 2 ^ 52 <= n / D).
Proof.
  intros Hn Hd He F D. subst D.
  assert (Hk : 0 <= F - e) by lia.
  assert (Hp : 0 < 2 ^ (F - e)) by (apply pow2_pos; lia).
  assert (Hmx : 0 <= n / d) by (apply Z.div_pos; lia).
  split; [nia|].
  rewrite <- Z.div_div by lia.
  set (mx := n / d) in *.
  assert (HF : Zdigits2 mx + e - 53 <= F) by (subst F; unfold fexp64; lia).
  split.
  - apply Z.div_lt_upper_bound; [lia|].
    rewrite <- Z.pow_add_r by lia.
    destruct (Z.eq_dec mx 0) as [->|Hne]; [apply pow2_pos; lia|].
    pose proof (Zdigits2_bounds mx ltac:(lia)) as [_ Hb].
    eapply Z.lt_le_trans; [exact Hb|]. apply pow2_le.
    pose proof (Zdigits2_nonneg mx). lia.
  - intros HFm.
    assert (HF2 : F = Zdigits2 mx + e - 53) by (subst F; unfold fexp64 in *; lia).
    destruct (Z.eq_dec mx 0) as [Hz|Hne].
    { exfalso. rewrite Hz in *. cbn in HF2. lia. }
    pose proof (Zdigits2_bounds mx ltac:(lia)) as [Hb _].
    apply Z.div_le_lower_bound; [lia|].
    rewrite <- Z.pow_add_r by lia.
    eapply Z.le_trans; [|exact Hb]. apply pow2_le. lia.
Qed.

Lemma round_to_scaled n d e :
  0 <= n -> 0 < d -> e <= fexp64 (Zdigits2 (n / d) + e) ->
  let F := fexp64 (Zdigits2 (n / d) + e) in
  let m := rne n (d * 2 ^ (F - e)) in
  round_to n d e <> S754_nan /\
  scaled (round_to n d e) = Z.min (m * 2 ^ (F + 1074)) overflow /\
  0 <= m <= 2 ^ 53 /\ (-1074 < F -> 2 ^ 52 <= m).
Proof.
  intros Hn Hd He F m.
  destruct (norm_bounds n d e Hn Hd He) as (HD & Hup & Hlo).
  fold F in HD, Hup, Hlo.
  pose proof (rne_bounds n (d * 2 ^ (F - e)) HD) as Hr. fold m in Hr.
  assert (Hq : 0 <= n / (d * 2 ^ (F - e))) by (apply Z.div_pos; lia).
  assert (Hm : 0 <= m <= 2 ^ 53) by lia.
  assert (Hnorm : -1074 < F -> 2 ^ 52 <= m) by (intros HF; specialize (Hlo HF); lia).
  unfold round_to. fold F. rewrite Z.max_l by lia. fold m.
  replace (e + (F - e)) with F by lia.
  pose proof (fexp64_ge (Zdigits2 (n / d) + e)) as HFge. fold F in HFge.
  destruct (finish_scaled m F Hm HFge) as [Hnn Hsc].
  { destruct (Z.le_gt_cases F 971); [left; lia|right; apply Hnorm; lia]. }
  repeat split; try assumption; lia.
Qed.

Theorem round_to_mono W n1 d1 e1 n2 d2 e2 :
  0 <= n1 -> 0 < d1 -> e1 <= fexp64 (Zdigits2 (n1 / d1) + e1) -> 0 <= e1 + W ->
  0 <= n2 -> 0 < d2 -> e2 <= fexp64 (Zdigits2 (n2 / d2) + e2) -> 0 <= e2 + W ->
  n1 * d2 * 2 ^ (e1 + W) <= n2 * d1 * 2 ^ (e2 + W) ->
  scaled (round_to n1 d1 e1) <= scaled (round_to n2 d2 e2).
Proof.
  intros Hn1 Hd1 He1 HW1 Hn2 Hd2 He2 HW2 Hle.
  destruct (round_to_scaled n1 d1 e1 Hn1 Hd1 He1) as (_ & -> & Hm1 & Hlo1).
  destruct (round_to_scaled n2 d2 e2 Hn2 Hd2 He2) as (_ & -> & Hm2 & Hlo2).
  set (F1 := fexp64 (Zdigits2 (n1 / d1) + e1)) in *.
  set (F2 := fexp64 (Zdigits2 (n2 / d2) + e2)) in *.
  set (m1 := rne n1 (d1 * 2 ^ (F1 - e1))) in *.
  set (m2 := rne n2 (d2 * 2 ^ (F2 - e2))) in *.
  pose proof (fexp64_ge (Zdigits2 (n1 / d1) + e1)) as HF1. fold F1 in HF1.
  pose proof (fexp64_ge (Zdigits2 (n2 / d2) + e2)) as HF2. fold F2 in HF2.
  assert (HF : F1 <= F2).
  { destruct (Z.eq_dec (n1 / d1) 0) as [Hz|Hnz].
    - subst F1. rewrite Hz in *. cbn [Zdigits2] in *. unfold fexp64 in *. lia.
    - apply fexp64_mono.
      assert (Hmx1 : 0 < n1 / d1) by (pose proof (Z.div_pos n1 d1); lia).
      pose proof (Zdigits2_bounds _ Hmx1) as [Hb1 _].
      assert (Hb2 : n2 / d2 + 1 <= 2 ^ Zdigits2 (n2 / d2)).
      { destruct (Z.eq_dec (n2 / d2) 0) as [->|Hnz2]; [cbn; lia|].
        assert (0 < n2 / d2) by (pose proof (Z.div_pos n2 d2); lia).
        pose proof (Zdigits2_bounds (n2 / d2)). lia. }
      pose proof (Z.div_mod n1 d1 ltac:(lia)) as E1.
      pose proof (Z.div_mod n2 d2 ltac:(lia)) as E2.
      pose proof (Z.mod_pos_bound n1 d1 Hd1) as B1.
      pose proof (Z.mod_pos_bound n2 d2 Hd2) as B2.
      set (g1 := Zdigits2 (n1 / d1)) in *. set (g2 := Zdigits2 (n2 / d2)) in *.
      assert (Hg1 : 1 <= g1).
      { subst g1. rewrite Zdigits2_log2 by lia. pose proof (Z.log2_nonneg (n1 / d1)). lia. }
      assert (Hg2 : 0 <= g2) by apply Zdigits2_nonneg.
      assert (Hlt : 2 ^ (g1 - 1 + (e1 + W)) < 2 ^ (g2 + (e2 + W))).
      { rewrite (Z.pow_add_r 2 (g1 - 1) (e1 + W)), (Z.pow_add_r 2 g2 (e2 + W)) by lia.
        assert (P1 : 0 < 2 ^ (e1 + W)) by (apply pow2_pos; lia).
        assert (P2 : 0 < 2 ^ (e2 + W)) by (apply pow2_pos; lia).
        apply (Z.mul_lt_mono_pos_r (d1 * d2)); [nia|].
        assert (2 ^ (g1 - 1) * d1 <= n1) by nia.
        assert (n2 < 2 ^ g2 * d2) by nia.
        assert (A : 2 ^ (g1 - 1) * 2 ^ (e1 + W) * (d1 * d2) <= n1 * d2 * 2 ^ (e1 + W)) by nia.
        assert (B : n2 * d1 * 2 ^ (e2 + W) < 2 ^ g2 * 2 ^ (e2 + W) * (d1 * d2)).
        { assert (n2 * (d1 * 2 ^ (e2 + W)) < 2 ^ g2 * d2 * (d1 * 2 ^ (e2 + W))).
          { apply Z.mul_lt_mono_pos_r; nia. }
          nia. }
        lia. }
      apply Z.pow_lt_mono_r_iff in Hlt; lia. }
  assert (P1 : 0 < 2 ^ (F1 + 1074)) by (apply pow2_pos; lia).
  assert (P2 : 0 < 2 ^ (F2 + 1074)) by (apply pow2_pos; lia).
  apply Z.min_le_compat_r.
  destruct (Z.eq_dec F1 F2) as [Heq|Hne].
  - subst m1 m2. clearbody F1 F2. subst F2.
    apply Z.mul_le_mono_nonneg_r; [lia|].
    assert (Q1 : 0 < 2 ^ (F1 - e1)) by (apply pow2_pos; lia).
    assert (Q2 : 0 < 2 ^ (F1 - e2)) by (apply pow2_pos; lia).
    apply rne_mono; [nia|nia|].
    assert (PT : 0 < 2 ^ (F1 + W)) by (apply pow2_pos; lia).
    apply (cross_scale (n1 * d2) (n2 * d1) (2 ^ (e1 + W)) (2 ^ (e2 + W))
             (2 ^ (F1 - e1)) (2 ^ (F1 - e2)) (2 ^ (F1 + W))) in Hle;
      try assumption; try (rewrite <- Z.pow_add_r by lia; f_equal; lia).
    lia.
  - assert (HF2' : -1074 < F2) by lia.
    specialize (Hlo2 HF2').
    transitivity (2 ^ 53 * 2 ^ (F1 + 1074)); [nia|].
    transitivity (2 ^ 52 * 2 ^ (F2 + 1074)); [|nia].
    rewrite <- !Z.pow_add_r by lia. apply pow2_le. lia.
Qed.

Lemma round_to_ext W n1 d1 e1 n2 d2 e2 :
  0 <= n1 -> 0 < d1 -> e1 <= fexp64 (Zdigits2 (n1 / d1) + e1) -> 0 <= e1 + W ->
  0 <= n2 -> 0 < d2 -> e2 <= fexp64 (Zdigits2 (n2 / d2) + e2) -> 0 <= e2 + W ->
  n1 * d2 * 2 ^ (e1 + W) = n2 * d1 * 2 ^ (e2 + W) ->
  scaled (round_to n1 d1 e1) = scaled (round_to n2 d2 e2).
Proof.
  intros. apply Z.le_antisymm; apply (round_to_mono W); try assumption; lia.
Qed.

(** Rounding to binary64 of the rational [n / d], both sides in units of
    [2 ^ -1074]. *)
Definition rnd (n d : Z) : Z := scaled (round_to (n * 2 ^ 1074) d (-2148)).

Lemma rnd_side n d : -2148 <= fexp64 (Zdigits2 (n / d) + -2148).
Proof. pose proof (fexp64_ge (Zdigits2 (n / d) + -2148)). lia. Qed.

Lemma rnd_mono n1 d1 n2 d2 :
  0 <= n1 -> 0 < d1 -> 0 <= n2 -> 0 < d2 -> n1 * d2 <= n2 * d1 ->
  rnd n1 d1 <= rnd n2 d2.
Proof.
  intros Hn1 Hd1 Hn2 Hd2 H. unfold rnd.
  assert (0 < 2 ^ 1074) by (apply pow2_pos; lia).
  apply (round_to_mono 2148); try apply rnd_side; try lia; try nia.
Qed.

Lemma round_to_not_nan n d e :
  0 <= n -> 0 < d -> e <= fexp64 (Zdigits2 (n / d) + e) -> round_to n d e <> S754_nan.
Proof. intros. apply round_to_scaled; assumption. Qed.

(** ** Valid numbers and their order *)

(** Validity of a finite binary64 number. *)
Lemma valid_finite s m e :
  valid_binary (S754_finite s m e) = true ->
  -1074 <= e <= 971 /\ Zpos m < 2 ^ 53 /\ (-1074 < e -> 2 ^ 52 <= Zpos m) /\
  fexp64 (Zdigits2 (Zpos m) + e) = e.
Proof.
  cbn [SpecFloat.valid_binary]. unfold bounded, canonical_mantissa.
  rewrite andb_true_iff, fexp_eq, Z.eqb_eq, Z.leb_le.
  change (emax - prec) with 971. change (Zpos (digits2_pos m)) with (Zdigits2 (Zpos m)).
  intros [Hc He].
  pose proof (Zdigits2_bounds (Zpos m) ltac:(lia)) as [Hlo Hhi].
  assert (Hd : Zdigits2 (Zpos m) <= 53) by (unfold fexp64 in Hc; lia).
  repeat split; try (unfold fexp64 in Hc; lia).
  - eapply Z.lt_le_trans; [exact Hhi|]. apply pow2_le. pose proof (Zdigits2_nonneg (Zpos m)). lia.
  - intros Hn. assert (Zdigits2 (Zpos m) = 53) by (unfold fexp64 in Hc; lia).
    rewrite H in Hlo. exact Hlo.
  - exact Hc.
Qed.

Lemma overflow_pos : 0 < overflow.
Proof. unfold overflow. apply pow2_pos. lia. Qed.

Lemma valid_finite_scaled m e :
  valid_binary (S754_finite false m e) = true ->
  0 < Zpos m * 2 ^ (e + 1074) < overflow.
Proof.
  intros H. destruct (valid_finite _ _ _ H) as (He & Hm & _).
  assert (0 < 2 ^ (e + 1074)) by (apply pow2_pos; lia).
  split; [nia|].
  apply Z.lt_le_trans with (2 ^ 53 * 2 ^ (e + 1074)); [nia|].
  unfold overflow. rewrite <- Z.pow_add_r by lia. apply pow2_le. lia.
Qed.

Lemma valid_lt_exp m1 e1 m2 e2 :
  valid_binary (S754_finite false m1 e1) = true ->
  valid_binary (S754_finite false m2 e2) = true ->
  e1 < e2 -> Zpos m1 * 2 ^ (e1 + 1074) < Zpos m2 * 2 ^ (e2 + 1074).
Proof.
  intros H1 H2 He.
  destruct (valid_finite _ _ _ H1) as (He1 & Hm1 & _).
  destruct (valid_finite _ _ _ H2) as (He2 & _ & Hm2 & _).
  specialize (Hm2 ltac:(lia)).
  assert (0 < 2 ^ (e1 + 1074)) by (apply pow2_pos; lia).
  assert (0 < 2 ^ (e2 + 1074)) by (apply pow2_pos; lia).
  apply Z.lt_le_trans with (2 ^ 53 * 2 ^ (e1 + 1074)); [nia|].
  apply Z.le_trans with (2 ^ 52 * 2 ^ (e2 + 1074)); [|nia].
  rewrite <- !Z.pow_add_r by lia. apply pow2_le. lia.
Qed.

(** On valid numbers the comparison of the format is the comparison of
    the scaled values. *)
Lemma SFcompare_scaled x y :
  valid_binary x = true -> valid_binary y = true ->
  x <> S754_nan -> y <> S754_nan ->
  SFcompare x y = Some (scaled x ?= scaled y).
Proof.
  intros Hx Hy Nx Ny. pose proof overflow_pos as Ho.
  destruct x as [sx|sx| |sx mx ex]; try congruence;
  destruct y as [sy|sy| |sy my ey]; try congruence; cbn [SFcompare scaled];
  try (assert (Vx := valid_finite_scaled mx ex Hx));
  try (assert (Vy := valid_finite_scaled my ey Hy)).
  1-8: try destruct sx; try destruct sy; apply f_equal; symmetry;
    first [apply Z.compare_eq_iff; lia|apply Z.compare_lt_iff; lia|apply Z.compare_gt_iff; lia].
  - assert (Hx' : valid_binary (S754_finite false mx ex) = true) by exact Hx.
    assert (Hy' : valid_binary (S754_finite false my ey) = true) by exact Hy.
    assert (Hcmp : (Zpos mx * 2 ^ (ex + 1074) ?= Zpos my * 2 ^ (ey + 1074)) =
                   match ex ?= ey with
                   | Lt => Lt | Gt => Gt | Eq => Pos.compare_cont Eq mx my
                   end).
    { destruct (Z.compare_spec ex ey) as [E|E|E].
      - subst ey. rewrite <- Zmult_compare_compat_r by lia. reflexivity.
      - apply Z.compare_lt_iff. apply valid_lt_exp; assumption.
      - apply Z.compare_gt_iff. apply valid_lt_exp; assumption. }
    destruct sx, sy; apply f_equal.
    + rewrite Z.compare_opp, (Z.compare_antisym (Zpos mx * 2 ^ (ex + 1074))), Hcmp.
      destruct (ex ?= ey); reflexivity.
    + symmetry. apply Z.compare_lt_iff. lia.
    + symmetry. apply Z.compare_gt_iff. lia.
    + symmetry. exact Hcmp.
Qed.

(** ** Results of rounding a non-negative value *)

Lemma rne_int q d : 0 < d -> rne (q * d) d = q.
Proof.
  intros Hd. unfold rne. rewrite Z.div_mul, Z.mod_mul by lia.
  destruct (Z.ltb_spec (2 * 0) d); [reflexivity|lia].
Qed.

Lemma bra_exact m e :
  0 <= m -> binary_round_aux prec emax false m e loc_Exact = round_to m 1 e.
Proof.
  intros Hm. rewrite (binary_round_aux_rec false m e loc_Exact m 1) by (try apply rec_of_exact; lia).
  unfold round_to. rewrite Z.div_1_r. reflexivity.
Qed.

(** The shape of a rounded non-negative value. *)
Definition nonneg (x : spec_float) : Prop :=
  match x with
  | S754_zero _ => True
  | S754_infinity s => s = false
  | S754_finite s _ _ => s = false
  | S754_nan => False
  end.

Definition finite0 (x : spec_float) : Prop :=
  match x with
  | S754_zero _ => True
  | S754_finite s _ _ => s = false
  | _ => False
  end.

Lemma finite0_nonneg x : finite0 x -> nonneg x.
Proof. destruct x; cbn; tauto. Qed.

Lemma nonneg_scaled x : nonneg x -> 0 <= scaled x.
Proof.
  pose proof overflow_pos as Ho.
  destruct x as [s|s| |s m e]; cbn [nonneg scaled]; intros H; subst; lia.
Qed.

Lemma nonneg_finite0 x :
  valid_binary x = true -> nonneg x -> scaled x < overflow -> finite0 x.
Proof.
  destruct x as [s|s| |s m e]; cbn [nonneg finite0 scaled]; intros V H L; subst; try tauto; lia.
Qed.

Lemma finite0_lt_overflow x : valid_binary x = true -> finite0 x -> scaled x < overflow.
Proof.
  destruct x as [s|s| |s m e]; cbn [finite0 scaled]; intros V H; subst; try tauto.
  - apply overflow_pos.
  - apply valid_finite_scaled. exact V.
Qed.

Lemma finish_nonneg m E : finish false m E <> S754_nan -> nonneg (finish false m E).
Proof.
  unfold finish. destruct (shr_fexp prec emax m E loc_Exact) as [mrs e2].
  destruct (shr_m mrs); [cbn; tauto| |congruence].
  destruct (e2 <=? emax - prec); cbn; reflexivity.
Qed.

Lemma round_to_nonneg n d e :
  0 <= n -> 0 < d -> e <= fexp64 (Zdigits2 (n / d) + e) -> nonneg (round_to n d e).
Proof.
  intros. apply finish_nonneg. apply (round_to_not_nan n d e); assumption.
Qed.

Lemma rnd_0 d : 0 < d -> rnd 0 d = 0.
Proof.
  intros Hd. unfold rnd.
  destruct (round_to_scaled (0 * 2 ^ 1074) d (-2148)) as (_ & -> & _);
    try apply rnd_side; try lia.
  rewrite Z.mul_0_l.
  set (F := fexp64 _). set (D := d * 2 ^ (F - -2148)).
  assert (0 < D).
  { subst D. pose proof (fexp64_ge (Zdigits2 (0 / d) + -2148)). fold F in H.
    pose proof (pow2_pos (F - -2148)). nia. }
  replace 0 with (0 * D) at 1 by lia. rewrite rne_int by assumption.
  pose proof overflow_pos. lia.
Qed.

Lemma rnd_id m e :
  valid_binary (S754_finite false m e) = true ->
  rnd (Zpos m * 2 ^ (e + 1074)) 1 = Zpos m * 2 ^ (e + 1074).
Proof.
  intros V. destruct (valid_finite _ _ _ V) as (He & Hm & Hn & Hc).
  assert (Hside : e <= fexp64 (Zdigits2 (Zpos m / 1) + e)) by (rewrite Z.div_1_r; lia).
  assert (P : 0 < 2 ^ (e + 1074)) by (apply pow2_pos; lia).
  assert (P' : 0 < 2 ^ 1074) by (apply pow2_pos; lia).
  unfold rnd.
  rewrite <- (round_to_ext 2148 (Zpos m) 1 e); try apply rnd_side; try lia; try nia.
  2:{ replace (e + 2148) with ((e + 1074) + 1074) by lia.
      rewrite Z.pow_add_r by lia. change (2 ^ (-2148 + 2148)) with 1. ring. }
  destruct (round_to_scaled (Zpos m) 1 e) as (_ & -> & _); try lia.
  rewrite Z.div_1_r, Hc, Z.sub_diag. change (1 * 2 ^ 0) with 1.
  replace (Zpos m) with (Zpos m * 1) at 1 by lia. rewrite rne_int by lia.
  pose proof (valid_finite_scaled m e V). lia.
Qed.

Lemma rnd_scaled x :
  valid_binary x = true -> finite0 x -> rnd (scaled x) 1 = scaled x.
Proof.
  destruct x as [s|s| |s m e]; cbn [finite0 scaled]; intros V H; subst;
    [apply rnd_0; lia|tauto|tauto|apply rnd_id; exact V].
Qed.

(** ** Multiplication *)

Lemma mul_side mx ex my ey :
  valid_binary (S754_finite false mx ex) = true ->
  valid_binary (S754_finite false my ey) = true ->
  ex + ey <= fexp64 (Zdigits2 (Zpos (mx * my) / 1) + (ex + ey)).
Proof.
  intros Vx Vy. rewrite Z.div_1_r.
  destruct (valid_finite _ _ _ Vx) as (Hex & Hmx & Hnx & _).
  destruct (valid_finite _ _ _ Vy) as (Hey & Hmy & Hny & _).
  destruct (Z.eq_dec ex (-1074)) as [E1|E1]; destruct (Z.eq_dec ey (-1074)) as [E2|E2].
  - unfold fexp64. lia.
  - specialize (Hny ltac:(lia)).
    assert (53 <= Zdigits2 (Zpos (mx * my))).
    { apply (Zdigits2_ge_pow2 _ 52); [lia|]. rewrite Pos2Z.inj_mul. nia. }
    unfold fexp64. lia.
  - specialize (Hnx ltac:(lia)).
    assert (53 <= Zdigits2 (Zpos (mx * my))).
    { apply (Zdigits2_ge_pow2 _ 52); [lia|]. rewrite Pos2Z.inj_mul. nia. }
    unfold fexp64. lia.
  - specialize (Hnx ltac:(lia)).
    assert (53 <= Zdigits2 (Zpos (mx * my))).
    { apply (Zdigits2_ge_pow2 _ 52); [lia|]. rewrite Pos2Z.inj_mul. nia. }
    unfold fexp64. lia.
Qed.

Lemma SFmul_finite0 x y :
  valid_binary x = true -> valid_binary y = true -> finite0 x -> finite0 y ->
  nonneg (SF64mul x y) /\ scaled (SF64mul x y) = rnd (scaled x * scaled y) (2 ^ 1074).
Proof.
  intros Vx Vy Fx Fy.
  assert (P' : 0 < 2 ^ 1074) by (apply pow2_pos; lia).
  destruct x as [sx|sx| |sx mx ex]; cbn [finite0] in Fx; try tauto;
  destruct y as [sy|sy| |sy my ey]; cbn [finite0] in Fy; try tauto; subst;
    unfold SF64mul; cbn [SFmul scaled nonneg xorb];
    rewrite ?Z.mul_0_l, ?Z.mul_0_r, ?rnd_0 by lia; try (split; [exact I|reflexivity]).
  rewrite bra_exact by lia.
  pose proof (mul_side mx ex my ey Vx Vy) as Hside.
  destruct (valid_finite _ _ _ Vx) as (Hex & _).
  destruct (valid_finite _ _ _ Vy) as (Hey & _).
  split; [apply round_to_nonneg; try lia; exact Hside|].
  unfold rnd.
  assert (0 < 2 ^ (ex + 1074)) by (apply pow2_pos; lia).
  assert (0 < 2 ^ (ey + 1074)) by (apply pow2_pos; lia).
  apply (round_to_ext 2148); try apply rnd_side; try lia; try nia.
  replace (ex + ey + 2148) with ((ex + 1074) + (ey + 1074)) by lia.
  rewrite Z.pow_add_r by lia. change (2 ^ (-2148 + 2148)) with 1.
  rewrite Pos2Z.inj_mul. ring.
Qed.

Lemma iter_xO m d : Zpos (Pos.iter xO m d) = Zpos m * 2 ^ Zpos d.
Proof.
  change (Pos.iter xO m d) with (shift_pos d m).
  rewrite shift_pos_correct, Z.pow_pos_fold. ring.
Qed.

Lemma shl_align_spec mx ex ez :
  let '(m, e) := shl_align mx ex ez in
  e = Z.min ex ez /\ Zpos m = Zpos mx * 2 ^ (ex - e).
Proof.
  unfold shl_align. destruct (ez - ex) as [|p|p] eqn:E.
  - split; [lia|]. rewrite Z.sub_diag. cbn. lia.
  - split; [lia|]. rewrite Z.sub_diag. cbn. lia.
  - split; [lia|]. rewrite iter_xO. f_equal. f_equal. lia.
Qed.

Lemma Zdigits2_mul_pow2 m k : 0 < m -> 0 <= k -> Zdigits2 (m * 2 ^ k) = Zdigits2 m + k.
Proof.
  intros Hm Hk. pose proof (pow2_pos k Hk).
  rewrite !Zdigits2_log2 by nia. rewrite Z.log2_mul_pow2 by lia. lia.
Qed.

(** ** Rounding an exact non-negative result *)

Lemma binary_round_rnd p e :
  -1074 <= e ->
  nonneg (binary_round prec emax false p e) /\
  scaled (binary_round prec emax false p e) = rnd (Zpos p * 2 ^ (e + 1074)) 1.
Proof.
  intros He. unfold binary_round. rewrite fexp_eq.
  change (Zpos (digits2_pos p)) with (Zdigits2 (Zpos p)).
  pose proof (shl_align_spec p e (fexp64 (Zdigits2 (Zpos p) + e))) as S.
  destruct (shl_align p e (fexp64 (Zdigits2 (Zpos p) + e))) as [mz ez].
  destruct S as [Hez Hmz].
  pose proof (fexp64_ge (Zdigits2 (Zpos p) + e)) as HF.
  rewrite bra_exact by lia.
  assert (Hside : ez <= fexp64 (Zdigits2 (Zpos mz / 1) + ez)).
  { rewrite Z.div_1_r, Hmz, Zdigits2_mul_pow2 by lia.
    replace (Zdigits2 (Zpos p) + (e - ez) + ez) with (Zdigits2 (Zpos p) + e) by lia. lia. }
  split; [apply round_to_nonneg; try lia; exact Hside|].
  unfold rnd.
  assert (0 < 2 ^ (e + 1074)) by (apply pow2_pos; lia).
  assert (0 < 2 ^ 1074) by (apply pow2_pos; lia).
  apply (round_to_ext 2148); try apply rnd_side; try lia; try nia.
  rewrite Hmz. change (2 ^ (-2148 + 2148)) with 1.
  rewrite !Z.mul_1_r, <- !Z.mul_assoc, <- !Z.pow_add_r by lia.
  f_equal. f_equal. lia.
Qed.

Lemma binary_normalize_rnd n e :
  0 <= n -> -1074 <= e ->
  nonneg (binary_normalize prec emax n e false) /\
  scaled (binary_normalize prec emax n e false) = rnd (n * 2 ^ (e + 1074)) 1.
Proof.
  intros Hn He. destruct n as [|p|p]; try lia; cbn [binary_normalize].
  - split; [exact I|]. rewrite Z.mul_0_l, rnd_0 by lia. reflexivity.
  - apply binary_round_rnd. exact He.
Qed.

Lemma aligned mx ex ey :
  -1074 <= ex -> -1074 <= ey ->
  Zpos (fst (shl_align mx ex (Z.min ex ey))) * 2 ^ (Z.min ex ey + 1074)
  = Zpos mx * 2 ^ (ex + 1074).
Proof.
  intros Hx Hy. pose proof (shl_align_spec mx ex (Z.min ex ey)) as S.
  destruct (shl_align mx ex (Z.min ex ey)) as [m e]. destruct S as [He Hm].
  cbn [fst]. rewrite Hm, He, <- Z.mul_assoc, <- Z.pow_add_r by lia.
  f_equal. f_equal. lia.
Qed.

(** ** Addition and subtraction of non-negative finite numbers *)

Lemma SFadd_finite0 x y :
  valid_binary x = true -> valid_binary y = true -> finite0 x -> finite0 y ->
  nonneg (SF64add x y) /\ scaled (SF64add x y) = rnd (scaled x + scaled y) 1.
Proof.
  intros Vx Vy Fx Fy.
  destruct x as [sx|sx| |sx mx ex]; cbn [finite0] in Fx; try tauto;
  destruct y as [sy|sy| |sy my ey]; cbn [finite0] in Fy; try tauto; subst;
    unfold SF64add; cbn [SFadd].
  - destruct sx, sy; cbn [nonneg scaled]; rewrite rnd_0 by lia; auto.
  - cbn [nonneg scaled]. rewrite Z.add_0_l, rnd_id by exact Vy. auto.
  - cbn [nonneg scaled]. rewrite Z.add_0_r, rnd_id by exact Vx. auto.
  - destruct (valid_finite _ _ _ Vx) as (Hex & _).
    destruct (valid_finite _ _ _ Vy) as (Hey & _).
    cbn [cond_Zopp scaled].
    destruct (binary_normalize_rnd
                (Zpos (fst (shl_align mx ex (Z.min ex ey))) +
                 Zpos (fst (shl_align my ey (Z.min ex ey)))) (Z.min ex ey))
      as [Hn Hs]; try lia.
    split; [exact Hn|]. rewrite Hs. f_equal.
    rewrite Z.mul_add_distr_r, aligned by lia.
    rewrite (Z.min_comm ex ey), aligned by lia. reflexivity.
Qed.

Lemma SFsub_finite0 x y :
  valid_binary x = true -> valid_binary y = true -> finite0 x -> finite0 y ->
  scaled y <= scaled x ->
  nonneg (SF64sub x y) /\ scaled (SF64sub x y) = rnd (scaled x - scaled y) 1.
Proof.
  intros Vx Vy Fx Fy Hle.
  destruct x as [sx|sx| |sx mx ex]; cbn [finite0] in Fx; try tauto;
  destruct y as [sy|sy| |sy my ey]; cbn [finite0] in Fy; try tauto; subst;
    unfold SF64sub; cbn [SFsub].
  - destruct sx, sy; cbn [nonneg scaled]; rewrite rnd_0 by lia; auto.
  - exfalso. cbn [scaled] in Hle. pose proof (valid_finite_scaled my ey Vy). lia.
  - cbn [nonneg scaled]. rewrite Z.sub_0_r, rnd_id by exact Vx. auto.
  - destruct (valid_finite _ _ _ Vx) as (Hex & _).
    destruct (valid_finite _ _ _ Vy) as (Hey & _).
    cbn [cond_Zopp scaled] in *.
    assert (A1 := aligned mx ex ey ltac:(lia) ltac:(lia)).
    assert (A2 := aligned my ey ex ltac:(lia) ltac:(lia)).
    rewrite (Z.min_comm ey ex) in A2.
    assert (P : 0 < 2 ^ (Z.min ex ey + 1074)) by (apply pow2_pos; lia).
    destruct (binary_normalize_rnd
                (Zpos (fst (shl_align mx ex (Z.min ex ey))) -
                 Zpos (fst (shl_align my ey (Z.min ex ey)))) (Z.min ex ey))
      as [Hn Hs]; try lia; try nia.
    split; [exact Hn|]. rewrite Hs. f_equal.
    rewrite Z.mul_sub_distr_r, A1, A2. reflexivity.
Qed.

(** ** Division *)

Lemma new_location_rec n d :
  0 <= n -> 0 < d ->
  shr_record_of_loc (n / d) (new_location d (n mod d)) = rec_of n d.
Proof.
  intros Hn Hd. pose proof (Z.mod_pos_bound n d Hd) as Hr.
  unfold rec_of, new_location, new_location_even, new_location_odd.
  set (r := n mod d) in *.
  destruct (Z.even d) eqn:Ev.
  - destruct (Z.eqb_spec r 0) as [E|E].
    + rewrite E. cbn [shr_record_of_loc]. f_equal.
      * symmetry. apply Z.leb_gt. lia.
    + destruct (Z.compare_spec (2 * r) d) as [C|C|C]; cbn [shr_record_of_loc]; f_equal;
        try (symmetry; apply Z.leb_le; lia); try (symmetry; apply Z.leb_gt; lia);
        cbn [negb andb]; symmetry.
      * destruct (Z.eqb_spec (2 * r) d); [reflexivity|lia].
      * destruct (Z.eqb_spec (2 * r) d); [lia|reflexivity].
      * destruct (Z.eqb_spec (2 * r) d); [lia|reflexivity].
  - assert (Hodd : Z.odd d = true) by (rewrite <- Z.negb_even, Ev; reflexivity).
    apply Z.odd_spec in Hodd. destruct Hodd as [h Hh].
    destruct (Z.eqb_spec r 0) as [E|E].
    + rewrite E. cbn [shr_record_of_loc]. f_equal.
      * symmetry. apply Z.leb_gt. lia.
    + destruct (Z.compare_spec (2 * r + 1) d) as [C|C|C]; cbn [shr_record_of_loc]; f_equal;
        try (symmetry; apply Z.leb_le; lia); try (symmetry; apply Z.leb_gt; lia);
        cbn [negb andb]; symmetry;
        (destruct (Z.eqb_spec (2 * r) d); [lia|reflexivity]).
Qed.

Lemma div_eucl_eq a b : Z.div_eucl a b = (a / b, a mod b).
Proof. unfold Z.div, Z.modulo. destruct (Z.div_eucl a b). reflexivity. Qed.

Lemma shift_match m s :
  0 <= s ->
  match s with Z0 => m | Zpos _ => Z.shiftl m s | Zneg _ => 0 end = m * 2 ^ s.
Proof.
  intros Hs. destruct s as [|p|p]; try lia.
  apply Z.shiftl_mul_pow2. lia.
Qed.

Lemma SFdiv_finite mx ex my ey :
  valid_binary (S754_finite false mx ex) = true ->
  valid_binary (S754_finite false my ey) = true ->
  nonneg (SF64div (S754_finite false mx ex) (S754_finite false my ey)) /\
  scaled (SF64div (S754_finite false mx ex) (S754_finite false my ey))
  = rnd (Zpos mx * 2 ^ (ex + 1074) * 2 ^ 1074) (Zpos my * 2 ^ (ey + 1074)).
Proof.
  intros Vx Vy.
  destruct (valid_finite _ _ _ Vx) as (Hex & Hmx & _).
  destruct (valid_finite _ _ _ Vy) as (Hey & Hmy & _).
  unfold SF64div. cbn [SFdiv xorb]. unfold SFdiv_core_binary. rewrite fexp_eq.
  set (d1 := Zdigits2 (Zpos mx)). set (d2 := Zdigits2 (Zpos my)).
  set (mu := d1 + ex - (d2 + ey)).
  set (e' := Z.min (fexp64 mu) (ex - ey)).
  set (s := ex - ey - e').
  assert (Hs : 0 <= s) by (subst s e'; lia).
  rewrite (shift_match (Zpos mx) s Hs).
  set (m' := Zpos mx * 2 ^ s).
  assert (Hm' : m' = Zpos mx * 2 ^ s) by reflexivity.
  clearbody m'. rewrite div_eucl_eq.
  assert (Ps : 0 < 2 ^ s) by (apply pow2_pos; lia).
  assert (Hm'0 : 0 < m') by nia.
  rewrite (binary_round_aux_rec false (m' / Zpos my) e' _ m' (Zpos my))
    by (try apply new_location_rec; lia).
  cbv zeta. fold (round_to m' (Zpos my) e').
  pose proof (Zdigits2_bounds (Zpos mx) ltac:(lia)) as [B1 B1']. fold d1 in B1, B1'.
  pose proof (Zdigits2_bounds (Zpos my) ltac:(lia)) as [B2 B2']. fold d2 in B2, B2'.
  assert (Hd1 : 1 <= d1).
  { subst d1. rewrite Zdigits2_log2 by lia. pose proof (Z.log2_nonneg (Zpos mx)). lia. }
  assert (Hd2 : 1 <= d2).
  { subst d2. rewrite Zdigits2_log2 by lia. pose proof (Z.log2_nonneg (Zpos my)). lia. }
  assert (Hside : e' <= fexp64 (Zdigits2 (m' / Zpos my) + e')).
  { pose proof (fexp64_ge (Zdigits2 (m' / Zpos my) + e')) as G.
    destruct (Z.le_gt_cases d2 (d1 - 1 + s)) as [C|C].
    - assert (Hq : 2 ^ (d1 - 1 + s - d2) <= m' / Zpos my).
      { apply Z.div_le_lower_bound; [lia|].
        apply Z.le_trans with (2 ^ d2 * 2 ^ (d1 - 1 + s - d2)).
        - pose proof (pow2_pos (d1 - 1 + s - d2) ltac:(lia)). nia.
        - rewrite <- Z.pow_add_r by lia.
          replace (d2 + (d1 - 1 + s - d2)) with ((d1 - 1) + s) by lia.
          rewrite Z.pow_add_r by lia. rewrite Hm'. nia. }
      apply Zdigits2_ge_pow2 in Hq; [|lia].
      apply Z.le_trans with (fexp64 mu); [subst e'; lia|].
      apply fexp64_mono. subst mu s. lia.
    - assert (mu <= e') by (subst mu s; lia).
      assert (e' <= fexp64 mu) by (subst e'; lia).
      unfold fexp64 in H0. lia. }
  split; [apply round_to_nonneg; try lia; exact Hside|].
  unfold rnd.
  assert (P1 : 0 < 2 ^ (ex + 1074)) by (apply pow2_pos; lia).
  assert (P2 : 0 < 2 ^ (ey + 1074)) by (apply pow2_pos; lia).
  assert (P3 : 0 < 2 ^ 1074) by (apply pow2_pos; lia).
  assert (He' : -2148 <= e').
  { pose proof (fexp64_ge mu). subst e'. lia. }
  apply (round_to_ext 2148); try apply rnd_side; try lia; try nia.
  change (2 ^ (-2148 + 2148)) with 1. rewrite Hm'.
  replace (Zpos mx * 2 ^ s * (Zpos my * 2 ^ (ey + 1074)) * 2 ^ (e' + 2148))
    with (Zpos mx * Zpos my * (2 ^ s * 2 ^ (ey + 1074) * 2 ^ (e' + 2148))) by ring.
  rewrite <- !Z.pow_add_r by lia.
  replace (s + (ey + 1074) + (e' + 2148)) with ((ex + 1074) + 1074 + 1074) by (subst s; lia).
  rewrite !Z.pow_add_r by lia. ring.
Qed.

Lemma SFdiv_finite0 x y :
  valid_binary x = true -> valid_binary y = true -> finite0 x -> finite0 y ->
  0 < scaled y ->
  nonneg (SF64div x y) /\ scaled (SF64div x y) = rnd (scaled x * 2 ^ 1074) (scaled y).
Proof.
  intros Vx Vy Fx Fy Hy.
  destruct y as [sy|sy| |sy my ey]; cbn [finite0] in Fy; try tauto; subst;
    cbn [scaled] in Hy; try lia.
  destruct x as [sx|sx| |sx mx ex]; cbn [finite0] in Fx; try tauto; subst.
  - unfold SF64div. cbn [SFdiv nonneg scaled]. rewrite Z.mul_0_l, rnd_0 by lia. auto.
  - apply SFdiv_finite; assumption.
Qed.

(** ** Square root *)

Lemma SFsqrt_nonneg x : SF64sqrt x = S754_nan \/ nonneg (SF64sqrt x).
Proof.
  unfold SF64sqrt. destruct x as [s|[|]| |[|] m e]; cbn [SFsqrt nonneg];
    try (left; reflexivity); try (right; cbn; auto; fail).
  destruct (SFsqrt_core_binary prec emax (Zpos m) e) as [[mz ez] lz].
  unfold binary_round_aux.
  destruct (shr_fexp prec emax mz ez lz) as [mrs' e'].
  destruct (shr_fexp prec emax _ e' loc_Exact) as [mrs'' e''].
  destruct (shr_m mrs''); [right; exact I| |left; reflexivity].
  destruct (e'' <=? emax - prec); right; reflexivity.
Qed.

(** ** Comparisons *)

Lemma nan_dec (x : spec_float) : {x = S754_nan} + {x <> S754_nan}.
Proof. destruct x; (left; reflexivity) || (right; discriminate). Qed.

Lemma SFcompare_nan_r x : SFcompare x S754_nan = None.
Proof. destruct x; reflexivity. Qed.

Lemma SFleb_iff x y :
  valid_binary x = true -> valid_binary y = true ->
  SFleb x y = true <-> x <> S754_nan /\ y <> S754_nan /\ scaled x <= scaled y.
Proof.
  intros Vx Vy. unfold SFleb.
  destruct (nan_dec x) as [->|Nx]; [cbn; split; [discriminate|intros (? & _); congruence]|].
  destruct (nan_dec y) as [->|Ny];
    [rewrite SFcompare_nan_r; split; [discriminate|intros (_ & ? & _); congruence]|].
  rewrite SFcompare_scaled by assumption.
  destruct (Z.compare_spec (scaled x) (scaled y)); split;
    try discriminate; try (intros; repeat split; try assumption; lia);
    try (intros (_ & _ & ?); try reflexivity; lia).
Qed.

Lemma SFltb_iff x y :
  valid_binary x = true -> valid_binary y = true ->
  SFltb x y = true <-> x <> S754_nan /\ y <> S754_nan /\ scaled x < scaled y.
Proof.
  intros Vx Vy. unfold SFltb.
  destruct (nan_dec x) as [->|Nx]; [cbn; split; [discriminate|intros (? & _); congruence]|].
  destruct (nan_dec y) as [->|Ny];
    [rewrite SFcompare_nan_r; split; [discriminate|intros (_ & ? & _); congruence]|].
  rewrite SFcompare_scaled by assumption.
  destruct (Z.compare_spec (scaled x) (scaled y)); split;
    try discriminate; try (intros; repeat split; try assumption; lia);
    try (intros (_ & _ & ?); try reflexivity; lia).
Qed.

Lemma SFeqb_iff x y :
  valid_binary x = true -> valid_binary y = true ->
  SFeqb x y = true <-> x <> S754_nan /\ y <> S754_nan /\ scaled x = scaled y.
Proof.
  intros Vx Vy. unfold SFeqb.
  destruct (nan_dec x) as [->|Nx]; [cbn; split; [discriminate|intros (? & _); congruence]|].
  destruct (nan_dec y) as [->|Ny];
    [rewrite SFcompare_nan_r; split; [discriminate|intros (_ & ? & _); congruence]|].
  rewrite SFcompare_scaled by assumption.
  destruct (Z.compare_spec (scaled x) (scaled y)); split;
    try discriminate; try (intros; repeat split; try assumption; lia);
    try (intros (_ & _ & ?); try reflexivity; lia).
Qed.

Lemma nonneg_iff x :
  valid_binary x = true -> nonneg x <-> x <> S754_nan /\ 0 <= scaled x.
Proof.
  intros V. pose proof overflow_pos as Ho.
  destruct x as [s|s| |s m e]; cbn [nonneg scaled].
  - split; [intros _; split; [discriminate|lia]|auto].
  - destruct s; split; try discriminate; try (intros [_ ?]; lia); auto.
    intros _. split; [discriminate|lia].
  - split; [contradiction|intros [? _]; congruence].
  - pose proof (valid_finite_scaled m e V).
    destruct s; split; try discriminate; try (intros [_ ?]; lia); auto.
    intros _. split; [discriminate|lia].
Qed.

(** ** Primitive floats

    The same facts on the numbers of the program, through the
    specification of each primitive operation. *)

(** The value of a number in units of [2 ^ -1074]. *)
Definition val (x : float) : Z := scaled (Prim2SF x).

(** [x <= y] and [x < y] as the program evaluates them: false on NaN. *)
Definition fle (x y : float) : Prop := (x <=? y)%float = true.
Definition flt (x y : float) : Prop := (x <? y)%float = true.

(** Zero of either sign, a positive finite number or +infinity. *)
Definition fnonneg (x : float) : Prop := nonneg (Prim2SF x).

(** Zero of either sign or a positive finite number. *)
Definition ffinite0 (x : float) : Prop := finite0 (Prim2SF x).

Definition not_nan (x : float) : Prop := Prim2SF x <> S754_nan.

Lemma fle_iff x y : fle x y <-> not_nan x /\ not_nan y /\ val x <= val y.
Proof. unfold fle. rewrite FloatAxioms.leb_spec. apply SFleb_iff; apply Prim2SF_valid. Qed.

Lemma flt_iff x y : flt x y <-> not_nan x /\ not_nan y /\ val x < val y.
Proof. unfold flt. rewrite FloatAxioms.ltb_spec. apply SFltb_iff; apply Prim2SF_valid. Qed.

Lemma feqb_iff x y : (x =? y)%float = true <-> not_nan x /\ not_nan y /\ val x = val y.
Proof. rewrite FloatAxioms.eqb_spec. apply SFeqb_iff; apply Prim2SF_valid. Qed.

Lemma val_zero : val 0 = 0.
Proof. reflexivity. Qed.

Lemma fnonneg_iff x : fnonneg x <-> fle 0 x.
Proof.
  unfold fnonneg. rewrite nonneg_iff by apply Prim2SF_valid.
  rewrite fle_iff, val_zero. unfold not_nan, val.
  split; [intros [? ?]; repeat split; try assumption; discriminate|intros (_ & ? & ?); auto].
Qed.

Lemma fnonneg_not_nan x : fnonneg x -> not_nan x.
Proof. rewrite fnonneg_iff, fle_iff. tauto. Qed.

Lemma ffinite0_fnonneg x : ffinite0 x -> fnonneg x.
Proof. apply finite0_nonneg. Qed.

Lemma val_infinity : val infinity = overflow.
Proof. reflexivity. Qed.

Lemma ffinite0_iff x : ffinite0 x <-> fle 0 x /\ flt x infinity.
Proof.
  rewrite <- fnonneg_iff, flt_iff, val_infinity. split.
  - intros H. split; [apply ffinite0_fnonneg; exact H|].
    split; [apply fnonneg_not_nan, ffinite0_fnonneg; exact H|].
    split; [discriminate|]. apply finite0_lt_overflow; [apply Prim2SF_valid|exact H].
  - intros (Hn & _ & _ & Hlt). apply nonneg_finite0; [apply Prim2SF_valid|exact Hn|exact Hlt].
Qed.

Lemma ffinite0_le x y : fle 0 x -> fle x y -> ffinite0 y -> ffinite0 x.
Proof.
  intros H0 Hxy Hy. apply ffinite0_iff. split; [exact H0|].
  apply ffinite0_iff in Hy. destruct Hy as [_ Hy].
  apply flt_iff. apply flt_iff in Hy. apply fle_iff in Hxy. apply fle_iff in H0.
  intuition lia.
Qed.

Lemma fle_trans x y z : fle x y -> fle y z -> fle x z.
Proof. rewrite !fle_iff. intuition lia. Qed.

Lemma fle_refl x : not_nan x -> fle x x.
Proof. rewrite fle_iff. intuition lia. Qed.

Lemma flt_not_le x y : fle y x -> (x <? y)%float = false.
Proof.
  intros H. destruct (x <? y)%float eqn:E; [|reflexivity].
  apply flt_iff in E. apply fle_iff in H. lia.
Qed.

Lemma not_flt_fle x y : not_nan x -> not_nan y -> (x <? y)%float = false -> fle y x.
Proof.
  intros Nx Ny H. apply fle_iff. repeat split; try assumption.
  destruct (Z.le_gt_cases (val y) (val x)) as [L|L]; [exact L|].
  assert (flt x y) by (apply flt_iff; auto). unfold flt in H0. congruence.
Qed.

(** *** Each operation returns the rounded exact result *)

Lemma mul_val x y :
  ffinite0 x -> ffinite0 y ->
  fnonneg (x * y)%float /\ val (x * y)%float = rnd (val x * val y) (2 ^ 1074).
Proof.
  intros Hx Hy. unfold fnonneg, val. rewrite FloatAxioms.mul_spec.
  apply SFmul_finite0; try apply Prim2SF_valid; assumption.
Qed.

Lemma add_val x y :
  ffinite0 x -> ffinite0 y ->
  fnonneg (x + y)%float /\ val (x + y)%float = rnd (val x + val y) 1.
Proof.
  intros Hx Hy. unfold fnonneg, val. rewrite FloatAxioms.add_spec.
  apply SFadd_finite0; try apply Prim2SF_valid; assumption.
Qed.

Lemma sub_val x y :
  ffinite0 x -> ffinite0 y -> fle y x ->
  fnonneg (x - y)%float /\ val (x - y)%float = rnd (val x - val y) 1.
Proof.
  intros Hx Hy Hle. unfold fnonneg, val. rewrite FloatAxioms.sub_spec.
  apply SFsub_finite0; try apply Prim2SF_valid; try assumption.
  apply fle_iff in Hle. apply Hle.
Qed.

Lemma div_val x y :
  ffinite0 x -> ffinite0 y -> flt 0 y ->
  fnonneg (x / y)%float /\ val (x / y)%float = rnd (val x * 2 ^ 1074) (val y).
Proof.
  intros Hx Hy Hlt. unfold fnonneg, val. rewrite FloatAxioms.div_spec.
  apply SFdiv_finite0; try apply Prim2SF_valid; try assumption.
  apply flt_iff in Hlt. rewrite val_zero in Hlt. apply Hlt.
Qed.

Lemma ffinite0_val x : ffinite0 x -> 0 <= val x < overflow.
Proof.
  intros H. split.
  - apply nonneg_scaled, finite0_nonneg, H.
  - apply finite0_lt_overflow; [apply Prim2SF_valid|exact H].
Qed.

Lemma fle_of_val x y : fnonneg x -> fnonneg y -> val x <= val y -> fle x y.
Proof.
  intros Hx Hy H. apply fle_iff.
  repeat split; try apply fnonneg_not_nan; assumption.
Qed.

(** ** Monotonicity *)

Lemma mul_mono x1 c1 x2 c2 :
  ffinite0 x1 -> ffinite0 c1 -> ffinite0 x2 -> ffinite0 c2 ->
  fle x1 x2 -> fle c1 c2 -> fle (x1 * c1) (x2 * c2).
Proof.
  intros H1 H2 H3 H4 Hx Hc.
  destruct (mul_val x1 c1 H1 H2) as [N1 V1]. destruct (mul_val x2 c2 H3 H4) as [N2 V2].
  apply fle_of_val; try assumption. rewrite V1, V2.
  apply fle_iff in Hx. apply fle_iff in Hc.
  pose proof (ffinite0_val x1 H1). pose proof (ffinite0_val c1 H2).
  pose proof (ffinite0_val x2 H3). pose proof (ffinite0_val c2 H4).
  assert (0 < 2 ^ 1074) by (apply pow2_pos; lia).
  apply rnd_mono; try nia.
Qed.

Lemma add_mono x1 y1 x2 y2 :
  ffinite0 x1 -> ffinite0 y1 -> ffinite0 x2 -> ffinite0 y2 ->
  fle x1 x2 -> fle y1 y2 -> fle (x1 + y1) (x2 + y2).
Proof.
  intros H1 H2 H3 H4 Hx Hy.
  destruct (add_val x1 y1 H1 H2) as [N1 V1]. destruct (add_val x2 y2 H3 H4) as [N2 V2].
  apply fle_of_val; try assumption. rewrite V1, V2.
  apply fle_iff in Hx. apply fle_iff in Hy.
  pose proof (ffinite0_val x1 H1). pose proof (ffinite0_val y1 H2).
  pose proof (ffinite0_val x2 H3). pose proof (ffinite0_val y2 H4).
  apply rnd_mono; lia.
Qed.

Lemma sub_mono x1 y1 x2 y2 :
  ffinite0 x1 -> ffinite0 y1 -> ffinite0 x2 -> ffinite0 y2 ->
  fle y1 x1 -> fle x1 x2 -> fle y2 y1 -> fle (x1 - y1) (x2 - y2).
Proof.
  intros H1 H2 H3 H4 Hyx Hx Hy.
  assert (Hyx2 : fle y2 x2) by (eapply fle_trans; [exact Hy|]; eapply fle_trans; eassumption).
  destruct (sub_val x1 y1 H1 H2 Hyx) as [N1 V1].
  destruct (sub_val x2 y2 H3 H4 Hyx2) as [N2 V2].
  apply fle_of_val; try assumption. rewrite V1, V2.
  apply fle_iff in Hx. apply fle_iff in Hy. apply fle_iff in Hyx.
  apply rnd_mono; lia.
Qed.

Lemma div_mono x1 x2 c :
  ffinite0 x1 -> ffinite0 x2 -> ffinite0 c -> flt 0 c ->
  fle x1 x2 -> fle (x1 / c) (x2 / c).
Proof.
  intros H1 H2 H3 Hc Hx.
  destruct (div_val x1 c H1 H3 Hc) as [N1 V1]. destruct (div_val x2 c H2 H3 Hc) as [N2 V2].
  apply fle_of_val; try assumption. rewrite V1, V2.
  apply fle_iff in Hx. apply flt_iff in Hc. rewrite val_zero in Hc.
  pose proof (ffinite0_val x1 H1). pose proof (ffinite0_val x2 H2).
  assert (0 < 2 ^ 1074) by (apply pow2_pos; lia).
  apply rnd_mono; try nia.
Qed.

Lemma mul_one_r x : ffinite0 x -> val (x * 1)%float = val x.
Proof.
  intros H. destruct (mul_val x 1 H) as [_ V]; [vm_compute; reflexivity|].
  rewrite V. replace (val 1) with (2 ^ 1074) by (vm_compute; reflexivity).
  pose proof (ffinite0_val x H).
  assert (0 < 2 ^ 1074) by (apply pow2_pos; lia).
  transitivity (rnd (val x) 1).
  - apply Z.le_antisymm; apply rnd_mono; nia.
  - apply rnd_scaled; [apply Prim2SF_valid|exact H].
Qed.

(** ** Non-negative numbers, infinity included *)

Lemma SFadd_nonneg x y :
  valid_binary x = true -> valid_binary y = true -> nonneg x -> nonneg y ->
  nonneg (SF64add x y).
Proof.
  intros Vx Vy Nx Ny.
  destruct x as [sx|sx| |sx mx ex] eqn:Ex; cbn [nonneg] in Nx; try contradiction;
  destruct y as [sy|sy| |sy my ey] eqn:Ey; cbn [nonneg] in Ny; try contradiction;
    subst; try exact I; try reflexivity;
    try (apply SFadd_finite0; try assumption; try exact I; reflexivity).
Qed.

Lemma SFmul_nonneg x y :
  valid_binary x = true -> valid_binary y = true -> nonneg x -> finite0 y ->
  0 < scaled y -> nonneg (SF64mul x y).
Proof.
  intros Vx Vy Nx Fy Hy.
  destruct y as [sy|sy| |sy my ey]; cbn [finite0 scaled] in Fy, Hy; try contradiction; try lia.
  subst.
  destruct x as [sx|sx| |sx mx ex] eqn:Ex; cbn [nonneg] in Nx; try contradiction;
    subst; try exact I; try reflexivity.
  apply SFmul_finite0; try assumption; reflexivity.
Qed.

Lemma add_nonneg x y : fle 0 x -> fle 0 y -> fle 0 (x + y).
Proof.
  rewrite <- !fnonneg_iff. unfold fnonneg. rewrite FloatAxioms.add_spec.
  apply SFadd_nonneg; apply Prim2SF_valid.
Qed.

Lemma mul_nonneg x c : fle 0 x -> ffinite0 c -> flt 0 c -> fle 0 (x * c).
Proof.
  rewrite <- !fnonneg_iff. unfold fnonneg, ffinite0. rewrite FloatAxioms.mul_spec.
  intros Hx Hc Hlt. apply SFmul_nonneg; try apply Prim2SF_valid; try assumption.
  apply flt_iff in Hlt. rewrite val_zero in Hlt. apply Hlt.
Qed.

Lemma sqrt_nonneg x : not_nan (PrimFloat.sqrt x) -> fle 0 (PrimFloat.sqrt x).
Proof.
  intros N. apply fnonneg_iff. unfold fnonneg, not_nan in *.
  rewrite FloatAxioms.sqrt_spec in *.
  destruct (SFsqrt_nonneg (Prim2SF x)) as [H|H]; [contradiction|exact H].
Qed.

Lemma flt_fle x y : flt x y -> fle x y.
Proof. rewrite flt_iff, fle_iff. intuition lia. Qed.

(** ** [Math.min] on numbers *)

Lemma is_nan_false x : not_nan x -> is_nan x = false.
Proof.
  intros N. unfold is_nan.
  assert (H : (x =? x)%float = true) by (apply feqb_iff; auto).
  rewrite H. reflexivity.
Qed.

Lemma Math_min_cases a b :
  not_nan a -> not_nan b ->
  (JS.Math_min a b = a \/ JS.Math_min a b = b) /\
  fle (JS.Math_min a b) a /\ fle (JS.Math_min a b) b.
Proof.
  intros Na Nb. unfold JS.Math_min.
  rewrite (is_nan_false a Na), (is_nan_false b Nb). cbn [orb].
  destruct (a <? b)%float eqn:E1.
  { split; [left; reflexivity|]. split; [apply fle_refl; exact Na|apply flt_fle; exact E1]. }
  destruct (b <? a)%float eqn:E2.
  { split; [right; reflexivity|]. split; [apply flt_fle; exact E2|apply fle_refl; exact Nb]. }
  pose proof (not_flt_fle a b Na Nb E1) as L1.
  pose proof (not_flt_fle b a Nb Na E2) as L2.
  destruct (get_sign a).
  - split; [left; reflexivity|]. split; [apply fle_refl; exact Na|exact L2].
  - split; [right; reflexivity|]. split; [exact L1|apply fle_refl; exact Nb].
Qed.

Lemma fle_not_nan_l x y : fle x y -> not_nan x.
Proof. rewrite fle_iff. tauto. Qed.

Lemma fle_not_nan_r x y : fle x y -> not_nan y.
Proof. rewrite fle_iff. tauto. Qed.

(** ** Equal values, equal numbers *)

Lemma SF_scaled_inj m1 e1 m2 e2 :
  valid_binary (S754_finite false m1 e1) = true ->
  valid_binary (S754_finite false m2 e2) = true ->
  Zpos m1 * 2 ^ (e1 + 1074) = Zpos m2 * 2 ^ (e2 + 1074) ->
  S754_finite false m1 e1 = S754_finite false m2 e2.
Proof.
  intros V1 V2 H.
  destruct (Z.lt_trichotomy e1 e2) as [L|[E|L]].
  - pose proof (valid_lt_exp m1 e1 m2 e2 V1 V2 L). lia.
  - subst e2. destruct (valid_finite _ _ _ V1) as (He & _).
    assert (0 < 2 ^ (e1 + 1074)) by (apply pow2_pos; lia).
    assert (Zpos m1 = Zpos m2) by nia. congruence.
  - pose proof (valid_lt_exp m2 e2 m1 e1 V2 V1 L). lia.
Qed.

Lemma val_inj_pos x y : flt 0 x -> flt 0 y -> val x = val y -> x = y.
Proof.
  rewrite !flt_iff, val_zero. unfold val, not_nan.
  intros (_ & Nx & Px) (_ & Ny & Py) H. apply Prim2SF_inj.
  pose proof (Prim2SF_valid x) as Vx. pose proof (Prim2SF_valid y) as Vy.
  pose proof overflow_pos as Ho.
  destruct (Prim2SF x) as [sx|sx| |sx mx ex]; try congruence; cbn [scaled] in Px; try lia;
  destruct (Prim2SF y) as [sy|sy| |sy my ey]; try congruence; cbn [scaled] in Py; try lia;
    cbn [scaled] in H;
    try (pose proof (valid_finite_scaled mx ex Vx));
    try (pose proof (valid_finite_scaled my ey Vy));
    destruct sx, sy; try lia; try reflexivity.
  apply SF_scaled_inj; assumption.
Qed.

(** Constants: facts about given numbers are decided by evaluation. *)
Ltac fconst := vm_compute; reflexivity.

(** ** A product that is strictly smaller *)

(** A mantissa of 53 bits with an exponent of the format is a number. *)
Lemma valid_of m e :
  -1074 <= e <= 971 -> 2 ^ 52 <= Zpos m < 2 ^ 53 ->
  valid_binary (S754_finite false m e) = true.
Proof.
  intros He Hm. cbn [SpecFloat.valid_binary]. unfold bounded, canonical_mantissa.
  rewrite fexp_eq. change (emax - prec) with 971.
  change (Zpos (digits2_pos m)) with (Zdigits2 (Zpos m)).
  assert (D : Zdigits2 (Zpos m) = 53).
  { pose proof (Zdigits2_lt_pow2 (Zpos m) 53 ltac:(lia) ltac:(lia) ltac:(lia)).
    pose proof (Zdigits2_ge_pow2 (Zpos m) 52 ltac:(lia) ltac:(lia)). lia. }
  rewrite D. apply andb_true_iff. split.
  - apply Z.eqb_eq. unfold fexp64. lia.
  - apply Z.leb_le. lia.
Qed.

(** Multiplying a number by 0.99 gives a smaller number, unless the
    product is tiny: with 53 bits, the nearest number to [p * 0.99] is
    below [p] as soon as [p] is a normal number. *)
Lemma mul_99_lt p :
  ffinite0 p -> fle 0.01 (p * 0.99) -> flt (p * 0.99) p.
Proof.
  intros Fp L.
  destruct (mul_val p 0.99 Fp ltac:(fconst)) as [N V].
  assert (Le : fle (p * 0.99) p).
  { assert (M : fle (p * 0.99) (p * 1)).
    { apply mul_mono; try assumption; try fconst.
      apply fle_refl, fnonneg_not_nan, ffinite0_fnonneg, Fp. }
    apply fle_iff in M. destruct M as (M1 & _ & M2).
    rewrite (mul_one_r p Fp) in M2. apply fle_iff.
    split; [exact M1|]. split; [apply fnonneg_not_nan, ffinite0_fnonneg, Fp|exact M2]. }
  apply flt_iff. split; [eapply fle_not_nan_l; exact Le|].
  split; [eapply fle_not_nan_r; exact Le|].
  apply fle_iff in L. destruct L as (_ & _ & L).
  apply fle_iff in Le. destruct Le as (_ & _ & Le).
  rewrite V in *. clear V N.
  replace (val 0.99) with (8917127262193582 * 2 ^ 1021) in * by (vm_compute; reflexivity).
  replace (val 0.01) with (5764607523034235 * 2 ^ 1015) in L by (vm_compute; reflexivity).
  unfold val, ffinite0 in *. pose proof (Prim2SF_valid p) as Vp.
  assert (K : 0 < 2 ^ 1015) by (apply pow2_pos; lia).
  assert (K1 : 2 ^ 1021 = 64 * 2 ^ 1015) by (change 1021 with (6 + 1015); rewrite Z.pow_add_r by lia; reflexivity).
  assert (K2 : 2 ^ 1074 = 9007199254740992 * 2 ^ 1021)
    by (change 1074 with (53 + 1021); rewrite Z.pow_add_r by lia; reflexivity).
  destruct (Prim2SF p) as [s|s| |s m e]; cbn [finite0 scaled] in *; try contradiction.
  subst s. destruct (valid_finite _ _ _ Vp) as (He & Hm & Hn & _).
  assert (P : 0 < 2 ^ (e + 1074)) by (apply pow2_pos; lia).
  destruct (Z.eq_dec e (-1074)) as [E|E].
  { (* a subnormal number is below 0.01 *)
    subst e. change (2 ^ (-1074 + 1074)) with 1 in *. rewrite Z.mul_1_r in *.
    assert (Zpos m < 2 ^ 53) by lia.
    assert (2 ^ 53 < 5764607523034235 * 2 ^ 1015).
    { replace (2 ^ 1015) with (2 ^ 53 * 2 ^ 962) by (rewrite <- Z.pow_add_r by lia; reflexivity).
      assert (0 < 2 ^ 962) by (apply pow2_pos; lia). nia. }
    lia. }
  specialize (Hn ltac:(lia)).
  set (M := 2 ^ 1021) in *.
  assert (PM : 0 < M) by (apply pow2_pos; lia).
  destruct (Z.eq_dec (Zpos m) (2 ^ 52)) as [E52|N52].
  + (* the number below p is (2^53 - 1) * 2^(e - 1) *)
    assert (Vy : valid_binary (S754_finite false (Z.to_pos (2 ^ 53 - 1)) (e - 1)) = true).
    { apply valid_of; [lia|]. rewrite Z2Pos.id by reflexivity.
      split; [apply Z.leb_le; reflexivity|apply Z.ltb_lt; reflexivity]. }
    pose proof (rnd_id _ _ Vy) as R. rewrite Z2Pos.id in R by reflexivity.
    replace (e - 1 + 1074) with (e + 1073) in R by lia.
    assert (P1 : 0 < 2 ^ (e + 1073)) by (apply pow2_pos; lia).
    assert (P2 : 2 ^ (e + 1074) = 2 * 2 ^ (e + 1073)).
    { replace (e + 1074) with (1 + (e + 1073)) by lia. rewrite Z.pow_add_r by lia. reflexivity. }
    assert (Q : rnd (Zpos m * 2 ^ (e + 1074) * (8917127262193582 * M)) (2 ^ 1074)
                <= rnd ((2 ^ 53 - 1) * 2 ^ (e + 1073)) 1).
    { apply rnd_mono; nia. }
    rewrite R in Q. rewrite E52, P2 in *.
    change (2 ^ 52) with 4503599627370496 in *. change (2 ^ 53 - 1) with 9007199254740991 in *.
    nia.
  + (* the number below p is (m - 1) * 2^e *)
    assert (Hm1 : 2 ^ 52 <= Zpos m - 1 < 2 ^ 53) by lia.
    assert (Vy : valid_binary (S754_finite false (Z.to_pos (Zpos m - 1)) e) = true).
    { apply valid_of; [lia|]. rewrite Z2Pos.id by lia. exact Hm1. }
    pose proof (rnd_id _ _ Vy) as R. rewrite Z2Pos.id in R by lia.
    assert (Q : rnd (Zpos m * 2 ^ (e + 1074) * (8917127262193582 * M)) (2 ^ 1074)
                <= rnd ((Zpos m - 1) * 2 ^ (e + 1074)) 1).
    { apply rnd_mono; nia. }
    rewrite R in Q. nia.
Qed.

End B64.

(* ================================================================== *)
(** * Part III: the properties the specification states                *)
(* ================================================================== *)

(** ** Concrete inputs

    A small scene on which the theorems below are instantiated: the
    camera where main.js first puts it, anomalies at distances 0, 20 and
    40 from it, a mesh, a point cloud, a light and an untracked object. *)

Module Example.

Definition camera0 : THREE.Vector3 := {| THREE.x := 0; THREE.y := 10; THREE.z := 20 |}.
Definition near : THREE.Vector3 := {| THREE.x := 0; THREE.y := 10; THREE.z := 40 |}.
Definition far : THREE.Vector3 := {| THREE.x := 0; THREE.y := 10; THREE.z := 60 |}.
Definition unit_scale : THREE.Vector3 := {| THREE.x := 1; THREE.y := 1; THREE.z := 1 |}.
Definition no_rotation : THREE.Vector3 := {| THREE.x := 0; THREE.y := 0; THREE.z := 0 |}.

Definition mesh0 : World.Object3D :=
  {| World.isMesh := true; World.isPoints := false; World.position := near;
     World.rotation := no_rotation; World.scale := unit_scale;
     World.intensity := None |}.

Definition points0 : World.Object3D :=
  {| World.isMesh := false; World.isPoints := true; World.position := far;
     World.rotation := no_rotation; World.scale := unit_scale;
     World.intensity := None |}.

Definition light0 : World.Object3D :=
  {| World.isMesh := false; World.isPoints := false; World.position := near;
     World.rotation := no_rotation; World.scale := unit_scale;
     World.intensity := Some 2%float |}.

Definition ground0 : World.Object3D :=
  {| World.isMesh := true; World.isPoints := false; World.position := far;
     World.rotation := no_rotation; World.scale := unit_scale;
     World.intensity := None |}.

Definition world0 : World.state :=
  {| World.heap :=
       <[0%nat := mesh0]> (<[1%nat := points0]> (<[2%nat := light0]> (<[3%nat := ground0]> ∅)));
     World.animatedObjects := 0%nat :: 1%nat :: nil;
     World.pulsatingLights := 2%nat :: nil;
     World.anomalyPositions := camera0 :: near :: far :: nil |}.

(** A stand-in for [Math.sin] where an instance needs one. *)
Definition sin0 (x : float) : float := x.

Definition frame0 : Main.frame :=
  {| Main.elapsedTime := 1.5; Main.camera_position := camera0 |}.

(** The program right after the pill key was pressed. *)
Definition boosted : Main.state := Main.keydown (Main.start world0) "KeyE".

End Example.

(** ** The driver's intensity (main.js) *)

Module Intensity.
Import B64.

(** The contribution of an anomaly at distance [d], as the spec words
    it. *)
Definition contribution (d : float) : float := ((1 - d / 40) * 0.33)%float.

(** A sum of numbers, accumulated from 0 in list order. *)
Definition sum (l : list float) : float := fold_left PrimFloat.add l 0%float.

(** Clamping to at most 1. *)
Definition clamp (v : float) : float := if (1 <? v)%float then 1%float else v.

(** The spec's base intensity: the sum, over the anomaly positions within
    distance 40 of the camera, of the contributions, clamped to at most
    1. *)
Definition spec_baseIntensity (camera : THREE.Vector3)
           (anomalyPositions : list THREE.Vector3) : float :=
  clamp
    (sum (map contribution
            (List.filter (fun d => (d <? 40)%float)
               (map (THREE.distanceTo camera) anomalyPositions)))).

(** On a number that is not negative, [Math.min(v, 1)] is the clamp. *)
Lemma Math_min_clamp v : fle 0 v -> JS.Math_min v 1 = clamp v.
Proof.
  intros H. assert (Nv : not_nan v) by (eapply fle_not_nan_r; exact H).
  assert (N1 : not_nan 1) by (apply (fle_not_nan_l 1 1); fconst).
  unfold JS.Math_min, clamp.
  rewrite (is_nan_false v Nv), (is_nan_false 1 N1). cbn [orb].
  destruct (v <? 1)%float eqn:E1.
  { rewrite (flt_not_le 1 v (flt_fle _ _ E1)). reflexivity. }
  destruct (1 <? v)%float eqn:E2; [reflexivity|].
  pose proof (not_flt_fle v 1 Nv N1 E1) as L1.
  pose proof (not_flt_fle 1 v N1 Nv E2) as L2.
  assert (Hv : v = 1%float).
  { apply val_inj_pos.
    - apply flt_iff. apply fle_iff in L1. assert (P : flt 0 1) by fconst.
      apply flt_iff in P. intuition lia.
    - fconst.
    - apply fle_iff in L1. apply fle_iff in L2. intuition lia. }
  rewrite Hv. reflexivity.
Qed.

Lemma accumulate_fold camera anomalyPositions : forall acc,
  fold_left (Main.accumulate camera) anomalyPositions acc =
  fold_left PrimFloat.add
    (map contribution
       (List.filter (fun d => (d <? 40)%float)
          (map (THREE.distanceTo camera) anomalyPositions))) acc.
Proof.
  induction anomalyPositions as [|pos l IH]; intros acc; [reflexivity|].
  cbn [fold_left map List.filter]. rewrite IH. unfold Main.accumulate at 1, JS.lt.
  destruct (THREE.distanceTo camera pos <? 40)%float; reflexivity.
Qed.

Lemma contribution_bounds d :
  fle 0 d -> flt d 40 ->
  ffinite0 (contribution d) /\ fle (contribution d) 0.33.
Proof.
  intros H0 H40. unfold contribution.
  assert (F40 : ffinite0 40) by fconst.
  assert (Fd : ffinite0 d) by (apply (ffinite0_le d 40); auto using flt_fle).
  assert (Q1 : fle (d / 40) 1).
  { replace 1%float with (40 / 40)%float by fconst.
    apply div_mono; auto using flt_fle. fconst. }
  destruct (div_val d 40 Fd F40 ltac:(fconst)) as [Nq _].
  apply fnonneg_iff in Nq.
  assert (F1 : ffinite0 1) by fconst.
  assert (Fq : ffinite0 (d / 40)) by (apply (ffinite0_le _ 1); assumption).
  assert (S1 : fle (1 - d / 40) 1).
  { replace 1%float with (1 - 0)%float at 2 by fconst.
    apply sub_mono; try assumption; try fconst. }
  destruct (sub_val 1 (d / 40) F1 Fq Q1) as [Ns _].
  apply fnonneg_iff in Ns.
  assert (Fs : ffinite0 (1 - d / 40)) by (apply (ffinite0_le _ 1); assumption).
  assert (F33 : ffinite0 0.33) by fconst.
  assert (M : fle ((1 - d / 40) * 0.33) 0.33).
  { replace 0.33%float with (1 * 0.33)%float at 2 by fconst.
    apply mul_mono; try assumption. fconst. }
  destruct (mul_val (1 - d / 40) 0.33 Fs F33) as [Nm _].
  apply fnonneg_iff in Nm.
  split; [|exact M]. apply (ffinite0_le _ 0.33); assumption.
Qed.

Lemma accumulate_nonneg camera acc pos :
  fle 0 acc -> fle 0 (Main.accumulate camera acc pos).
Proof.
  intros Hacc. unfold Main.accumulate, JS.lt.
  destruct (THREE.distanceTo camera pos <? 40)%float eqn:E; [|exact Hacc].
  assert (N : not_nan (THREE.distanceTo camera pos)) by (apply flt_iff in E; apply E).
  assert (H0 : fle 0 (THREE.distanceTo camera pos)) by (apply sqrt_nonneg; exact N).
  destruct (contribution_bounds _ H0 E) as [Fc _].
  apply add_nonneg; [exact Hacc|]. apply ffinite0_iff in Fc. apply Fc.
Qed.

Lemma fold_accumulate_nonneg camera anomalyPositions : forall acc,
  fle 0 acc -> fle 0 (fold_left (Main.accumulate camera) anomalyPositions acc).
Proof.
  induction anomalyPositions as [|pos l IH]; intros acc H; [exact H|].
  cbn [fold_left]. apply IH. apply accumulate_nonneg. exact H.
Qed.

Lemma baseIntensity_range camera anomalyPositions :
  fle 0 (Main.baseIntensity camera anomalyPositions) /\
  fle (Main.baseIntensity camera anomalyPositions) 1.
Proof.
  unfold Main.baseIntensity.
  pose proof (fold_accumulate_nonneg camera anomalyPositions 0%float ltac:(fconst)) as H.
  set (b := fold_left _ _ _) in *. clearbody b.
  assert (Nb : not_nan b) by (eapply fle_not_nan_r; exact H).
  assert (N1 : not_nan 1) by (apply (fle_not_nan_l 1 1); fconst).
  destruct (Math_min_cases b 1 Nb N1) as ([E|E] & L1 & L2); rewrite E in L1, L2 |- *.
  - split; assumption.
  - split; [fconst|assumption].
Qed.

Lemma fade_nonneg pill : fle 0 pill -> fle 0 (Main.fade pill).
Proof.
  intros H. unfold Main.fade, JS.gt, JS.lt.
  destruct (0 <? pill)%float; [|exact H].
  destruct (pill * 0.99 <? 0.01)%float; [fconst|].
  apply mul_nonneg; [exact H|fconst|fconst].
Qed.

Lemma totalIntensity_range camera anomalyPositions pill :
  fle 0 pill ->
  fle 0 (Main.totalIntensity camera anomalyPositions pill) /\
  fle (Main.totalIntensity camera anomalyPositions pill) 1.
Proof.
  intros H. unfold Main.totalIntensity.
  destruct (baseIntensity_range camera anomalyPositions) as [B0 _].
  pose proof (add_nonneg _ _ B0 (fade_nonneg pill H)) as S.
  set (t := (_ + _)%float) in *. clearbody t.
  assert (Nt : not_nan t) by (eapply fle_not_nan_r; exact S).
  assert (N1 : not_nan 1) by (apply (fle_not_nan_l 1 1); fconst).
  destruct (Math_min_cases 1 t N1 Nt) as ([E|E] & L1 & L2); rewrite E in L1, L2 |- *.
  - split; [fconst|assumption].
  - split; assumption.
Qed.

(** C1: the driver's base intensity is the sum, over the anomaly positions
    whose distance [d] to the camera is less than 40, of [(1 - d/40) * 0.33]
    (accumulated in array order), clamped to at most 1; it never exceeds 1;
    and a single anomaly contributes 0.33 at distance 0, 0.165 at distance
    20 and 0 at every distance [d >= 40]. *)
Theorem baseIntensity_clamped_sum :
  (forall camera anomalyPositions,
     Main.baseIntensity camera anomalyPositions
       = spec_baseIntensity camera anomalyPositions /\
     fle (Main.baseIntensity camera anomalyPositions) 1) /\
  (forall camera pos,
     (THREE.distanceTo camera pos = 0%float ->
        Main.baseIntensity camera (pos :: nil) = 0.33%float) /\
     (THREE.distanceTo camera pos = 20%float ->
        Main.baseIntensity camera (pos :: nil) = 0.165%float) /\
     (fle 40 (THREE.distanceTo camera pos) ->
        Main.baseIntensity camera (pos :: nil) = 0%float)).
Proof.
  split.
  - intros camera anomalyPositions. split.
    + unfold Main.baseIntensity, spec_baseIntensity, sum.
      rewrite <- accumulate_fold. apply Math_min_clamp.
      apply fold_accumulate_nonneg. fconst.
    + apply baseIntensity_range.
  - intros camera pos.
    unfold Main.baseIntensity. cbn [fold_left]. unfold Main.accumulate, JS.lt.
    split; [|split].
    + intros ->. vm_compute. reflexivity.
    + intros ->. vm_compute. reflexivity.
    + intros H. rewrite (flt_not_le _ _ H). vm_compute. reflexivity.
Qed.

Lemma baseIntensity_clamped_sum_witness :
  Main.baseIntensity Example.camera0 (Example.camera0 :: nil) = 0.33%float /\
  Main.baseIntensity Example.camera0 (Example.near :: nil) = 0.165%float /\
  Main.baseIntensity Example.camera0 (Example.far :: nil) = 0%float.
Proof.
  pose proof baseIntensity_clamped_sum as [_ H].
  split; [|split].
  - apply (H Example.camera0 Example.camera0). vm_compute. reflexivity.
  - apply (H Example.camera0 Example.near). vm_compute. reflexivity.
  - apply (H Example.camera0 Example.far). vm_compute. reflexivity.
Defined.

(** C2: whatever the camera position and the anomaly positions, and for
    every non-negative pill intensity the frame starts with, the total
    intensity lies in [0, 1]; and that total intensity is the value
    [animate] forwards to [updateEffects] and to [updateAudio] on every
    frame. *)
Theorem totalIntensity_unit_interval :
  (forall camera anomalyPositions pillIntensity,
     fle 0 pillIntensity ->
     fle 0 (Main.totalIntensity camera anomalyPositions pillIntensity) /\
     fle (Main.totalIntensity camera anomalyPositions pillIntensity) 1) /\
  (forall (Math_sin : float -> float) (s : Main.state) (f : Main.frame),
     Main.effects (Main.animate Math_sin s f)
       = Effects.updateEffects (Main.effects s)
           (Main.totalIntensity (Main.camera_position f)
              (World.anomalyPositions (Main.world s)) (Main.pillIntensity s)) /\
     Main.audio (Main.animate Math_sin s f)
       = Audio.updateAudio (Main.audio s)
           (Main.totalIntensity (Main.camera_position f)
              (World.anomalyPositions (Main.world s)) (Main.pillIntensity s))).
Proof.
  split.
  - intros camera anomalyPositions pillIntensity H.
    apply totalIntensity_range. exact H.
  - intros Math_sin s f. split; reflexivity.
Qed.

Lemma totalIntensity_unit_interval_witness :
  fle 0 (Main.pillIntensity Example.boosted) /\
  fle 0 (Main.totalIntensity (Main.camera_position Example.frame0)
           (World.anomalyPositions (Main.world Example.boosted))
           (Main.pillIntensity Example.boosted)) /\
  fle (Main.totalIntensity (Main.camera_position Example.frame0)
         (World.anomalyPositions (Main.world Example.boosted))
         (Main.pillIntensity Example.boosted)) 1.
Proof.
  pose proof totalIntensity_unit_interval as [H _].
  split; [vm_compute; reflexivity|].
  apply H. vm_compute. reflexivity.
Defined.

End Intensity.

(** ** The pill boost (main.js) *)

(** The real-number side of the frame count: [ln 0.01 / ln 0.99] lies in
    (458, 459], so its ceiling is 459. *)

Module Logarithm.
Import Reals Lra.
#[local] Open Scope R_scope.

Lemma ln_pow_IZR (b : Z) (n : nat) :
  (0 < b)%Z -> INR n * ln (IZR b) = ln (IZR (b ^ Z.of_nat n)).
Proof.
  intros Hb. rewrite <- pow_IZR. symmetry. apply ln_pow. apply IZR_lt. exact Hb.
Qed.

(** [ceil x = n] for a real [x]. *)
Definition ceil_is (x : R) (n : Z) : Prop := IZR (n - 1) < x <= IZR n.

(** [ln 0.01 / ln 0.99]. *)
Definition frames_quotient : R := ln (1 / 100) / ln (99 / 100).

Lemma frames_to_threshold : ceil_is frames_quotient 459.
Proof.
  unfold ceil_is, frames_quotient. change (459 - 1)%Z with 458%Z.
  assert (L100 : 0 < ln 100) by (rewrite <- ln_1; apply ln_increasing; lra).
  assert (L99 : ln 99 < ln 100) by (apply ln_increasing; lra).
  assert (D : ln (99 / 100) = ln 99 - ln 100).
  { unfold Rdiv. rewrite ln_mult, ln_Rinv by lra. lra. }
  assert (N : ln (1 / 100) = - ln 100).
  { unfold Rdiv. rewrite Rmult_1_l. apply ln_Rinv. lra. }
  assert (A : INR 459 * ln 99 < INR 458 * ln 100).
  { rewrite !ln_pow_IZR by lia.
    apply ln_increasing; [apply IZR_lt; reflexivity|apply IZR_lt].
    apply Z.ltb_lt. vm_compute. reflexivity. }
  assert (B : INR 457 * ln 100 < INR 458 * ln 99).
  { rewrite !ln_pow_IZR by lia.
    apply ln_increasing; [apply IZR_lt; reflexivity|apply IZR_lt].
    apply Z.ltb_lt. vm_compute. reflexivity. }
  replace (INR 459) with 459 in A by (rewrite INR_IZR_INZ; reflexivity).
  replace (INR 458) with 458 in A, B by (rewrite INR_IZR_INZ; reflexivity).
  replace (INR 457) with 457 in B by (rewrite INR_IZR_INZ; reflexivity).
  rewrite D, N.
  replace (- ln 100 / (ln 99 - ln 100)) with (ln 100 / (ln 100 - ln 99)) by (field; lra).
  assert (M : 0 < ln 100 - ln 99) by lra.
  split.
  - apply Rmult_lt_reg_r with (ln 100 - ln 99); [exact M|].
    unfold Rdiv. rewrite Rmult_assoc, Rinv_l by lra. lra.
  - apply Rmult_le_reg_r with (ln 100 - ln 99); [exact M|].
    unfold Rdiv. rewrite Rmult_assoc, Rinv_l by lra. lra.
Qed.
End Logarithm.

Module Pill.
Import B64.

(** The pill intensity [n] frames after a trigger. *)
Definition after (n : nat) : float := Nat.iter n Main.fade 1.0%float.

Lemma fade_zero : Main.fade 0 = 0%float.
Proof. reflexivity. Qed.

Lemma after_459 : after 459 = 0%float.
Proof. vm_compute. reflexivity. Qed.

Lemma after_S n : after (S n) = Main.fade (after n).
Proof. reflexivity. Qed.

Lemma after_ge n : after (459 + n) = 0%float.
Proof.
  induction n as [|n IH].
  - rewrite Nat.add_0_r. exact after_459.
  - rewrite Nat.add_succ_r, after_S, IH. reflexivity.
Qed.

(** Before frame 459 the sequence is the running product, and it is
    still above the threshold. *)
Definition above (n : nat) : bool :=
  (0.01 <? after n)%float &&
  (if Nat.ltb n 458
   then PrimFloat.Leibniz.eqb (after (S n)) (after n * 0.99)%float
   else true).

Lemma above_all : forallb above (seq 0 459) = true.
Proof. vm_compute. reflexivity. Qed.

Lemma after_lt n :
  (n < 459)%nat ->
  flt 0.01 (after n) /\ ((n < 458)%nat -> after (S n) = (after n * 0.99)%float).
Proof.
  intros Hn. pose proof above_all as H. rewrite forallb_forall in H.
  specialize (H n). assert (I : In n (seq 0 459)) by (apply in_seq; lia).
  specialize (H I). unfold above in H. apply andb_true_iff in H. destruct H as [H1 H2].
  split; [exact H1|]. intros Hn'.
  destruct (Nat.ltb_spec n 458); [|lia].
  apply FloatAxioms.Leibniz.eqb_spec. exact H2.
Qed.

(** Frames alone apply [fade] once each. *)
Lemma run_frames Math_sin (fs : list Main.frame) : forall s,
  Main.pillIntensity (Main.run Math_sin s (map Main.Frame fs))
  = Nat.iter (length fs) Main.fade (Main.pillIntensity s).
Proof.
  induction fs as [|f fs IH]; intros s; [reflexivity|].
  cbn [map Main.run fold_left length]. fold (Main.run Math_sin (Main.step Math_sin s (Main.Frame f)) (map Main.Frame fs)).
  rewrite IH. cbn [Main.step Main.animate Main.pillIntensity].
  rewrite Nat.iter_succ, Nat.iter_swap. reflexivity.
Qed.

(** C3: starting from a pill boost of 1.0, a frame multiplies the boost by
    0.99 and snaps it to 0 once the product is below 0.01; for 458 frames
    the boost is the running product and stays above 0.01, the 459th
    product falls below 0.01, so the boost is 0 after exactly
    459 = ceil (ln 0.01 / ln 0.99) frames and on every frame after that;
    and the update leaves a boost of 0 at 0. *)
Theorem pill_fades_in_459_frames :
  (forall Math_sin s fs,
     Main.pillIntensity
       (Main.run Math_sin (Main.keydown s "KeyE") (map Main.Frame fs))
     = after (length fs)) /\
  (forall p,
     Main.fade p =
     if (0 <? p)%float
     then (if (p * 0.99 <? 0.01)%float then 0%float else (p * 0.99)%float)
     else p) /\
  (forall n, (n < 458)%nat -> after (S n) = (after n * 0.99)%float) /\
  (forall n, (n < 459)%nat -> flt 0.01 (after n)) /\
  flt (after 458 * 0.99) 0.01 /\
  (forall n, after (459 + n) = 0%float) /\
  Main.fade 0 = 0%float /\
  Logarithm.ceil_is Logarithm.frames_quotient 459.
Proof.
  split; [intros Math_sin s fs; rewrite run_frames; reflexivity|].
  split; [intros p; reflexivity|].
  split; [intros n H; apply after_lt; [lia|exact H]|].
  split; [intros n H; apply after_lt; exact H|].
  split; [vm_compute; reflexivity|].
  split; [exact after_ge|].
  split; [exact fade_zero|].
  exact Logarithm.frames_to_threshold.
Qed.

Lemma pill_fades_in_459_frames_witness :
  after 1 = (after 0 * 0.99)%float /\ flt 0.01 (after 458).
Proof.
  pose proof pill_fades_in_459_frames as (_ & _ & H1 & H2 & _).
  split; [apply (H1 0%nat); lia|apply (H2 458%nat); lia].
Defined.

Lemma fade_range p :
  fle 0 p -> fle p 1 -> fle 0 (Main.fade p) /\ fle (Main.fade p) 1 /\ fle (Main.fade p) p.
Proof.
  intros H0 H1. unfold Main.fade, JS.gt, JS.lt.
  assert (Np : not_nan p) by (eapply fle_not_nan_r; exact H0).
  destruct (0 <? p)%float; [|split; [exact H0|split; [exact H1|apply fle_refl, Np]]].
  assert (F1 : ffinite0 1) by fconst.
  assert (F99 : ffinite0 0.99) by fconst.
  assert (Fp : ffinite0 p) by (apply (ffinite0_le p 1); assumption).
  destruct (mul_val p 0.99 Fp F99) as [N _]. apply fnonneg_iff in N.
  assert (L : fle (p * 0.99) p).
  { assert (M : fle (p * 0.99) (p * 1)).
    { apply mul_mono; first [assumption|apply fle_refl, Np|fconst]. }
    apply fle_iff in M. destruct M as (M1 & _ & M2).
    rewrite (mul_one_r p Fp) in M2. apply fle_iff. auto. }
  destruct (p * 0.99 <? 0.01)%float.
  - split; [fconst|split; [fconst|exact H0]].
  - split; [exact N|split; [eapply fle_trans; eassumption|exact L]].
Qed.

Lemma step_pill Math_sin s e :
  fle 0 (Main.pillIntensity s) /\ fle (Main.pillIntensity s) 1 ->
  fle 0 (Main.pillIntensity (Main.step Math_sin s e)) /\
  fle (Main.pillIntensity (Main.step Math_sin s e)) 1.
Proof.
  intros [H0 H1]. destruct e as [f|code]; cbn [Main.step].
  - cbn [Main.animate Main.pillIntensity].
    destruct (fade_range _ H0 H1) as (A & B & _). split; assumption.
  - unfold Main.keydown. destruct (String.eqb code "KeyE"); cbn [Main.pillIntensity].
    + split; fconst.
    + split; assumption.
Qed.

Lemma run_pill Math_sin es : forall s,
  fle 0 (Main.pillIntensity s) /\ fle (Main.pillIntensity s) 1 ->
  fle 0 (Main.pillIntensity (Main.run Math_sin s es)) /\
  fle (Main.pillIntensity (Main.run Math_sin s es)) 1.
Proof.
  induction es as [|e es IH]; intros s H; [exact H|].
  cbn [Main.run fold_left]. apply IH. apply step_pill. exact H.
Qed.

(** A positive boost of at most 1 gets strictly smaller on every frame. *)
Lemma fade_decreases p : flt 0 p -> fle p 1 -> flt (Main.fade p) p.
Proof.
  intros H0 H1. unfold Main.fade, JS.gt, JS.lt.
  unfold flt in H0. rewrite H0. fold (flt 0 p) in H0.
  assert (F1 : ffinite0 1) by fconst.
  assert (Fp : ffinite0 p) by (apply (ffinite0_le p 1); auto using flt_fle).
  destruct (p * 0.99 <? 0.01)%float eqn:E; [exact H0|].
  apply mul_99_lt; [exact Fp|].
  apply not_flt_fle; [|apply (fle_not_nan_l 0.01 0.01); fconst|exact E].
  apply (fle_not_nan_r 0). apply mul_nonneg; [apply flt_fle; exact H0|fconst|fconst].
Qed.

(** The fade keeps the order of two boosts. *)
Lemma fade_mono p q : fle 0 p -> fle p q -> fle q 1 -> fle (Main.fade p) (Main.fade q).
Proof.
  intros H0 Hpq H1.
  assert (Hq0 : fle 0 q) by (eapply fle_trans; eassumption).
  assert (Hp1 : fle p 1) by (eapply fle_trans; eassumption).
  assert (F1 : ffinite0 1) by fconst.
  assert (Fq : ffinite0 q) by (apply (ffinite0_le q 1); assumption).
  assert (Fp : ffinite0 p) by (apply (ffinite0_le p 1); assumption).
  assert (F99 : ffinite0 0.99) by fconst.
  assert (M : fle (p * 0.99) (q * 0.99)).
  { apply mul_mono; try assumption. fconst. }
  destruct (fade_range q Hq0 H1) as (Q0 & _ & _).
  unfold Main.fade, JS.gt, JS.lt in *.
  destruct (0 <? p)%float eqn:Ep.
  - assert (Eq : (0 <? q)%float = true).
    { apply flt_iff. apply flt_iff in Ep. apply fle_iff in Hpq. intuition lia. }
    rewrite Eq in *.
    destruct (q * 0.99 <? 0.01)%float eqn:E2.
    + assert (E1 : (p * 0.99 <? 0.01)%float = true).
      { apply flt_iff. apply flt_iff in E2. apply fle_iff in M. intuition lia. }
      rewrite E1. fconst.
    + destruct (p * 0.99 <? 0.01)%float; [exact Q0|exact M].
  - assert (Hp : fle p 0).
    { apply not_flt_fle; [apply (fle_not_nan_l 0 p); exact H0|eapply fle_not_nan_r; exact H0|exact Ep]. }
    apply fle_iff. apply fle_iff in Hp. apply fle_iff in Q0. rewrite val_zero in *.
    intuition lia.
Qed.

Lemma iter_fade_range n : forall p, fle 0 p -> fle p 1 ->
  fle 0 (Nat.iter n Main.fade p) /\ fle (Nat.iter n Main.fade p) 1.
Proof.
  induction n as [|n IH]; intros p H0 H1; [split; assumption|].
  rewrite Nat.iter_succ. destruct (IH p H0 H1) as [A B].
  destruct (fade_range _ A B) as (C & D & _). split; assumption.
Qed.

Lemma iter_fade_mono n : forall p q, fle 0 p -> fle p q -> fle q 1 ->
  fle (Nat.iter n Main.fade p) (Nat.iter n Main.fade q).
Proof.
  induction n as [|n IH]; intros p q H0 Hpq H1; [exact Hpq|].
  rewrite !Nat.iter_succ.
  assert (Hq0 : fle 0 q) by (eapply fle_trans; eassumption).
  assert (Hp1 : fle p 1) by (eapply fle_trans; eassumption).
  apply fade_mono; [apply iter_fade_range; assumption|apply IH; assumption|apply iter_fade_range; assumption].
Qed.

(** Whatever boost of [0, 1] the frames start from, 459 of them bring it
    to 0. *)
Lemma iter_fade_zero n p :
  fle 0 p -> fle p 1 -> (459 <= n)%nat ->
  fle 0 (Nat.iter n Main.fade p) /\ fle (Nat.iter n Main.fade p) 0.
Proof.
  intros P0 P1 Hn. split; [apply iter_fade_range; assumption|].
  replace n with (459 + (n - 459))%nat by lia.
  rewrite <- (after_ge (n - 459)). unfold after.
  apply iter_fade_mono; try assumption. fconst.
Qed.

(** C10: through every interleaving of frames and key presses the pill
    intensity stays in [0, 1]: pressing the pill key overwrites it with
    exactly 1.0 whatever it was, any other key leaves it alone, and a
    frame replaces it by its fade, which on [0, 1] stays in [0, 1] and
    never exceeds the value it started from.  The fade decreases the
    boost toward 0: a positive boost gets strictly smaller on every frame,
    in the state of the program as in the function, and from every boost
    of [0, 1] it has reached 0 after 459 frames and stays there. *)
Theorem pillIntensity_range
        (Math_sin : float -> float) (w : World.state) (es : list Main.event) :
  (fle 0 (Main.pillIntensity (Main.run Math_sin (Main.start w) es)) /\
   fle (Main.pillIntensity (Main.run Math_sin (Main.start w) es)) 1) /\
  (forall s, Main.pillIntensity (Main.keydown s "KeyE") = 1%float) /\
  (forall s code, String.eqb code "KeyE" = false -> Main.keydown s code = s) /\
  (forall s f,
     Main.pillIntensity (Main.animate Math_sin s f) = Main.fade (Main.pillIntensity s)) /\
  (forall p, fle 0 p -> fle p 1 ->
     fle 0 (Main.fade p) /\ fle (Main.fade p) 1 /\ fle (Main.fade p) p) /\
  (forall p, flt 0 p -> fle p 1 -> flt (Main.fade p) p) /\
  (forall f,
     flt 0 (Main.pillIntensity (Main.run Math_sin (Main.start w) es)) ->
     flt (Main.pillIntensity
            (Main.animate Math_sin (Main.run Math_sin (Main.start w) es) f))
         (Main.pillIntensity (Main.run Math_sin (Main.start w) es))) /\
  (forall p n, fle 0 p -> fle p 1 -> (459 <= n)%nat ->
     fle 0 (Nat.iter n Main.fade p) /\ fle (Nat.iter n Main.fade p) 0) /\
  (forall fs, (459 <= length fs)%nat ->
     fle (Main.pillIntensity
            (Main.run Math_sin (Main.run Math_sin (Main.start w) es) (map Main.Frame fs)))
         0).
Proof.
  assert (R : fle 0 (Main.pillIntensity (Main.run Math_sin (Main.start w) es)) /\
              fle (Main.pillIntensity (Main.run Math_sin (Main.start w) es)) 1).
  { apply run_pill. cbn. split; fconst. }
  split; [exact R|]. split; [|split; [|split; [|split; [|split; [|split; [|split]]]]]].
  - intros s. reflexivity.
  - intros s code H. unfold Main.keydown. rewrite H. reflexivity.
  - intros s f. reflexivity.
  - apply fade_range.
  - apply fade_decreases.
  - intros f H. cbn [Main.animate Main.pillIntensity]. apply fade_decreases; [exact H|apply R].
  - intros p n. apply iter_fade_zero.
  - intros fs H. rewrite run_frames. apply iter_fade_zero; [apply R|apply R|exact H].
Qed.

Lemma pillIntensity_range_witness :
  (fle 0 (Main.pillIntensity
            (Main.run Example.sin0 (Main.start Example.world0)
               (Main.KeyDown "KeyE" :: Main.Frame Example.frame0 :: nil))) /\
   fle (Main.pillIntensity
          (Main.run Example.sin0 (Main.start Example.world0)
             (Main.KeyDown "KeyE" :: Main.Frame Example.frame0 :: nil))) 1) /\
  (fle 0 (Main.fade 0.5) /\ fle (Main.fade 0.5) 1 /\ fle (Main.fade 0.5) 0.5) /\
  flt (Main.fade 0.5) 0.5 /\
  flt (Main.pillIntensity
         (Main.animate Example.sin0
            (Main.run Example.sin0 (Main.start Example.world0)
               (Main.KeyDown "KeyE" :: Main.Frame Example.frame0 :: nil))
            Example.frame0))
      (Main.pillIntensity
         (Main.run Example.sin0 (Main.start Example.world0)
            (Main.KeyDown "KeyE" :: Main.Frame Example.frame0 :: nil))) /\
  fle (Nat.iter 459 Main.fade 0.5%float) 0.
Proof.
  pose proof (pillIntensity_range Example.sin0 Example.world0
                (Main.KeyDown "KeyE" :: Main.Frame Example.frame0 :: nil))
    as (H1 & _ & _ & _ & H5 & H6 & H7 & H8 & _).
  split; [exact H1|].
  split; [apply (H5 0.5%float); vm_compute; reflexivity|].
  split; [apply (H6 0.5%float); vm_compute; reflexivity|].
  split; [apply (H7 Example.frame0); vm_compute; reflexivity|].
  apply (H8 0.5%float 459%nat); [vm_compute; reflexivity|vm_compute; reflexivity|lia].
Defined.

End Pill.

(** ** The effects stack (effects.js) *)

Module EffectsSpec.
Import B64 Effects.

(** The seven mappings, in the spec's words. *)
Definition bloomStrength (i : float) : float := (0.8 + i * 2.0)%float.
Definition bloomRadius (i : float) : float := (0.3 + i * 0.7)%float.
Definition shiftAmount (i : float) : float := (0.001 + i * 0.012)%float.
Definition grain (i : float) : float := (0.2 + i * 0.8)%float.
Definition scanline (i : float) : float := (0.3 + i * 0.7)%float.
Definition vignetteOffset (i : float) : float := (0.9 - i * 0.4)%float.
Definition vignetteDarkness (i : float) : float := (1.0 + i * 0.8)%float.

(** [a + i * c] grows with [i] on [0, 1]. *)
Lemma affine_mono a c i j :
  ffinite0 a -> ffinite0 c -> ffinite0 (1 * c) ->
  fle 0 i -> fle i j -> fle j 1 ->
  fle (a + i * c) (a + j * c).
Proof.
  intros Fa Fc F1c H0 Hij Hj1.
  assert (F1 : ffinite0 1) by fconst.
  assert (Fj : ffinite0 j) by (apply (ffinite0_le j 1); try assumption; eapply fle_trans; eassumption).
  assert (Fi : ffinite0 i) by (apply (ffinite0_le i j); assumption).
  assert (Nc : not_nan c) by (apply fnonneg_not_nan, ffinite0_fnonneg, Fc).
  assert (Mj : fle (j * c) (1 * c)) by (apply mul_mono; try assumption; apply fle_refl, Nc).
  assert (Mij : fle (i * c) (j * c)) by (apply mul_mono; try assumption; apply fle_refl, Nc).
  destruct (mul_val i c Fi Fc) as [Ni _]. apply fnonneg_iff in Ni.
  destruct (mul_val j c Fj Fc) as [Nj _]. apply fnonneg_iff in Nj.
  assert (Fjc : ffinite0 (j * c)) by (apply (ffinite0_le _ (1 * c)); assumption).
  assert (Fic : ffinite0 (i * c)) by (apply (ffinite0_le _ (j * c)); assumption).
  apply add_mono; try assumption.
  apply fle_refl, fnonneg_not_nan, ffinite0_fnonneg, Fa.
Qed.

(** [a - i * c] shrinks as [i] grows on [0, 1], when [c <= a]. *)
Lemma affine_anti a c i j :
  ffinite0 a -> ffinite0 c -> fle (1 * c) a ->
  fle 0 i -> fle i j -> fle j 1 ->
  fle (a - j * c) (a - i * c).
Proof.
  intros Fa Fc H1c H0 Hij Hj1.
  assert (F1 : ffinite0 1) by fconst.
  assert (Fj : ffinite0 j) by (apply (ffinite0_le j 1); try assumption; eapply fle_trans; eassumption).
  assert (Fi : ffinite0 i) by (apply (ffinite0_le i j); assumption).
  assert (Nc : not_nan c) by (apply fnonneg_not_nan, ffinite0_fnonneg, Fc).
  assert (Mj : fle (j * c) (1 * c)) by (apply mul_mono; try assumption; apply fle_refl, Nc).
  assert (Mij : fle (i * c) (j * c)) by (apply mul_mono; try assumption; apply fle_refl, Nc).
  destruct (mul_val i c Fi Fc) as [Ni _]. apply fnonneg_iff in Ni.
  destruct (mul_val j c Fj Fc) as [Nj _]. apply fnonneg_iff in Nj.
  assert (Fjc : ffinite0 (j * c)) by (apply (ffinite0_le _ a); try assumption; eapply fle_trans; eassumption).
  assert (Fic : ffinite0 (i * c)) by (apply (ffinite0_le _ (j * c)); assumption).
  apply sub_mono; try assumption.
  - eapply fle_trans; eassumption.
  - apply fle_refl, fnonneg_not_nan, ffinite0_fnonneg, Fa.
Qed.

(** C4: for every intensity [i], [updateEffects i] assigns exactly the
    seven parameters bloom strength [0.8 + i*2.0], bloom radius
    [0.3 + i*0.7], shift amount [0.001 + i*0.012], grain [0.2 + i*0.8],
    scanline [0.3 + i*0.7], vignette offset [0.9 - i*0.4] and vignette
    darkness [1.0 + i*0.8], leaves every other field of the passes alone
    and an absent pass absent; the values depend on [i] only; each mapping
    is monotone on [0, 1] (the vignette offset decreasing, the others
    increasing); and bloom strength is 0.8 at 0 and 2.8 at 1, vignette
    offset 0.9 at 0 and 0.5 at 1. *)
Theorem updateEffects_mappings :
  (forall s i,
     bloomPass (updateEffects s i) =
       option_map (fun b => {| threshold := threshold b;
                               strength := bloomStrength i;
                               radius := bloomRadius i;
                               bloom_renderToScreen := bloom_renderToScreen b |})
                  (bloomPass s) /\
     rgbShiftPass (updateEffects s i) =
       option_map (fun r => {| amount := shiftAmount i; angle := angle r;
                               rgb_renderToScreen := rgb_renderToScreen r |})
                  (rgbShiftPass s) /\
     filmPass (updateEffects s i) =
       option_map (fun f => {| nIntensity := grain i; sIntensity := scanline i;
                               sCount := sCount f; grayscale := grayscale f;
                               film_renderToScreen := film_renderToScreen f |})
                  (filmPass s) /\
     vignettePass (updateEffects s i) =
       option_map (fun v => {| offset := vignetteOffset i;
                               darkness := vignetteDarkness i;
                               vignette_renderToScreen := vignette_renderToScreen v |})
                  (vignettePass s)) /\
  (forall i,
     updateEffects (fst setupEffects) i =
     {| bloomPass := Some {| threshold := 0.1; strength := bloomStrength i;
                             radius := bloomRadius i;
                             bloom_renderToScreen := false |};
        rgbShiftPass := Some {| amount := shiftAmount i; angle := 0;
                                rgb_renderToScreen := false |};
        filmPass := Some {| nIntensity := grain i; sIntensity := scanline i;
                            sCount := 2048; grayscale := false;
                            film_renderToScreen := false |};
        vignettePass := Some {| offset := vignetteOffset i;
                                darkness := vignetteDarkness i;
                                vignette_renderToScreen := true |} |}) /\
  (forall i j, fle 0 i -> fle i j -> fle j 1 ->
     fle (bloomStrength i) (bloomStrength j) /\
     fle (bloomRadius i) (bloomRadius j) /\
     fle (shiftAmount i) (shiftAmount j) /\
     fle (grain i) (grain j) /\
     fle (scanline i) (scanline j) /\
     fle (vignetteOffset j) (vignetteOffset i) /\
     fle (vignetteDarkness i) (vignetteDarkness j)) /\
  bloomStrength 0 = 0.8%float /\ bloomStrength 1 = 2.8%float /\
  vignetteOffset 0 = 0.9%float /\ vignetteOffset 1 = 0.5%float.
Proof.
  split; [|split; [|split]].
  - intros s i. unfold updateEffects; cbn.
    destruct (bloomPass s), (rgbShiftPass s), (filmPass s), (vignettePass s);
      repeat split; reflexivity.
  - intros i. reflexivity.
  - intros i j H0 Hij Hj1.
    repeat split;
      first [apply affine_mono; first [assumption|fconst]
            |apply affine_anti; first [assumption|fconst]].
  - repeat split; fconst.
Qed.

Lemma updateEffects_mappings_witness :
  fle (bloomStrength 0.25) (bloomStrength 0.5) /\
  fle (vignetteOffset 0.5) (vignetteOffset 0.25).
Proof.
  destruct updateEffects_mappings as (_ & _ & H & _).
  destruct (H 0.25%float 0.5%float) as (H1 & _ & _ & _ & _ & H6 & _);
    [vm_compute; reflexivity|vm_compute; reflexivity|vm_compute; reflexivity|].
  split; [exact H1|exact H6].
Defined.

(** C8: [setupEffects] builds the chain in the order render, bloom, RGB
    shift, film grain, vignette, and the vignette pass, last in the chain,
    is the only pass with [renderToScreen] set. *)
Theorem setupEffects_chain :
  passes (snd setupEffects)
    = renderScene :: bloom :: rgbShift :: film :: vignette :: nil /\
  List.last (passes (snd setupEffects)) renderScene = vignette /\
  renderToScreen (fst setupEffects) vignette = Some true /\
  renderToScreen (fst setupEffects) renderScene = Some false /\
  renderToScreen (fst setupEffects) bloom = Some false /\
  renderToScreen (fst setupEffects) rgbShift = Some false /\
  renderToScreen (fst setupEffects) film = Some false.
Proof. repeat split; reflexivity. Qed.

End EffectsSpec.

(** ** The world update (world.js) *)

Module WorldSpec.
Import World.

(** How often a reference occurs in one of the tracking arrays. *)
Definition occurrences (r : nat) (l : list nat) : nat := count_occ Nat.eq_dec l r.

Lemma mutate_lookup f (h : gmap nat Object3D) (r i : nat) :
  mutate f h r !! i = if decide (i = r) then f <$> (h !! i) else h !! i.
Proof.
  unfold mutate. destruct (decide (i = r)) as [->|Hne].
  - destruct (h !! r) as [obj|] eqn:E.
    + rewrite lookup_insert_eq. reflexivity.
    + rewrite E. reflexivity.
  - destruct (h !! r) as [obj|] eqn:E; [|reflexivity].
    rewrite lookup_insert_ne by congruence. reflexivity.
Qed.

Lemma fold_mutate_lookup f (l : list nat) : forall (h : gmap nat Object3D) (i : nat),
  fold_left (mutate f) l h !! i = Nat.iter (occurrences i l) f <$> (h !! i).
Proof.
  induction l as [|r l IH]; intros h i; cbn [fold_left].
  - unfold occurrences. cbn. destruct (h !! i); reflexivity.
  - rewrite IH, mutate_lookup. unfold occurrences. cbn [count_occ].
    destruct (Nat.eq_dec r i) as [->|Hne].
    + rewrite decide_True by reflexivity.
      destruct (h !! i) as [obj|]; cbn; [|reflexivity].
      f_equal. rewrite Nat.iter_swap. reflexivity.
    + rewrite decide_False by congruence. reflexivity.
Qed.

Lemma occurrences_0 r l : r ∉ l -> occurrences r l = O.
Proof.
  intros H. apply count_occ_not_In. rewrite <- list_elem_of_In. exact H.
Qed.

Lemma occurrences_pos r l : r ∈ l -> exists n, occurrences r l = S n.
Proof.
  intros H. apply list_elem_of_In in H.
  apply (count_occ_In Nat.eq_dec) in H. unfold occurrences.
  destruct (count_occ Nat.eq_dec l r); [lia|eauto].
Qed.

(** What [rotate] and [pulse] keep, however often they run. *)
Lemma rotate_keeps obj :
  isMesh (rotate obj) = isMesh obj /\ isPoints (rotate obj) = isPoints obj /\
  position (rotate obj) = position obj /\ scale (rotate obj) = scale obj /\
  intensity (rotate obj) = intensity obj /\
  THREE.z (rotation (rotate obj)) = THREE.z (rotation obj).
Proof.
  unfold rotate. destruct (isMesh obj) eqn:E1; [cbn; rewrite ?E1; repeat split; reflexivity|].
  destruct (isPoints obj) eqn:E2; cbn; rewrite ?E1, ?E2; repeat split; reflexivity.
Qed.

Lemma iter_rotate_keeps n obj :
  isMesh (Nat.iter n rotate obj) = isMesh obj /\
  isPoints (Nat.iter n rotate obj) = isPoints obj /\
  position (Nat.iter n rotate obj) = position obj /\
  scale (Nat.iter n rotate obj) = scale obj /\
  intensity (Nat.iter n rotate obj) = intensity obj /\
  THREE.z (rotation (Nat.iter n rotate obj)) = THREE.z (rotation obj).
Proof.
  induction n as [|n IH]; [repeat split; reflexivity|]. rewrite Nat.iter_succ.
  destruct IH as (H1 & H2 & H3 & H4 & H5 & H6).
  destruct (rotate_keeps (Nat.iter n rotate obj)) as (K1 & K2 & K3 & K4 & K5 & K6).
  rewrite K1, K2, K3, K4, K5, K6. repeat split; assumption.
Qed.

Lemma iter_pulse_keeps Math_sin time i n obj :
  isMesh (Nat.iter n (pulse Math_sin time i) obj) = isMesh obj /\
  isPoints (Nat.iter n (pulse Math_sin time i) obj) = isPoints obj /\
  position (Nat.iter n (pulse Math_sin time i) obj) = position obj /\
  scale (Nat.iter n (pulse Math_sin time i) obj) = scale obj /\
  rotation (Nat.iter n (pulse Math_sin time i) obj) = rotation obj.
Proof.
  induction n as [|n IH]; [repeat split; reflexivity|]. rewrite Nat.iter_succ.
  destruct IH as (H1 & H2 & H3 & H4 & H5).
  cbn. repeat split; assumption.
Qed.

Lemma updateWorld_lookup Math_sin w time i r :
  heap (updateWorld Math_sin w time i) !! r =
  Nat.iter (occurrences r (pulsatingLights w)) (pulse Math_sin time i) <$>
    (Nat.iter (occurrences r (animatedObjects w)) rotate <$> (heap w !! r)).
Proof.
  unfold updateWorld. cbn [heap]. rewrite !fold_mutate_lookup. reflexivity.
Qed.

(** C9: a call of [updateWorld] changes nothing but the rotation of the
    tracked animated objects and the intensity of the tracked lights: the
    anomaly positions and the three arrays are the same afterwards, no
    object appears or disappears, every object keeps its position, its
    scale, its kind and the z component of its rotation, an untracked
    object keeps its rotation and an object that is no tracked light its
    intensity.  A step of the rotation adds 0.0002 to x and 0.0005 to y
    for a mesh and 0.0001 to y for a point cloud, two different rates. *)
Theorem updateWorld_frame Math_sin w time i :
  anomalyPositions (updateWorld Math_sin w time i) = anomalyPositions w /\
  animatedObjects (updateWorld Math_sin w time i) = animatedObjects w /\
  pulsatingLights (updateWorld Math_sin w time i) = pulsatingLights w /\
  (forall r,
     heap (updateWorld Math_sin w time i) !! r =
     Nat.iter (occurrences r (pulsatingLights w)) (pulse Math_sin time i) <$>
       (Nat.iter (occurrences r (animatedObjects w)) rotate <$> (heap w !! r))) /\
  (forall r, heap w !! r = None -> heap (updateWorld Math_sin w time i) !! r = None) /\
  (forall r obj, heap w !! r = Some obj ->
     exists obj', heap (updateWorld Math_sin w time i) !! r = Some obj' /\
       position obj' = position obj /\ scale obj' = scale obj /\
       isMesh obj' = isMesh obj /\ isPoints obj' = isPoints obj /\
       THREE.z (rotation obj') = THREE.z (rotation obj) /\
       (r ∉ animatedObjects w -> rotation obj' = rotation obj) /\
       (r ∉ pulsatingLights w -> intensity obj' = intensity obj)) /\
  (forall obj,
     rotation (rotate obj) =
     if isMesh obj then
       {| THREE.x := (THREE.x (rotation obj) + 0.0002)%float;
          THREE.y := (THREE.y (rotation obj) + 0.0005)%float;
          THREE.z := THREE.z (rotation obj) |}
     else if isPoints obj then
       {| THREE.x := THREE.x (rotation obj);
          THREE.y := (THREE.y (rotation obj) + 0.0001)%float;
          THREE.z := THREE.z (rotation obj) |}
     else rotation obj) /\
  (0.0001 <? 0.0005)%float = true.
Proof.
  split; [reflexivity|]. split; [reflexivity|]. split; [reflexivity|].
  split; [intros r; apply updateWorld_lookup|].
  split; [intros r H; rewrite updateWorld_lookup, H; reflexivity|].
  split; [|split; [|reflexivity]].
  - intros r obj H. rewrite updateWorld_lookup, H. cbn [fmap option_fmap option_map].
    eexists. split; [reflexivity|].
    destruct (iter_pulse_keeps Math_sin time i (occurrences r (pulsatingLights w))
                (Nat.iter (occurrences r (animatedObjects w)) rotate obj))
      as (P1 & P2 & P3 & P4 & P5).
    destruct (iter_rotate_keeps (occurrences r (animatedObjects w)) obj)
      as (R1 & R2 & R3 & R4 & R5 & R6).
    rewrite P1, P2, P3, P4, P5, R1, R2, R3, R4, R6.
    repeat split; try reflexivity.
    + intros Hn. rewrite (occurrences_0 _ _ Hn). reflexivity.
    + intros Hn. rewrite (occurrences_0 _ _ Hn). cbn [Nat.iter]. exact R5.
  - intros obj. unfold rotate. destruct (isMesh obj); [reflexivity|].
    destruct (isPoints obj); reflexivity.
Qed.

Lemma updateWorld_frame_witness :
  exists obj',
    World.heap (updateWorld Example.sin0 Example.world0 (JS.number 1.5) (JS.number 0.5))
      !! 3%nat = Some obj' /\
    position obj' = position Example.ground0 /\
    scale obj' = scale Example.ground0 /\
    rotation obj' = rotation Example.ground0 /\
    intensity obj' = intensity Example.ground0.
Proof.
  pose proof (updateWorld_frame Example.sin0 Example.world0 (JS.number 1.5) (JS.number 0.5))
    as (_ & _ & _ & _ & _ & H & _).
  destruct (H 3%nat Example.ground0 eq_refl) as (obj' & H1 & H2 & H3 & _ & _ & _ & H7 & H8).
  exists obj'. split; [exact H1|]. split; [exact H2|]. split; [exact H3|].
  split; [apply H7|apply H8]; cbn; intros Hin; repeat (apply elem_of_cons in Hin as [Hin|Hin]; [discriminate|]);
    apply elem_of_nil in Hin; exact Hin.
Defined.

(** NaN absorbs an addition. *)
Lemma add_nan_l y : (nan + y)%float = nan.
Proof.
  apply Prim2SF_inj. rewrite FloatAxioms.add_spec. reflexivity.
Qed.

Lemma lightIntensity_undefined Math_sin t :
  lightIntensity Math_sin (JS.number t) JS.undefined = nan.
Proof.
  unfold lightIntensity. cbn [JS.ToNumber].
  replace (1.5 + nan * 1.5)%float with nan by (vm_compute; reflexivity).
  apply add_nan_l.
Qed.

Lemma pulsed_intensity Math_sin time i n obj :
  intensity (Nat.iter (S n) (pulse Math_sin time i) obj)
  = Some (lightIntensity Math_sin time i).
Proof. rewrite Nat.iter_succ. reflexivity. Qed.

(** C5: what the frame of the composed program does to the tracked
    lights.  [updateWorld time intensity] on numbers assigns every tracked
    light [1.5 + intensity * 1.5 + sin (time * 3) * 0.5]; but [animate]
    calls [updateWorld] with the elapsed time alone, so [intensity] is
    [undefined] there and every tracked light ends the frame with
    intensity NaN. *)
Theorem animate_lights Math_sin (s : Main.state) (f : Main.frame) :
  (forall r light,
     r ∈ pulsatingLights (Main.world s) ->
     heap (Main.world s) !! r = Some light ->
     exists light',
       heap (Main.world (Main.animate Math_sin s f)) !! r = Some light' /\
       intensity light' = Some nan) /\
  (forall w time i r light,
     r ∈ pulsatingLights w -> heap w !! r = Some light ->
     exists light',
       heap (updateWorld Math_sin w (JS.number time) (JS.number i)) !! r = Some light' /\
       intensity light' = Some (1.5 + i * 1.5 + Math_sin (time * 3) * 0.5)%float).
Proof.
  split.
  - intros r light Hin Hl. cbn [Main.animate Main.world].
    rewrite updateWorld_lookup, Hl. cbn [fmap option_fmap option_map].
    eexists. split; [reflexivity|].
    destruct (occurrences_pos _ _ Hin) as [n ->].
    rewrite pulsed_intensity. f_equal. apply lightIntensity_undefined.
  - intros w time i r light Hin Hl.
    rewrite updateWorld_lookup, Hl. cbn [fmap option_fmap option_map].
    eexists. split; [reflexivity|].
    destruct (occurrences_pos _ _ Hin) as [n ->].
    rewrite pulsed_intensity. reflexivity.
Qed.

Lemma animate_lights_witness :
  exists light',
    World.heap (Main.world (Main.animate Example.sin0 (Main.start Example.world0) Example.frame0))
      !! 2%nat = Some light' /\
    intensity light' = Some nan.
Proof.
  pose proof (animate_lights Example.sin0 (Main.start Example.world0) Example.frame0) as [H _].
  apply (H 2%nat Example.light0); [cbn; apply elem_of_cons; left; reflexivity|reflexivity].
Defined.

End WorldSpec.

(** ** The audio layer (audio.js) *)

Module AudioSpec.
Import Audio.

(** The state of a sound that only [play], [stop], [ended] and the
    setters have touched: at most one audible node, which is the current
    source and started at offset 0; none when the sound is not playing. *)
Definition consistent (a : THREE.Audio) : Prop :=
  THREE.progress a = 0%float /\
  (THREE.isPlaying a = false -> THREE.sounding a = nil) /\
  (THREE.isPlaying a = true ->
     exists k, THREE.source a = Some k /\ THREE.sounding a = (k, 0%float) :: nil).

Definition pillConsistent (s : state) : Prop :=
  match pillSound s with
  | Some p => consistent p
  | None => True
  end.

Lemma consistent_new : consistent THREE.newAudio.
Proof. unfold consistent; cbn. split; [reflexivity|split; [reflexivity|discriminate]]. Qed.

Lemma consistent_stop a : consistent a -> consistent (THREE.stop a).
Proof.
  intros (Hp & Hoff & Hon). unfold consistent, THREE.stop. cbn.
  split; [reflexivity|]. split; [|discriminate]. intros _.
  destruct (THREE.isPlaying a) eqn:E.
  - destruct (Hon eq_refl) as (k & -> & ->). cbn. rewrite Nat.eqb_refl. reflexivity.
  - rewrite (Hoff eq_refl). destruct (THREE.source a); reflexivity.
Qed.

Lemma consistent_play a : consistent a -> consistent (THREE.play a).
Proof.
  intros H. unfold THREE.play.
  destruct (THREE.isPlaying a) eqn:E; [exact H|].
  destruct H as (Hp & Hoff & Hon).
  unfold consistent. cbn. split; [exact Hp|]. split; [discriminate|].
  intros _. exists (THREE.nextNode a). rewrite Hp, (Hoff E). split; reflexivity.
Qed.

Lemma consistent_ended k a : consistent a -> consistent (THREE.ended k a).
Proof.
  intros H. unfold THREE.ended.
  destruct (existsb _ (THREE.sounding a)) eqn:Ex; [|exact H].
  destruct H as (Hp & Hoff & Hon).
  unfold consistent. cbn. split; [exact Hp|]. split; [|discriminate]. intros _.
  destruct (THREE.isPlaying a) eqn:E.
  - destruct (Hon eq_refl) as (k' & Hs & Hl). rewrite Hl in *. cbn in *.
    rewrite orb_false_r in Ex. rewrite Ex. reflexivity.
  - rewrite (Hoff eq_refl) in Ex. discriminate.
Qed.

Lemma step_consistent s e : pillConsistent s -> pillConsistent (step s e).
Proof.
  unfold pillConsistent. intros H.
  destruct e as [|i|b|b|k]; cbn [step].
  - unfold triggerPill. destruct (pillSound s) as [p|] eqn:E; [|rewrite E; exact I].
    destruct (THREE.buffer p); [|rewrite E; exact H]. cbn [pillSound].
    apply consistent_play. destruct (THREE.isPlaying p); [apply consistent_stop|]; exact H.
  - unfold updateAudio. destruct (backgroundMusic s); exact H.
  - exact H.
  - cbn [pillLoaded pillSound]. destruct (pillSound s); [|exact I]. exact H.
  - cbn [pillEnded pillSound]. destruct (pillSound s); [|exact I].
    cbn. apply consistent_ended. exact H.
Qed.

Lemma run_consistent es : forall s, pillConsistent s -> pillConsistent (run s es).
Proof.
  induction es as [|e es IH]; intros s H; [exact H|].
  cbn [run fold_left]. apply IH. apply step_consistent. exact H.
Qed.

Lemma consistent_length a : consistent a -> (length (THREE.sounding a) <= 1)%nat.
Proof.
  intros (_ & Hoff & Hon). destruct (THREE.isPlaying a).
  - destruct (Hon eq_refl) as (k & _ & ->). cbn. lia.
  - rewrite (Hoff eq_refl). cbn. lia.
Qed.

(** C6: after any sequence of triggers, frame updates, load completions
    and playback ends, at most one source node of the pill sound is
    audible; [triggerPill] does nothing before [setupAudio] has run and
    while the pill sound has no buffer; and once the buffer is loaded it
    leaves the sound playing through exactly one node, a fresh one started
    at offset 0, whether or not the sound was playing before (the node
    that was playing is stopped), without touching the other sounds. *)
Theorem triggerPill_restarts (es : list event) :
  let s := run setupAudio es in
  triggerPill initial = initial /\
  (length (pillSounding s) <= 1)%nat /\
  (forall p, pillSound s = Some p -> THREE.buffer p = None -> triggerPill s = s) /\
  (forall p b, pillSound s = Some p -> THREE.buffer p = Some b ->
     exists p',
       pillSound (triggerPill s) = Some p' /\
       THREE.isPlaying p' = true /\
       THREE.source p' = Some (THREE.nextNode p) /\
       THREE.sounding p' = (THREE.nextNode p, 0%float) :: nil /\
       backgroundMusic (triggerPill s) = backgroundMusic s /\
       positional (triggerPill s) = positional s).
Proof.
  cbv zeta. pose proof (run_consistent es setupAudio consistent_new) as C.
  set (s := run setupAudio es) in *. clearbody s. unfold pillConsistent in C.
  split; [reflexivity|]. split; [|split].
  - unfold pillSounding. destruct (pillSound s); [apply consistent_length; exact C|cbn; lia].
  - intros p Hp Hb. unfold triggerPill. rewrite Hp, Hb. reflexivity.
  - intros p b Hp Hb. rewrite Hp in C. unfold triggerPill. rewrite Hp, Hb. cbn [pillSound].
    eexists. split; [reflexivity|].
    destruct C as (Hprog & Hoff & Hon).
    destruct (THREE.isPlaying p) eqn:E.
    + destruct (Hon eq_refl) as (k & Hs & Hl).
      unfold THREE.play, THREE.stop. cbn. rewrite Hs, Hl. cbn. rewrite Nat.eqb_refl. cbn.
      repeat split; reflexivity.
    + unfold THREE.play. rewrite E. cbn. rewrite Hprog, (Hoff eq_refl).
      repeat split; reflexivity.
Qed.

Lemma triggerPill_restarts_witness :
  triggerPill (run setupAudio (Trigger :: nil)) = run setupAudio (Trigger :: nil) /\
  exists p',
    pillSound (triggerPill (run setupAudio (PillLoaded "take_pill.mp3" :: Trigger :: nil)))
      = Some p' /\
    THREE.isPlaying p' = true /\
    THREE.sounding p' = (1%nat, 0%float) :: nil.
Proof.
  split.
  - pose proof (triggerPill_restarts (Trigger :: nil)) as (_ & _ & H & _).
    apply (H THREE.newAudio); reflexivity.
  - pose proof (triggerPill_restarts (PillLoaded "take_pill.mp3" :: Trigger :: nil))
      as (_ & _ & _ & H).
    destruct (H _ _ eq_refl eq_refl) as (p' & H1 & H2 & _ & H4 & _).
    exists p'. split; [exact H1|]. split; [exact H2|exact H4].
Defined.

(** C7: for every intensity [i], [updateAudio i] sets the volume of the
    background music to exactly [0.3 + i * 0.7] and changes nothing else,
    neither another field of the music nor the pill sound nor the
    positional sounds; when the background music does not exist the call
    changes nothing at all. *)
Theorem updateAudio_volume (s : state) (i : float) :
  pillSound (updateAudio s i) = pillSound s /\
  positional (updateAudio s i) = positional s /\
  backgroundMusic (updateAudio s i) =
    option_map (THREE.setVolume (0.3 + i * 0.7)%float) (backgroundMusic s) /\
  (forall m, backgroundMusic s = Some m ->
     exists m', backgroundMusic (updateAudio s i) = Some m' /\
       THREE.volume m' = (0.3 + i * 0.7)%float /\
       THREE.buffer m' = THREE.buffer m /\ THREE.isPlaying m' = THREE.isPlaying m /\
       THREE.loop m' = THREE.loop m /\ THREE.progress m' = THREE.progress m /\
       THREE.source m' = THREE.source m /\ THREE.nextNode m' = THREE.nextNode m /\
       THREE.sounding m' = THREE.sounding m) /\
  (backgroundMusic s = None -> updateAudio s i = s).
Proof.
  unfold updateAudio. destruct (backgroundMusic s) as [m|] eqn:E; cbn.
  - repeat split; try reflexivity; try discriminate.
    intros m0 H. injection H as <-. eexists. repeat split; reflexivity.
  - rewrite E. repeat split; try reflexivity. intros m H. discriminate.
Qed.

Lemma updateAudio_volume_witness :
  exists m',
    backgroundMusic (updateAudio setupAudio 0.5) = Some m' /\
    THREE.volume m' = (0.3 + 0.5 * 0.7)%float /\
    THREE.isPlaying m' = false /\
    updateAudio initial 0.5 = initial.
Proof.
  pose proof (updateAudio_volume setupAudio 0.5) as (_ & _ & _ & H & _).
  pose proof (updateAudio_volume initial 0.5) as (_ & _ & _ & _ & N).
  destruct (H _ eq_refl) as (m' & H1 & H2 & _ & H4 & _).
  exists m'. split; [exact H1|]. split; [exact H2|]. split; [exact H4|].
  apply N. reflexivity.
Defined.

End AudioSpec.

(* ================================================================== *)
(** * Part IV: further properties of the program                       *)
(* ================================================================== *)

(** ** The driver over whole runs (main.js) *)

Module Driver.
Import B64.


(** *** Close to an anomaly *)

Lemma contribution_anti d1 d2 :
  fle 0 d1 -> fle d1 d2 -> flt d2 40 ->
  fle (Intensity.contribution d2) (Intensity.contribution d1).
Proof.
  intros H0 H12 H40. unfold Intensity.contribution.
  assert (F40 : ffinite0 40) by fconst.
  assert (P40 : flt 0 40) by fconst.
  assert (H2 : fle 0 d2) by (eapply fle_trans; eassumption).
  assert (Fd2 : ffinite0 d2) by (apply (ffinite0_le d2 40); auto using flt_fle).
  assert (Fd1 : ffinite0 d1) by (apply (ffinite0_le d1 d2); assumption).
  assert (Q : fle (d1 / 40) (d2 / 40)) by (apply div_mono; assumption).
  assert (Q1 : fle (d2 / 40) 1).
  { replace 1%float with (40 / 40)%float by fconst.
    apply div_mono; auto using flt_fle. }
  destruct (div_val d1 40 Fd1 F40 P40) as [N1 _]. apply fnonneg_iff in N1.
  destruct (div_val d2 40 Fd2 F40 P40) as [N2 _]. apply fnonneg_iff in N2.
  assert (F1 : ffinite0 1) by fconst.
  assert (Fq2 : ffinite0 (d2 / 40)) by (apply (ffinite0_le _ 1); assumption).
  assert (Fq1 : ffinite0 (d1 / 40)) by (apply (ffinite0_le _ (d2 / 40)); assumption).
  assert (S : fle (1 - d2 / 40) (1 - d1 / 40)).
  { apply sub_mono; try assumption; try fconst. }
  assert (S1 : fle (1 - d1 / 40) 1).
  { replace 1%float with (1 - 0)%float at 2 by fconst.
    apply sub_mono; try assumption; try fconst.
    eapply fle_trans; eassumption. }
  destruct (sub_val 1 (d2 / 40) F1 Fq2 Q1) as [M2 _]. apply fnonneg_iff in M2.
  assert (M1 : fle 0 (1 - d1 / 40)) by (eapply fle_trans; eassumption).
  assert (Fs1 : ffinite0 (1 - d1 / 40)) by (apply (ffinite0_le _ 1); assumption).
  assert (Fs2 : ffinite0 (1 - d2 / 40)) by (apply (ffinite0_le _ (1 - d1 / 40)); assumption).
  apply mul_mono; try assumption; fconst.
Qed.

(** A number no running sum of contributions exceeds: adding 0.33 to it
    leaves it as it is. *)
Definition ceiling : float := 18014398509481984%float.

Definition bounded (acc : float) : Prop := fle 0 acc /\ fle acc ceiling.

Lemma bounded_finite acc : bounded acc -> ffinite0 acc.
Proof. intros [H0 H1]. apply (ffinite0_le acc ceiling); try assumption. fconst. Qed.

Lemma add_zero_r_val x : ffinite0 x -> val (x + 0)%float = val x.
Proof.
  intros F. destruct (add_val x 0 F ltac:(fconst)) as [_ V]. rewrite V, val_zero, Z.add_0_r.
  apply rnd_scaled; [apply Prim2SF_valid|exact F].
Qed.

Lemma add_zero_l_val x : ffinite0 x -> val (0 + x)%float = val x.
Proof.
  intros F. destruct (add_val 0 x ltac:(fconst) F) as [_ V]. rewrite V, val_zero, Z.add_0_l.
  apply rnd_scaled; [apply Prim2SF_valid|exact F].
Qed.

Lemma add_grows acc c c' :
  bounded acc -> ffinite0 c -> fle c 0.33 -> fle c' c -> fle 0 c' ->
  bounded (acc + c) /\ fle acc (acc + c) /\ fle c' (acc + c).
Proof.
  intros B Fc Hc Hc' H0'. pose proof (bounded_finite acc B) as Fa. destruct B as [A0 A1].
  assert (Fc' : ffinite0 c') by (apply (ffinite0_le c' c); assumption).
  assert (C0 : fle 0 c) by (eapply fle_trans; eassumption).
  assert (Na : not_nan acc) by (eapply fle_not_nan_r; exact A0).
  assert (U : fle (acc + c) ceiling).
  { replace ceiling with (ceiling + 0.33)%float by fconst.
    apply add_mono; try assumption; fconst. }
  assert (L : fle (acc + 0) (acc + c)).
  { apply add_mono; try assumption; try fconst. apply fle_refl, Na. }
  assert (L' : fle (0 + c') (acc + c)).
  { apply add_mono; try assumption; fconst. }
  destruct (add_val acc c Fa Fc) as [N _]. apply fnonneg_iff in N.
  split; [split; assumption|]. split.
  - apply fle_iff. apply fle_iff in L. rewrite add_zero_r_val in L by assumption.
    intuition auto.
  - apply fle_iff. apply fle_iff in L'. rewrite add_zero_l_val in L' by assumption.
    split; [eapply fle_not_nan_l; exact Hc'|]. intuition auto.
Qed.

Lemma accumulate_grows camera acc pos :
  bounded acc ->
  bounded (Main.accumulate camera acc pos) /\
  fle acc (Main.accumulate camera acc pos) /\
  (forall d0, fle (THREE.distanceTo camera pos) d0 -> flt d0 40 ->
     fle (Intensity.contribution d0) (Main.accumulate camera acc pos)).
Proof.
  intros B. unfold Main.accumulate, JS.lt.
  destruct (THREE.distanceTo camera pos <? 40)%float eqn:E.
  - assert (N : not_nan (THREE.distanceTo camera pos)) by (apply flt_iff in E; apply E).
    assert (H0 : fle 0 (THREE.distanceTo camera pos)) by (apply sqrt_nonneg; exact N).
    destruct (Intensity.contribution_bounds _ H0 E) as [Fc Hc].
    destruct (add_grows acc _ _ B Fc Hc (fle_refl _ (fnonneg_not_nan _ (ffinite0_fnonneg _ Fc)))
                ltac:(apply fnonneg_iff, ffinite0_fnonneg, Fc)) as (A1 & A2 & _).
    split; [exact A1|]. split; [exact A2|].
    intros d0 Hd H40.
    assert (H00 : fle 0 d0) by (eapply fle_trans; eassumption).
    destruct (Intensity.contribution_bounds _ H00 H40) as [Fc0 _].
    apply (add_grows acc _ _ B Fc Hc).
    + apply contribution_anti; assumption.
    + apply fnonneg_iff, ffinite0_fnonneg, Fc0.
  - split; [exact B|]. split; [apply fle_refl; eapply fle_not_nan_r; apply B|].
    intros d0 Hd H40. exfalso.
    assert (flt (THREE.distanceTo camera pos) 40).
    { apply flt_iff. apply fle_iff in Hd. apply flt_iff in H40. intuition lia. }
    unfold flt in H. congruence.
Qed.

Lemma fold_accumulate_grows camera l : forall acc,
  bounded acc ->
  bounded (fold_left (Main.accumulate camera) l acc) /\
  fle acc (fold_left (Main.accumulate camera) l acc).
Proof.
  induction l as [|pos l IH]; intros acc B.
  - split; [exact B|]. apply fle_refl. eapply fle_not_nan_r; apply B.
  - cbn [fold_left]. destruct (accumulate_grows camera acc pos B) as (B1 & G1 & _).
    destruct (IH _ B1) as [B2 G2]. split; [exact B2|]. eapply fle_trans; eassumption.
Qed.

Lemma fold_accumulate_reach camera pos d0 l : forall acc,
  bounded acc -> In pos l ->
  fle (THREE.distanceTo camera pos) d0 -> flt d0 40 ->
  fle (Intensity.contribution d0) (fold_left (Main.accumulate camera) l acc).
Proof.
  induction l as [|p l IH]; intros acc B Hin Hd H40; [destruct Hin|].
  cbn [fold_left]. destruct (accumulate_grows camera acc p B) as (B1 & _ & R).
  destruct Hin as [->|Hin].
  - destruct (fold_accumulate_grows camera l _ B1) as [_ G].
    eapply fle_trans; [apply R; assumption|exact G].
  - apply IH; assumption.
Qed.

Lemma bounded_zero : bounded 0.
Proof. split; fconst. Qed.

(** X1: an anomaly within distance [d0 < 40] of the camera guarantees the base
    intensity its share [(1 - d0/40) * 0.33], whatever the other anomalies
    are and wherever the anomaly stands in the array; and the share of an
    anomaly does not grow with its distance. *)
Theorem anomaly_in_reach camera anomalyPositions pos d0 :
  In pos anomalyPositions ->
  fle (THREE.distanceTo camera pos) d0 -> flt d0 40 ->
  fle (Intensity.contribution d0) (Main.baseIntensity camera anomalyPositions) /\
  fle (Intensity.contribution d0) (Intensity.contribution (THREE.distanceTo camera pos)).
Proof.
  intros Hin Hd H40.
  assert (N : not_nan (THREE.distanceTo camera pos)) by (eapply fle_not_nan_l; exact Hd).
  assert (H0 : fle 0 (THREE.distanceTo camera pos)) by (apply sqrt_nonneg; exact N).
  split; [|apply contribution_anti; assumption].
  pose proof (fold_accumulate_reach camera pos d0 anomalyPositions 0%float bounded_zero Hin Hd H40) as R.
  unfold Main.baseIntensity. set (b := fold_left _ _ _) in *. clearbody b.
  assert (Nb : not_nan b) by (eapply fle_not_nan_r; exact R).
  assert (N1 : not_nan 1) by (apply (fle_not_nan_l 1 1); fconst).
  destruct (Math_min_cases b 1 Nb N1) as ([E|E] & _); rewrite E; [exact R|].
  assert (H00 : fle 0 d0) by (eapply fle_trans; eassumption).
  destruct (Intensity.contribution_bounds _ H00 H40) as [_ C].
  eapply fle_trans; [exact C|fconst].
Qed.

Lemma anomaly_in_reach_witness :
  fle 0.165 (Main.baseIntensity Example.camera0 (Example.far :: Example.near :: nil)).
Proof.
  apply (anomaly_in_reach Example.camera0 (Example.far :: Example.near :: nil) Example.near 20).
  - right. left. reflexivity.
  - vm_compute. reflexivity.
  - vm_compute. reflexivity.
Defined.


(** *** The frame after the pill key *)




(** *** What a run of the program keeps *)

Section Runs.

Variable Math_sin : float -> float.

Lemma updateEffects_twice s i j :
  Effects.updateEffects (Effects.updateEffects s i) j = Effects.updateEffects s j.
Proof.
  unfold Effects.updateEffects. cbn.
  destruct (Effects.bloomPass s), (Effects.rgbShiftPass s), (Effects.filmPass s),
    (Effects.vignettePass s); reflexivity.
Qed.

Definition unit_interval (x : float) : Prop := fle 0 x /\ fle x 1.

Lemma host_step_pill s e :
  unit_interval (Main.pillIntensity s) ->
  unit_interval (Main.pillIntensity (Host.step Math_sin s e)).
Proof.
  intros [H0 H1]. destruct e as [f|code|b|b|k]; cbn [Host.step Host.callback Main.pillIntensity];
    try (split; assumption).
  - apply (Pill.step_pill Math_sin s (Main.Frame f)). split; assumption.
  - apply (Pill.step_pill Math_sin s (Main.KeyDown code)). split; assumption.
Qed.

Lemma step_anomalies s e :
  World.anomalyPositions (Main.world (Host.step Math_sin s e))
  = World.anomalyPositions (Main.world s).
Proof.
  destruct e as [f|code|b|b|k]; try reflexivity.
  cbn [Host.step]. unfold Main.keydown. destruct (String.eqb code "KeyE"); reflexivity.
Qed.

(** The passes are the ones [setupEffects] made, or those updated with
    an intensity of [0, 1]. *)
Definition updated (e0 e : Effects.state) : Prop :=
  e = e0 \/ exists t, unit_interval t /\ e = Effects.updateEffects e0 t.

Lemma step_effects e0 s e :
  unit_interval (Main.pillIntensity s) ->
  updated e0 (Main.effects s) -> updated e0 (Main.effects (Host.step Math_sin s e)).
Proof.
  intros [P0 P1] U. destruct e as [f|code|b|b|k]; cbn [Host.step Host.callback Main.effects];
    try exact U.
  - cbn [Main.animate Main.effects]. right.
    set (t := Main.totalIntensity _ _ _).
    assert (T : unit_interval t) by (apply Intensity.totalIntensity_range; exact P0).
    exists t. split; [exact T|].
    destruct U as [->|(t0 & _ & ->)]; [reflexivity|apply updateEffects_twice].
  - unfold Main.keydown. destruct (String.eqb code "KeyE"); exact U.
Qed.

Lemma run_invariant (I : Main.state -> Prop) :
  (forall s e, I s -> I (Host.step Math_sin s e)) ->
  forall es s, I s -> I (Host.run Math_sin s es).
Proof.
  intros Hstep es. induction es as [|e es IH]; intros s H; [exact H|].
  cbn [Host.run fold_left]. apply IH. apply Hstep. exact H.
Qed.


Lemma run_kept w es :
  let s := Host.run Math_sin (Main.start w) es in
  unit_interval (Main.pillIntensity s) /\
  World.anomalyPositions (Main.world s) = World.anomalyPositions w /\
  updated (fst Effects.setupEffects) (Main.effects s).
Proof.
  cbv zeta.
  apply (run_invariant (fun s =>
           unit_interval (Main.pillIntensity s) /\
           World.anomalyPositions (Main.world s) = World.anomalyPositions w /\
           updated (fst Effects.setupEffects) (Main.effects s))).
  - intros s e (P & A & U). split; [apply host_step_pill; exact P|].
    split; [rewrite step_anomalies; exact A|apply step_effects; assumption].
  - split; [split; fconst|]. split; [reflexivity|left; reflexivity].
Qed.



End Runs.

(** *** The ranges of the parameters *)

Definition within (lo hi x : float) : Prop := fle lo x /\ fle x hi.

(** The ranges the comments of [updateEffects] give, with the upper end
    of the shift amount as binary64 computes it. *)
Definition effects_in_range (e : Effects.state) : Prop :=
  (exists b, Effects.bloomPass e = Some b /\
     within 0.8 2.8 (Effects.strength b) /\ within 0.3 1.0 (Effects.radius b)) /\
  (exists r, Effects.rgbShiftPass e = Some r /\
     within 0.001 (0.001 + 0.012) (Effects.amount r)) /\
  (exists f, Effects.filmPass e = Some f /\
     within 0.2 1.0 (Effects.nIntensity f) /\ within 0.3 1.0 (Effects.sIntensity f)) /\
  (exists v, Effects.vignettePass e = Some v /\
     within 0.5 0.9 (Effects.offset v) /\ within 1.0 1.8 (Effects.darkness v)).

Definition music_in_range (a : Audio.state) : Prop :=
  exists m, Audio.backgroundMusic a = Some m /\ within 0.3 1.0 (THREE.volume m).

Lemma rising a c lo hi t :
  ffinite0 a -> ffinite0 c -> ffinite0 (1 * c) ->
  fle lo (a + 0 * c) -> fle (a + 1 * c) hi ->
  unit_interval t -> within lo hi (a + t * c).
Proof.
  intros Fa Fc F1c L H [T0 T1]. split.
  - eapply fle_trans; [exact L|]. apply EffectsSpec.affine_mono; try assumption. fconst.
  - eapply fle_trans; [|exact H]. apply EffectsSpec.affine_mono; try assumption. fconst.
Qed.

Lemma falling a c lo hi t :
  ffinite0 a -> ffinite0 c -> fle (1 * c) a ->
  fle lo (a - 1 * c) -> fle (a - 0 * c) hi ->
  unit_interval t -> within lo hi (a - t * c).
Proof.
  intros Fa Fc F1c L H [T0 T1]. split.
  - eapply fle_trans; [exact L|]. apply EffectsSpec.affine_anti; try assumption. fconst.
  - eapply fle_trans; [|exact H]. apply EffectsSpec.affine_anti; try assumption. fconst.
Qed.

Lemma updated_in_range e :
  updated (fst Effects.setupEffects) e -> effects_in_range e.
Proof.
  intros [->|(t & T & ->)].
  - unfold effects_in_range, within. cbn.
    repeat split; eexists; (split; [reflexivity|]); repeat split; fconst.
  - unfold effects_in_range. cbn.
    split; [|split; [|split]]; eexists; (split; [reflexivity|]).
    + split; apply rising; first [exact T|fconst].
    + apply rising; first [exact T|fconst].
    + split; apply rising; first [exact T|fconst].
    + split; [apply falling|apply rising]; first [exact T|fconst].
Qed.

Section Ranges.

Variable Math_sin : float -> float.

Lemma step_music s e :
  unit_interval (Main.pillIntensity s) ->
  music_in_range (Main.audio s) -> music_in_range (Main.audio (Host.step Math_sin s e)).
Proof.
  intros [P0 P1] (m & Hm & V). unfold music_in_range.
  destruct e as [f|code|b|b|k]; cbn [Host.step Host.callback Main.audio].
  - cbn [Main.animate Main.audio]. unfold Audio.updateAudio. rewrite Hm. cbn.
    eexists. split; [reflexivity|]. cbn.
    apply rising; try fconst. apply Intensity.totalIntensity_range. exact P0.
  - unfold Main.keydown. destruct (String.eqb code "KeyE"); cbn [Main.audio]; [|eauto].
    unfold Audio.triggerPill. destruct (Audio.pillSound (Main.audio s)) as [p|]; [|eauto].
    destruct (THREE.buffer p); cbn; eauto.
  - cbn. rewrite Hm. cbn. eexists. split; [reflexivity|].
    unfold THREE.play. destruct (THREE.isPlaying _); cbn; split; fconst.
  - cbn. eauto.
  - cbn. eauto.
Qed.

(** X4: in every state the program reaches, by frames, key presses and load
    completions in any order, each parameter lies in the range its comment
    in [updateEffects] gives (the shift amount up to 0.001 + 0.012), and
    the volume of the background music in [0.3, 1.0]. *)
Theorem parameters_in_range w es :
  let s := Host.run Math_sin (Main.start w) es in
  effects_in_range (Main.effects s) /\ music_in_range (Main.audio s).
Proof.
  cbv zeta. split.
  - apply updated_in_range. apply (run_kept Math_sin w es).
  - apply (run_invariant Math_sin (fun s =>
             unit_interval (Main.pillIntensity s) /\ music_in_range (Main.audio s))).
    + intros s e [P M]. split; [apply host_step_pill; exact P|apply step_music; assumption].
    + split; [split; fconst|]. eexists. split; [reflexivity|]. split; fconst.
Qed.

(** *** Back at rest *)





Lemma updateAudio_music s i :
  Audio.backgroundMusic (Audio.updateAudio s i)
  = option_map (THREE.setVolume (0.3 + i * 0.7)%float) (Audio.backgroundMusic s).
Proof.
  unfold Audio.updateAudio.
  destruct (Audio.backgroundMusic s) as [m|] eqn:E; cbn; rewrite ?E; reflexivity.
Qed.






End Ranges.


End Driver.

(** ** Playback over whole runs (audio.js, main.js) *)

Module Playback.

(** Whether a completion of the music load, or of the pill-sound load, is
    among the events. *)
Definition musicLoaded (es : list Host.event) : bool :=
  existsb (fun e => match e with Host.MusicLoaded _ => true | _ => false end) es.

Definition pillLoaded (es : list Host.event) : bool :=
  existsb (fun e => match e with Host.PillLoaded _ => true | _ => false end) es.

(** The music before its load completes, and from then on. *)
Definition silent (m : THREE.Audio) : Prop :=
  THREE.isPlaying m = false /\ THREE.sounding m = nil /\ THREE.buffer m = None /\
  THREE.progress m = 0%float /\ THREE.nextNode m = O.

Definition looping (m : THREE.Audio) : Prop :=
  THREE.isPlaying m = true /\ THREE.loop m = true /\ THREE.buffer m <> None /\
  THREE.sounding m = (O, 0%float) :: nil.

Definition music (loaded : bool) (a : Audio.state) : Prop :=
  exists m, Audio.backgroundMusic a = Some m /\ if loaded then looping m else silent m.

Section Runs.

Variable Math_sin : float -> float.

Lemma keydown_music s code :
  Audio.backgroundMusic (Main.audio (Main.keydown s code))
  = Audio.backgroundMusic (Main.audio s).
Proof.
  unfold Main.keydown. destruct (String.eqb code "KeyE"); [|reflexivity].
  cbn [Main.audio]. unfold Audio.triggerPill.
  destruct (Audio.pillSound (Main.audio s)) as [p|]; [|reflexivity].
  destruct (THREE.buffer p); reflexivity.
Qed.

Lemma step_music_state loaded s e :
  music loaded (Main.audio s) ->
  music (loaded || musicLoaded (e :: nil)) (Main.audio (Host.step Math_sin s e)).
Proof.
  intros (m & Hm & H). unfold music.
  destruct e as [f|code|b|b|k]; cbn [musicLoaded existsb];
    rewrite ?orb_false_r; cbn [Host.step Host.callback Main.audio].
  - cbn [Main.animate Main.audio]. rewrite Driver.updateAudio_music, Hm. cbn.
    eexists. split; [reflexivity|]. destruct loaded; exact H.
  - rewrite keydown_music. eauto.
  - cbn. rewrite Hm. cbn. eexists. split; [reflexivity|].
    rewrite orb_true_r. unfold THREE.play. cbn [THREE.isPlaying THREE.setVolume THREE.setLoop THREE.setBuffer].
    destruct loaded.
    + destruct H as (P & L & B & S). rewrite P. unfold looping. cbn.
      repeat split; try assumption; discriminate.
    + destruct H as (P & S & B & G & N). rewrite P. unfold looping. cbn.
      rewrite S, G, N. repeat split; discriminate.
  - cbn. eauto.
  - cbn. eauto.
Qed.

Lemma run_music_state es : forall loaded s,
  music loaded (Main.audio s) ->
  music (loaded || musicLoaded es) (Main.audio (Host.run Math_sin s es)).
Proof.
  induction es as [|e es IH]; intros loaded s H.
  - cbn. rewrite orb_false_r. exact H.
  - cbn [Host.run fold_left]. fold (Host.run Math_sin (Host.step Math_sin s e) es).
    replace (loaded || musicLoaded (e :: es)) with ((loaded || musicLoaded (e :: nil)) || musicLoaded es).
    + apply IH. apply step_music_state. exact H.
    + cbn [musicLoaded existsb]. rewrite orb_false_r, orb_assoc. reflexivity.
Qed.

(** X6: the background music is silent until its load completes and plays
    from then on, whatever follows: it loops, through the one source node
    its [play] created, started at offset 0.  No frame, key press or other
    load stops it or starts it a second time. *)
Theorem music_plays_once_loaded w es :
  exists m,
    Audio.backgroundMusic (Main.audio (Host.run Math_sin (Main.start w) es)) = Some m /\
    if musicLoaded es
    then THREE.isPlaying m = true /\ THREE.loop m = true /\
         THREE.sounding m = (O, 0%float) :: nil
    else THREE.isPlaying m = false /\ THREE.sounding m = nil.
Proof.
  destruct (run_music_state es false (Main.start w)) as (m & Hm & H).
  { exists THREE.newAudio. split; [reflexivity|]. repeat split; reflexivity. }
  exists m. split; [exact Hm|]. cbn [orb] in H.
  destruct (musicLoaded es).
  - destruct H as (P & L & _ & S). auto.
  - destruct H as (P & S & _). auto.
Qed.

(** The pill sound: it has a buffer exactly when its load has completed,
    and it has never played before that. *)
Definition pill (loaded : bool) (a : Audio.state) : Prop :=
  exists p, Audio.pillSound a = Some p /\
    if loaded then THREE.buffer p <> None
    else THREE.buffer p = None /\ THREE.isPlaying p = false /\ THREE.sounding p = nil.

Lemma buffer_play a : THREE.buffer (THREE.play a) = THREE.buffer a.
Proof. unfold THREE.play. destruct (THREE.isPlaying a); reflexivity. Qed.

Lemma buffer_stop a : THREE.buffer (THREE.stop a) = THREE.buffer a.
Proof. reflexivity. Qed.

Lemma step_pill_state loaded s e :
  pill loaded (Main.audio s) ->
  pill (loaded || pillLoaded (e :: nil)) (Main.audio (Host.step Math_sin s e)).
Proof.
  intros (p & Hp & H). unfold pill.
  destruct e as [f|code|b|b|k]; cbn [pillLoaded existsb];
    rewrite ?orb_false_r; cbn [Host.step Host.callback Main.audio].
  - cbn [Main.animate Main.audio]. unfold Audio.updateAudio.
    destruct (Audio.backgroundMusic (Main.audio s)); cbn; eauto.
  - unfold Main.keydown. destruct (String.eqb code "KeyE"); [|exists p; split; assumption].
    cbn [Main.audio]. unfold Audio.triggerPill. rewrite Hp.
    destruct (THREE.buffer p) as [b|] eqn:B;
      [|exists p; split; [assumption|rewrite ?B; assumption]].
    cbn [Audio.pillSound]. eexists. split; [reflexivity|].
    destruct loaded; [|destruct H; congruence].
    rewrite buffer_play. destruct (THREE.isPlaying p); rewrite ?buffer_stop, B; discriminate.
  - cbn. eauto.
  - cbn. rewrite Hp. cbn. eexists. split; [reflexivity|]. rewrite orb_true_r. cbn. discriminate.
  - cbn. rewrite Hp. cbn. eexists. split; [reflexivity|].
    unfold THREE.ended. destruct loaded.
    + destruct (existsb _ _); cbn; exact H.
    + destruct H as (B & P & S). rewrite S. cbn. auto.
Qed.

Lemma run_pill_state es : forall loaded s,
  pill loaded (Main.audio s) ->
  pill (loaded || pillLoaded es) (Main.audio (Host.run Math_sin s es)).
Proof.
  induction es as [|e es IH]; intros loaded s H.
  - cbn. rewrite orb_false_r. exact H.
  - cbn [Host.run fold_left]. fold (Host.run Math_sin (Host.step Math_sin s e) es).
    replace (loaded || pillLoaded (e :: es)) with ((loaded || pillLoaded (e :: nil)) || pillLoaded es).
    + apply IH. apply step_pill_state. exact H.
    + cbn [pillLoaded existsb]. rewrite orb_false_r, orb_assoc. reflexivity.
Qed.

(** X7: the pill key always sets the boost to 1.0, but it is heard only once
    the pill sound has loaded: pressed before the load completes it leaves
    the audio layer as it was, and the sound is not played later either;
    pressed after, the pill sound is playing. *)
Theorem pill_key_needs_the_buffer w es :
  let s := Host.run Math_sin (Main.start w) es in
  let s' := Host.step Math_sin s (Host.KeyDown "KeyE") in
  Main.pillIntensity s' = 1%float /\
  (pillLoaded es = false -> Main.audio s' = Main.audio s) /\
  exists p, Audio.pillSound (Main.audio s') = Some p /\
            THREE.isPlaying p = pillLoaded es.
Proof.
  cbv zeta.
  destruct (run_pill_state es false (Main.start w)) as (p & Hp & H).
  { exists THREE.newAudio. split; [reflexivity|]. repeat split; reflexivity. }
  cbn [orb] in H. cbn [Host.step]. unfold Main.keydown. cbn [String.eqb Ascii.eqb Bool.eqb].
  cbn [Main.pillIntensity Main.audio]. split; [reflexivity|].
  unfold Audio.triggerPill. rewrite Hp.
  destruct (pillLoaded es).
  - split; [discriminate|]. destruct (THREE.buffer p) as [b|] eqn:B; [|congruence].
    cbn [Audio.pillSound]. eexists. split; [reflexivity|].
    destruct (THREE.isPlaying p) eqn:P; [reflexivity|].
    unfold THREE.play. rewrite P. reflexivity.
  - destruct H as (B & P & S). rewrite B. split; [reflexivity|]. eauto.
Qed.

End Runs.

End Playback.

(** ** The scene [buildWorld] makes (world.js) *)

(** *** [Math.floor] *)

Module FloorTheory.
Import B64 Build.

Lemma floor_val x :
  ffinite0 x ->
  fnonneg (Math_floor x) /\
  val (Math_floor x) = rnd (val x / 2 ^ 1074 * 2 ^ 1074) 1.
Proof.
  intros F. unfold Math_floor, fnonneg, val, ffinite0 in *.
  pose proof (Prim2SF_valid x) as V.
  assert (P : 0 < 2 ^ 1074) by (apply pow2_pos; lia).
  destruct (Prim2SF x) as [s|s| |s m e] eqn:E; cbn [finite0] in F; try contradiction.
  - rewrite E. cbn [scaled nonneg]. split; [exact I|].
    rewrite Z.div_0_l, Z.mul_0_l by lia. symmetry. apply rnd_0. lia.
  - subst s. destruct (valid_finite _ _ _ V) as (He & Hm & _).
    destruct (Z.leb_spec 0 e) as [H0|H0].
    + rewrite E. cbn [scaled nonneg]. split; [reflexivity|].
      replace (Zpos m * 2 ^ (e + 1074)) with (Zpos m * 2 ^ e * 2 ^ 1074)
        by (rewrite Z.pow_add_r by lia; ring).
      rewrite Z.div_mul by lia.
      replace (Zpos m * 2 ^ e * 2 ^ 1074) with (Zpos m * 2 ^ (e + 1074))
        by (rewrite Z.pow_add_r by lia; ring).
      symmetry. apply rnd_id. exact V.
    + cbv zeta. rewrite FloatAxioms.of_uint63_spec, Uint63.of_Z_spec.
      assert (Q : 0 < 2 ^ (- e)) by (apply pow2_pos; lia).
      assert (Hq : 0 <= Zpos m / 2 ^ (- e) < 2 ^ 53).
      { split; [apply Z.div_pos; lia|].
        apply Z.div_lt_upper_bound; [lia|]. nia. }
      rewrite Z.mod_small.
      2:{ split; [lia|]. apply Z.lt_trans with (2 ^ 53); [lia|]. reflexivity. }
      destruct (binary_normalize_rnd (Zpos m / 2 ^ (- e)) 0) as [N S]; try lia.
      split; [exact N|]. rewrite S. cbn [scaled].
      change (0 + 1074) with 1074.
      assert (D : Zpos m * 2 ^ (e + 1074) / 2 ^ 1074 = Zpos m / 2 ^ (- e)).
      { replace (2 ^ 1074) with (2 ^ (e + 1074) * 2 ^ (- e))
          by (rewrite <- Z.pow_add_r by lia; f_equal; lia).
        rewrite (Z.mul_comm (Zpos m)). apply Z.div_mul_cancel_l; lia. }
      rewrite D. reflexivity.
Qed.


Lemma floor_mono x y :
  ffinite0 x -> ffinite0 y -> fle x y -> fle (Math_floor x) (Math_floor y).
Proof.
  intros Fx Fy H.
  destruct (floor_val x Fx) as [Nx Vx]. destruct (floor_val y Fy) as [Ny Vy].
  apply fle_of_val; try assumption. rewrite Vx, Vy.
  assert (P : 0 < 2 ^ 1074) by (apply pow2_pos; lia).
  pose proof (ffinite0_val x Fx). pose proof (ffinite0_val y Fy).
  apply fle_iff in H. destruct H as (_ & _ & H).
  assert (D : val x / 2 ^ 1074 <= val y / 2 ^ 1074) by (apply Z.div_le_mono; lia).
  assert (0 <= val x / 2 ^ 1074) by (apply Z.div_pos; lia).
  apply rnd_mono; nia.
Qed.

(** The largest number below 1. *)
Definition below_one : float := 0x1.fffffffffffffp-1%float.

Lemma lt_one x : fle 0 x -> flt x 1 -> fle x below_one.
Proof.
  intros H0 H1.
  assert (Nb : fnonneg below_one) by (apply fnonneg_iff; fconst).
  apply fnonneg_iff in H0. apply fle_of_val; try assumption.
  apply flt_iff in H1. destruct H1 as (_ & _ & H1).
  replace (val 1) with (2 ^ 1074) in H1 by (vm_compute; reflexivity).
  replace (val below_one) with (2 ^ 1074 - 2 ^ 1021) by (vm_compute; reflexivity).
  unfold val, fnonneg in *. pose proof (Prim2SF_valid x) as V.
  destruct (Prim2SF x) as [s|s| |s m e]; cbn [nonneg scaled] in *; try contradiction.
  - assert (2 ^ 1021 < 2 ^ 1074) by (apply Z.pow_lt_mono_r; lia). lia.
  - subst s. unfold overflow in H1.
    assert (2 ^ 1074 < 2 ^ 2098) by (apply Z.pow_lt_mono_r; lia). lia.
  - subst s. destruct (valid_finite _ _ _ V) as (He & Hm & _).
    destruct (Z.le_gt_cases (-53) e) as [L|L].
    + (* a multiple of 2 ^ 1021 below 2 ^ 1074 *)
      assert (P : 0 < 2 ^ 1021) by (apply pow2_pos; lia).
      replace (2 ^ (e + 1074)) with (2 ^ (e + 53) * 2 ^ 1021) in *
        by (rewrite <- Z.pow_add_r by lia; f_equal; lia).
      replace (2 ^ 1074) with (2 ^ 53 * 2 ^ 1021) in *
        by (rewrite <- Z.pow_add_r by lia; reflexivity).
      assert (Zpos m * 2 ^ (e + 53) < 2 ^ 53) by nia.
      nia.
    + assert (2 ^ (e + 1074) <= 2 ^ 1020) by (apply pow2_le; lia).
      assert (0 < 2 ^ (e + 1074)) by (apply pow2_pos; lia).
      assert (Zpos m * 2 ^ (e + 1074) < 2 ^ 53 * 2 ^ 1020) by nia.
      replace (2 ^ 53 * 2 ^ 1020) with (2 ^ 1073) in * by (rewrite <- Z.pow_add_r by lia; reflexivity).
      replace (2 ^ 1074) with (2 * 2 ^ 1073) by (rewrite <- Z.pow_succ_r by lia; reflexivity).
      assert (2 ^ 1021 < 2 ^ 1073) by (apply Z.pow_lt_mono_r; lia).
      lia.
Qed.

(** [Math.floor(r * n)] for [r] in [0, 1): an integer from 0 to the floor
    of the largest product. *)
Lemma floor_scaled r n :
  fle 0 r -> flt r 1 -> ffinite0 n -> ffinite0 (below_one * n) ->
  fle 0 (Math_floor (r * n)) /\
  fle (Math_floor (r * n)) (Math_floor (below_one * n)).
Proof.
  intros H0 H1 Fn Fbn.
  pose proof (lt_one r H0 H1) as Hb.
  assert (Fb : ffinite0 below_one) by fconst.
  assert (Fr : ffinite0 r) by (apply (ffinite0_le r below_one); assumption).
  assert (Nn : not_nan n) by (apply fnonneg_not_nan, ffinite0_fnonneg, Fn).
  assert (M : fle (r * n) (below_one * n)).
  { apply mul_mono; try assumption. apply fle_refl, Nn. }
  destruct (mul_val r n Fr Fn) as [N _]. apply fnonneg_iff in N.
  assert (Frn : ffinite0 (r * n)) by (apply (ffinite0_le _ (below_one * n)); assumption).
  destruct (floor_val (r * n) Frn) as [Nf _]. apply fnonneg_iff in Nf.
  split; [exact Nf|]. apply floor_mono; assumption.
Qed.


(** [10 + Math.floor(Math.random() * 20)] lies between 10 and 29. *)
Lemma crystalCount_range r :
  fle 0 r -> flt r 1 ->
  fle 10 (10 + Math_floor (r * 20)) /\ fle (10 + Math_floor (r * 20)) 29.
Proof.
  intros H0 H1.
  destruct (floor_scaled r 20 H0 H1 ltac:(fconst) ltac:(fconst)) as [F0 F1].
  replace (Math_floor (below_one * 20)) with 19%float in F1 by fconst.
  assert (F19 : ffinite0 19) by fconst.
  assert (Ff : ffinite0 (Math_floor (r * 20))) by (apply (ffinite0_le _ 19); assumption).
  split.
  - replace 10%float with (10 + 0)%float at 1 by fconst.
    apply add_mono; try assumption; fconst.
  - replace 29%float with (10 + 19)%float by fconst.
    apply add_mono; try assumption; fconst.
Qed.

End FloorTheory.

(** *** What [buildWorld] adds to the scene *)

Module BuildSpec.
Import World Build.

(** What a part of [buildWorld] appends: the references pushed to
    [animatedObjects], the lights pushed to [pulsatingLights] (each with
    the position and the intensity it is given), the points pushed to
    [anomalyPositions] and the children added to the scene. *)
Record added := mkAdded {
  animated : list nat;
  lights : list (nat * THREE.Vector3 * float);
  positions : list THREE.Vector3;
  kids : list nat
}.

Definition nothing : added :=
  {| animated := nil; lights := nil; positions := nil; kids := nil |}.

Definition both (d1 d2 : added) : added :=
  {| animated := animated d1 ++ animated d2;
     lights := lights d1 ++ lights d2;
     positions := positions d1 ++ positions d2;
     kids := kids d1 ++ kids d2 |}.

Definition light_ref (d : nat * THREE.Vector3 * float) : nat := fst (fst d).

(** Every reference the scene or an array holds is one of an object
    created before, and no object lies beyond the next free reference. *)
Record wf (s : Scene) : Prop := {
  wf_heap : forall r, (created s <= r)%nat -> heap (world s) !! r = None;
  wf_children : Forall (fun r => (r < created s)%nat) (children s);
  wf_animated : Forall (fun r => (r < created s)%nat) (animatedObjects (world s));
  wf_lights : Forall (fun r => (r < created s)%nat) (pulsatingLights (world s))
}.

Definition is_animated (s s' : Scene) (r : nat) : Prop :=
  (created s <= r < created s')%nat /\
  exists obj, heap (world s') !! r = Some obj /\
    xorb (isMesh obj) (isPoints obj) = true /\ intensity obj = None.

Definition is_light (s s' : Scene) (d : nat * THREE.Vector3 * float) : Prop :=
  (created s <= light_ref d < created s')%nat /\
  exists obj, heap (world s') !! light_ref d = Some obj /\
    position obj = snd (fst d) /\ intensity obj = Some (snd d) /\
    isMesh obj = false /\ isPoints obj = false.

(** [s'] is [s] with new objects, and with [d] appended to the arrays. *)
Record grown (s s' : Scene) (d : added) : Prop := {
  g_created : created s' = (created s + length (kids d))%nat;
  g_frame : forall r, (r < created s)%nat -> heap (world s') !! r = heap (world s) !! r;
  g_animated : animatedObjects (world s') = animatedObjects (world s) ++ animated d;
  g_lights : pulsatingLights (world s') = pulsatingLights (world s) ++ map light_ref (lights d);
  g_positions : anomalyPositions (world s') = anomalyPositions (world s) ++ positions d;
  g_children : children s' = children s ++ kids d;
  g_is_animated : Forall (is_animated s s') (animated d);
  g_is_light : Forall (is_light s s') (lights d);
  g_kids : Forall (fun r => (created s <= r < created s')%nat) (kids d);
  g_live : Forall (fun r => is_Some (heap (world s') !! r)) (kids d);
  g_animated_kids : Forall (fun r => r ∈ kids d) (animated d);
  g_lights_kids : Forall (fun r => r ∈ kids d) (map light_ref (lights d));
  g_nodup_animated : NoDup (animated d);
  g_nodup_lights : NoDup (map light_ref (lights d));
  g_nodup_kids : NoDup (kids d)
}.

Lemma grown_refl s : grown s s nothing.
Proof.
  split; cbn; rewrite ?app_nil_r; auto; try constructor.
Qed.

Lemma grown_le s s' d : grown s s' d -> (created s <= created s')%nat.
Proof. intros G. rewrite (g_created _ _ _ G). lia. Qed.

Lemma is_animated_mono s0 s1 s2 r :
  (created s0 <= created s1)%nat -> (created s1 <= created s2)%nat ->
  (forall k, (k < created s1)%nat -> heap (world s2) !! k = heap (world s1) !! k) ->
  is_animated s0 s1 r -> is_animated s0 s2 r.
Proof.
  intros H01 H12 F ([L U] & obj & E & K). split; [lia|].
  exists obj. rewrite F by lia. auto.
Qed.

Lemma is_animated_later s0 s1 s2 r :
  (created s0 <= created s1)%nat -> is_animated s1 s2 r -> is_animated s0 s2 r.
Proof. intros H ([L U] & R). split; [lia|exact R]. Qed.

Lemma is_light_mono s0 s1 s2 d :
  (created s0 <= created s1)%nat -> (created s1 <= created s2)%nat ->
  (forall k, (k < created s1)%nat -> heap (world s2) !! k = heap (world s1) !! k) ->
  is_light s0 s1 d -> is_light s0 s2 d.
Proof.
  intros H01 H12 F ([L U] & obj & E & K). split; [lia|].
  exists obj. rewrite F by lia. auto.
Qed.

Lemma is_light_later s0 s1 s2 d :
  (created s0 <= created s1)%nat -> is_light s1 s2 d -> is_light s0 s2 d.
Proof. intros H ([L U] & R). split; [lia|exact R]. Qed.

Lemma grown_trans s0 s1 s2 d1 d2 :
  grown s0 s1 d1 -> grown s1 s2 d2 -> grown s0 s2 (both d1 d2).
Proof.
  intros G1 G2.
  pose proof (grown_le _ _ _ G1) as L1. pose proof (grown_le _ _ _ G2) as L2.
  destruct G1 as [c1 f1 a1 l1 p1 k1 ia1 il1 ik1 lv1 ak1 lk1 na1 nl1 nk1].
  destruct G2 as [c2 f2 a2 l2 p2 k2 ia2 il2 ik2 lv2 ak2 lk2 na2 nl2 nk2].
  split; cbn [both animated lights positions kids].
  - rewrite c2, c1, length_app. lia.
  - intros r Hr. rewrite f2 by lia. apply f1. exact Hr.
  - rewrite a2, a1, app_assoc. reflexivity.
  - rewrite l2, l1, map_app, app_assoc. reflexivity.
  - rewrite p2, p1, app_assoc. reflexivity.
  - rewrite k2, k1, app_assoc. reflexivity.
  - apply Forall_app. split.
    + eapply Forall_impl; [exact ia1|].
      intros r. apply is_animated_mono; assumption.
    + eapply Forall_impl; [exact ia2|].
      intros r. apply is_animated_later; assumption.
  - apply Forall_app. split.
    + eapply Forall_impl; [exact il1|].
      intros r. apply is_light_mono; assumption.
    + eapply Forall_impl; [exact il2|].
      intros r. apply is_light_later; assumption.
  - apply Forall_app. split.
    + eapply Forall_impl; [exact ik1|]. cbn. intros; lia.
    + eapply Forall_impl; [exact ik2|]. cbn. intros; lia.
  - apply Forall_app. split; [|exact lv2].
    rewrite Forall_forall in ik1, lv1. apply Forall_forall. intros r Hr.
    rewrite f2 by (apply ik1; exact Hr). apply lv1. exact Hr.
  - apply Forall_app. split.
    + eapply Forall_impl; [exact ak1|]. cbn. intros r Hr. apply elem_of_app. left. exact Hr.
    + eapply Forall_impl; [exact ak2|]. cbn. intros r Hr. apply elem_of_app. right. exact Hr.
  - rewrite map_app. apply Forall_app. split.
    + eapply Forall_impl; [exact lk1|]. cbn. intros r Hr. apply elem_of_app. left. exact Hr.
    + eapply Forall_impl; [exact lk2|]. cbn. intros r Hr. apply elem_of_app. right. exact Hr.
  - apply NoDup_app. split; [assumption|]. split; [|assumption].
    intros r H1 H2.
    rewrite Forall_forall in ia1, ia2.
    destruct (ia1 r H1) as [? _]. destruct (ia2 r H2) as [? _]. lia.
  - rewrite map_app. apply NoDup_app. split; [assumption|]. split; [|assumption].
    intros r H1 H2.
    apply list_elem_of_fmap in H1 as (x1 & -> & H1).
    apply list_elem_of_fmap in H2 as (x2 & E & H2).
    rewrite Forall_forall in il1, il2.
    destruct (il1 x1 H1) as [? _]. destruct (il2 x2 H2) as [? _].
    rewrite <- E in *. lia.
  - apply NoDup_app. split; [assumption|]. split; [|assumption].
    intros r H1 H2.
    rewrite Forall_forall in ik1, ik2.
    pose proof (ik1 r H1). pose proof (ik2 r H2). lia.
Qed.

(** *** What a statement adds *)

(** The summary of what was added: between [lo] and [hi] animated
    objects, [nl] lights, all of intensity [i], [k] children that are
    neither, and the points pushed to [anomalyPositions], which are the
    positions of the lights when [aligned] and none otherwise. *)
Definition shape (lo hi nl k : nat) (i : float) (aligned : bool) (d : added) : Prop :=
  (lo <= length (animated d) <= hi)%nat /\
  length (lights d) = nl /\
  length (kids d) = (length (animated d) + nl + k)%nat /\
  Forall (fun x => snd x = i) (lights d) /\
  positions d = if aligned then map (fun x => snd (fst x)) (lights d) else nil.

Lemma shape_both lo1 hi1 nl1 k1 lo2 hi2 nl2 k2 i al d1 d2 :
  shape lo1 hi1 nl1 k1 i al d1 -> shape lo2 hi2 nl2 k2 i al d2 ->
  shape (lo1 + lo2) (hi1 + hi2) (nl1 + nl2) (k1 + k2) i al (both d1 d2).
Proof.
  intros (A1 & L1 & K1 & I1 & P1) (A2 & L2 & K2 & I2 & P2).
  unfold shape. cbn [both animated lights positions kids].
  rewrite !length_app. repeat split; try lia.
  - apply Forall_app. split; assumption.
  - rewrite P1, P2. destruct al; [rewrite map_app|]; reflexivity.
Qed.

Lemma shape_le lo hi lo' hi' nl k i al d :
  shape lo hi nl k i al d -> (lo' <= lo)%nat -> (hi <= hi')%nat -> shape lo' hi' nl k i al d.
Proof. intros (A & R) H1 H2. split; [lia|exact R]. Qed.

Lemma shape_one_animated r i al :
  shape 1 1 0 0 i al
    {| animated := r :: nil; lights := nil; positions := nil; kids := r :: nil |}.
Proof.
  unfold shape. cbn. repeat split; try lia; try constructor. destruct al; reflexivity.
Qed.

Lemma shape_nothing i al : shape 0 0 0 0 i al nothing.
Proof.
  unfold shape. cbn. repeat split; try lia; try constructor. destruct al; reflexivity.
Qed.

(** A statement completes from every well-formed scene that satisfies
    [Pre], and what it adds satisfies [J]. *)
Definition spec (Pre : Scene -> Prop) (c : M unit) (J : added -> Prop) : Prop :=
  forall s, wf s -> Pre s ->
    exists s' d, c s = Some (tt, s') /\ wf s' /\ grown s s' d /\ J d.

Definition stable (Pre : Scene -> Prop) : Prop :=
  forall s s' d, grown s s' d -> Pre s -> Pre s'.

Lemma stable_True : stable (fun _ => True).
Proof. intros s s' d _ _. exact I. Qed.

Lemma spec_seq Pre c1 c2 lo1 hi1 nl1 k1 lo2 hi2 nl2 k2 i al :
  stable Pre ->
  spec Pre c1 (shape lo1 hi1 nl1 k1 i al) ->
  spec Pre c2 (shape lo2 hi2 nl2 k2 i al) ->
  spec Pre (c1;; c2) (shape (lo1 + lo2) (hi1 + hi2) (nl1 + nl2) (k1 + k2) i al).
Proof.
  intros St S1 S2 s W P.
  destruct (S1 s W P) as (s1 & d1 & E1 & W1 & G1 & J1).
  destruct (S2 s1 W1 (St _ _ _ G1 P)) as (s2 & d2 & E2 & W2 & G2 & J2).
  exists s2, (both d1 d2). split.
  - unfold mbind, M_bind. rewrite E1. exact E2.
  - split; [exact W2|]. split; [eapply grown_trans; eassumption|].
    apply shape_both; assumption.
Qed.

Lemma spec_shape_eq Pre c lo hi nl k lo' hi' nl' k' i al :
  lo = lo' -> hi = hi' -> nl = nl' -> k = k' ->
  spec Pre c (shape lo hi nl k i al) -> spec Pre c (shape lo' hi' nl' k' i al).
Proof. intros -> -> -> ->. exact id. Qed.

Lemma spec_for_n Pre body lo hi nl k i al :
  stable Pre ->
  (forall j, spec Pre (body j) (shape lo hi nl k i al)) ->
  forall n j, spec Pre (for_n n j body) (shape (n * lo) (n * hi) (n * nl) (n * k) i al).
Proof.
  intros St B n. induction n as [|n IH]; intros j.
  - intros s W P. exists s, nothing. split; [reflexivity|]. split; [exact W|].
    split; [apply grown_refl|apply shape_nothing].
  - cbn [for_n]. eapply spec_shape_eq; [| | | |apply spec_seq; [exact St|apply B|apply IH]]; lia.
Qed.

Lemma spec_forEach {A} Pre (body : A -> M unit) lo hi nl k i al :
  stable Pre ->
  (forall a, spec Pre (body a) (shape lo hi nl k i al)) ->
  forall l, spec Pre (forEach l body)
              (shape (length l * lo) (length l * hi) (length l * nl) (length l * k) i al).
Proof.
  intros St B l. induction l as [|a l IH].
  - intros s W P. exists s, nothing. split; [reflexivity|]. split; [exact W|].
    split; [apply grown_refl|apply shape_nothing].
  - cbn [forEach length]. eapply spec_shape_eq; [| | | |apply spec_seq; [exact St|apply B|apply IH]]; lia.
Qed.

(** *** Statements that only draw random numbers *)

Definition same (s s' : Scene) : Prop :=
  world s' = world s /\ children s' = children s /\ created s' = created s.

Lemma same_refl s : same s s.
Proof. repeat split. Qed.

Lemma same_trans s1 s2 s3 : same s1 s2 -> same s2 s3 -> same s1 s3.
Proof. intros (A & B & C) (A' & B' & C'). repeat split; congruence. Qed.

Definition quiet {A} (c : M A) : Prop :=
  forall s, exists a s', c s = Some (a, s') /\ same s s'.

Lemma same_wf s s' : same s s' -> wf s -> wf s'.
Proof.
  intros (A & B & C) [H1 H2 H3 H4]. split; rewrite ?A, ?B, ?C; assumption.
Qed.

Lemma same_grown s s' : same s s' -> grown s s' nothing.
Proof.
  intros (A & B & C). split; cbn; rewrite ?A, ?B, ?C, ?app_nil_r; auto; try constructor.
Qed.

Lemma quiet_spec Pre (c : M unit) i al : quiet c -> spec Pre c (shape 0 0 0 0 i al).
Proof.
  intros Q s W _. destruct (Q s) as ([] & s' & E & S).
  exists s', nothing. split; [exact E|]. split; [eapply same_wf; eassumption|].
  split; [apply same_grown; exact S|apply shape_nothing].
Qed.

Lemma quiet_times n (body : M unit) : quiet body -> quiet (times n body).
Proof.
  intros Q s. unfold times.
  apply (N.iter_invariant n _ _ (fun r => exists a s', r = Some (a, s') /\ same s s')).
  - intros r (a & s1 & -> & S). destruct (Q s1) as (a' & s2 & E & S').
    exists a', s2. split; [exact E|]. eapply same_trans; eassumption.
  - exists tt, s. split; [reflexivity|apply same_refl].
Qed.

Lemma quiet_bind {A B} (c : M A) (f : A -> M B) :
  quiet c -> (forall a, quiet (f a)) -> quiet (c ≫= f).
Proof.
  intros Q1 Q2 s. destruct (Q1 s) as (a & s1 & E1 & S1).
  destruct (Q2 a s1) as (b & s2 & E2 & S2).
  exists b, s2. split; [|eapply same_trans; eassumption].
  unfold mbind, M_bind. rewrite E1. exact E2.
Qed.

Lemma quiet_ret {A} (a : A) : quiet (mret a : M A).
Proof. intros s. exists a, s. split; [reflexivity|apply same_refl]. Qed.


(** *** One object *)

Lemma mutate_insert f (h : gmap nat Object3D) r obj :
  mutate f (<[r := obj]> h) r = <[r := f obj]> h.
Proof. unfold mutate. rewrite lookup_insert_eq, insert_insert_eq. reflexivity. Qed.

Lemma filter_fresh (l : list nat) n :
  Forall (fun r => (r < n)%nat) l ->
  List.filter (fun k => negb (Nat.eqb k n)) l = l.
Proof.
  induction 1 as [|r l H _ IH]; [reflexivity|].
  cbn [List.filter]. destruct (Nat.eqb_spec r n); [lia|]. cbn. rewrite IH. reflexivity.
Qed.

Lemma Forall_lt_S (l : list nat) n :
  Forall (fun r => (r < n)%nat) l -> Forall (fun r => (r < S n)%nat) l.
Proof. intros H. eapply Forall_impl; [exact H|]. cbn. intros; lia. Qed.

(** The scene after a statement made one object [obj], added it to the
    scene and pushed it to the arrays [a] and [l] say. *)
Definition made (obj : Object3D) (a l : bool) (s s' : Scene) : Prop :=
  created s' = S (created s) /\
  heap (world s') = <[created s := obj]> (heap (world s)) /\
  children s' = children s ++ created s :: nil /\
  animatedObjects (world s') = animatedObjects (world s) ++ (if a then created s :: nil else nil) /\
  pulsatingLights (world s') = pulsatingLights (world s) ++ (if l then created s :: nil else nil) /\
  anomalyPositions (world s') = anomalyPositions (world s).

Lemma made_wf obj a l s s' : wf s -> made obj a l s s' -> wf s'.
Proof.
  intros [H1 H2 H3 H4] (C & H & K & A & L & P).
  split; rewrite ?C, ?H, ?K, ?A, ?L.
  - intros r Hr. rewrite lookup_insert_ne by lia. apply H1. lia.
  - apply Forall_app. split; [apply Forall_lt_S; assumption|repeat constructor].
  - apply Forall_app. split; [apply Forall_lt_S; assumption|].
    destruct a; repeat constructor.
  - apply Forall_app. split; [apply Forall_lt_S; assumption|].
    destruct l; repeat constructor.
Qed.

Lemma made_grown obj a l s s' :
  wf s -> made obj a l s s' ->
  (a = true -> xorb (isMesh obj) (isPoints obj) = true /\ intensity obj = None) ->
  (l = true -> exists i, intensity obj = Some i /\ isMesh obj = false /\ isPoints obj = false) ->
  grown s s'
    {| animated := if a then created s :: nil else nil;
       lights := if l then
                   match intensity obj with
                   | Some i => (created s, position obj, i) :: nil
                   | None => nil
                   end
                 else nil;
       positions := nil;
       kids := created s :: nil |}.
Proof.
  intros W (C & H & K & A & L & P) Ka Kl.
  assert (E : heap (world s') !! created s = Some obj) by (rewrite H; apply lookup_insert_eq).
  split; cbn [animated lights positions kids].
  - cbn [length]. lia.
  - intros r Hr. rewrite H. apply lookup_insert_ne. lia.
  - exact A.
  - rewrite L. destruct l; [|reflexivity].
    destruct (Kl eq_refl) as (i & -> & _). reflexivity.
  - rewrite P, app_nil_r. reflexivity.
  - exact K.
  - destruct a; [|constructor]. constructor; [|constructor].
    split; [lia|]. exists obj. destruct (Ka eq_refl). auto.
  - destruct l; [|constructor]. destruct (Kl eq_refl) as (i & Ei & M1 & M2). rewrite Ei.
    constructor; [|constructor]. split; [cbn; lia|]. exists obj. cbn. auto.
  - constructor; [lia|constructor].
  - constructor; [rewrite E; eexists; reflexivity|constructor].
  - destruct a; repeat constructor.
  - destruct l; [|constructor]. destruct (intensity obj); cbn; repeat constructor.
  - destruct a; repeat constructor. intros X. apply elem_of_nil in X. exact X.
  - destruct l; [|constructor]. destruct (intensity obj); cbn; repeat constructor.
    intros X. apply elem_of_nil in X. exact X.
  - repeat constructor. intros X. apply elem_of_nil in X. exact X.
Qed.

Lemma made_animated Pre (c : M unit) i al :
  (forall s, wf s -> Pre s -> exists s' obj, c s = Some (tt, s') /\ made obj true false s s' /\
     xorb (isMesh obj) (isPoints obj) = true /\ intensity obj = None) ->
  spec Pre c (shape 1 1 0 0 i al).
Proof.
  intros H s W P. destruct (H s W P) as (s' & obj & E & Mk & K1 & K2).
  eexists s', _. split; [exact E|]. split; [eapply made_wf; eassumption|].
  split; [apply (made_grown obj true false); auto; discriminate|].
  unfold shape. cbn. repeat split; try lia; try constructor. destruct al; reflexivity.
Qed.

Lemma made_child Pre (c : M unit) i al :
  (forall s, wf s -> Pre s -> exists s' obj, c s = Some (tt, s') /\ made obj false false s s') ->
  spec Pre c (shape 0 0 0 1 i al).
Proof.
  intros H s W P. destruct (H s W P) as (s' & obj & E & Mk).
  eexists s', _. split; [exact E|]. split; [eapply made_wf; eassumption|].
  split; [apply (made_grown obj false false); auto; discriminate|].
  unfold shape. cbn. repeat split; try lia; try constructor. destruct al; reflexivity.
Qed.

(** Running a statement on a scene, step by step. *)
Ltac fields :=
  cbv [world children fog created drawn heap animatedObjects pulsatingLights anomalyPositions].

Ltac fields_in H :=
  cbv [world children fog created drawn heap animatedObjects pulsatingLights anomalyPositions] in H.

Ltac exec :=
  cbv [mbind M_bind mret M_ret random randomPastel random_rotation createStarTexture
       new_Mesh new_Points new_InstancedMesh new_GridHelper new_PointLight
       new_DirectionalLight new_AmbientLight new object3D
       position_set position_copy position_x position_y position_z
       rotation_set rotation_x rotation_y add
       animatedObjects_push pulsatingLights_push anomalyPositions_push
       with_heap with_world set_fog
       world children fog created drawn heap animatedObjects pulsatingLights anomalyPositions].

(** A scene by its fields, so that every projection computes. *)
Ltac open_scene s W :=
  destruct s as [[? ? ? ?] ? ? ? ?];
  let Wc := fresh "Wc" in
  pose proof (wf_children _ W) as Wc; fields_in Wc.

Ltac made_facts :=
  unfold made; fields;
  (split; [|split; [|split; [|split; [|split]]]]);
  rewrite ?mutate_insert, ?app_nil_r;
  try match goal with
      | Wc : Forall _ ?c |- context [List.filter _ ?c] => rewrite (filter_fresh _ _ Wc)
      end;
  reflexivity.

(** *** Sequences whose parts are summarised differently *)

Lemma spec_seq_gen Pre c1 c2 (J1 J2 J : added -> Prop) :
  stable Pre ->
  spec Pre c1 J1 -> spec Pre c2 J2 ->
  (forall d1 d2, J1 d1 -> J2 d2 -> J (both d1 d2)) ->
  spec Pre (c1;; c2) J.
Proof.
  intros St S1 S2 HJ s W P.
  destruct (S1 s W P) as (s1 & d1 & E1 & W1 & G1 & K1).
  destruct (S2 s1 W1 (St _ _ _ G1 P)) as (s2 & d2 & E2 & W2 & G2 & K2).
  exists s2, (both d1 d2). split.
  - unfold mbind, M_bind. rewrite E1. exact E2.
  - split; [exact W2|]. split; [eapply grown_trans; eassumption|auto].
Qed.

Lemma spec_weaken Pre c (J J' : added -> Prop) :
  (forall d, J d -> J' d) -> spec Pre c J -> spec Pre c J'.
Proof.
  intros HJ S s W P. destruct (S s W P) as (s' & d & E & W' & G & K).
  exists s', d. auto.
Qed.

Lemma both_nothing_l d : both nothing d = d.
Proof. destruct d. reflexivity. Qed.

(** A statement that first draws random numbers for a value. *)
Lemma spec_bind_quiet {A} Pre (c : M A) (f : A -> M unit) (J : added -> Prop) :
  stable Pre -> quiet c -> (forall a, spec Pre (f a) J) -> spec Pre (c ≫= f) J.
Proof.
  intros St Q S s W P. destruct (Q s) as (a & s1 & E1 & S1).
  pose proof (same_grown _ _ S1) as G1.
  destruct (S a s1 (same_wf _ _ S1 W) (St _ _ _ G1 P)) as (s2 & d & E2 & W2 & G2 & K).
  exists s2, d. split; [unfold mbind, M_bind; rewrite E1; exact E2|].
  split; [exact W2|]. split; [|exact K].
  rewrite <- (both_nothing_l d). eapply grown_trans; eassumption.
Qed.

(** The summary of a part of an anomaly zone: [P] is pushed to
    [anomalyPositions] and the lights are at the positions [Q]. *)
Definition parts (n k : nat) (i : float) (P Q : list THREE.Vector3) (d : added) : Prop :=
  length (animated d) = n /\
  length (kids d) = (n + length Q + k)%nat /\
  Forall (fun x => snd x = i) (lights d) /\
  positions d = P /\
  map (fun x => snd (fst x)) (lights d) = Q.

Lemma parts_both n1 k1 P1 Q1 n2 k2 P2 Q2 i d1 d2 :
  parts n1 k1 i P1 Q1 d1 -> parts n2 k2 i P2 Q2 d2 ->
  parts (n1 + n2) (k1 + k2) i (P1 ++ P2) (Q1 ++ Q2) (both d1 d2).
Proof.
  intros (A1 & K1 & I1 & E1 & L1) (A2 & K2 & I2 & E2 & L2).
  unfold parts. cbn [both animated lights positions kids].
  rewrite !length_app, map_app. repeat split; try lia; try congruence.
  apply Forall_app. split; assumption.
Qed.

Lemma shape_parts n k i d : shape n n 0 k i false d -> parts n k i nil nil d.
Proof.
  intros (A & L & K & I & P). unfold parts.
  apply nil_length_inv in L. rewrite L in *. cbn. repeat split; try lia; auto.
Qed.

Lemma parts_shape n k i P d : parts n k i P P d -> shape n n (length P) k i true d.
Proof.
  intros (A & K & I & E & L). unfold shape.
  repeat split; try lia; auto.
  - rewrite <- L, length_map. reflexivity.
  - congruence.
Qed.

Lemma parts_shape_false n k i Q d : parts n k i nil Q d -> shape n n (length Q) k i false d.
Proof.
  intros (A & K & I & E & L). unfold shape.
  repeat split; try lia; auto.
  rewrite <- L, length_map. reflexivity.
Qed.

Lemma made_light Pre (c : M unit) pos i :
  (forall s, wf s -> Pre s -> exists s' obj, c s = Some (tt, s') /\ made obj false true s s' /\
     position obj = pos /\ intensity obj = Some i /\
     isMesh obj = false /\ isPoints obj = false) ->
  spec Pre c (parts 0 0 i nil (pos :: nil)).
Proof.
  intros H s W P. destruct (H s W P) as (s' & obj & E & Mk & K1 & K2 & K3 & K4).
  eexists s', _. split; [exact E|]. split; [eapply made_wf; eassumption|].
  split; [apply (made_grown obj false true); eauto; discriminate|].
  unfold parts. cbn. rewrite K2, K1. cbn. repeat split; repeat constructor.
Qed.

(** *** The loop over a computed bound *)

Definition count_from (k : nat) : float := Nat.iter k (fun x => (x + 1)%float) 0%float.

Lemma count_below_10 k : (k < 10)%nat -> B64.flt (count_from k) 10.
Proof.
  intros H.
  assert (A : forallb (fun k => (count_from k <? 10)%float) (seq 0 10) = true)
    by (vm_compute; reflexivity).
  rewrite forallb_forall in A. apply A. apply in_seq. lia.
Qed.

Lemma spec_for_lt Pre body lo hi i al bound :
  stable Pre ->
  (forall j, spec Pre (body j) (shape lo hi 0 0 i al)) ->
  B64.fle 10 bound -> B64.fle bound 29 ->
  forall m k fuel, (k + m = 29)%nat -> (m < fuel)%nat ->
    spec Pre (for_lt fuel (count_from k) bound body)
      (fun d => exists n, (10 - k <= n <= m)%nat /\ shape (n * lo) (n * hi) 0 0 i al d).
Proof.
  intros St B L U m. induction m as [|m IH]; intros k fuel Hk Hf s W P.
  - destruct fuel as [|fuel]; [lia|]. cbn [for_lt].
    assert (E : k = 29%nat) by lia. subst k.
    replace (count_from 29) with 29%float by (vm_compute; reflexivity).
    unfold JS.lt. rewrite (B64.flt_not_le _ _ U).
    exists s, nothing. split; [reflexivity|]. split; [exact W|]. split; [apply grown_refl|].
    exists O. split; [lia|apply shape_nothing].
  - destruct fuel as [|fuel]; [lia|]. cbn [for_lt]. unfold JS.lt.
    destruct (count_from k <? bound)%float eqn:E.
    + destruct (B (count_from k) s W P) as (s1 & d1 & E1 & W1 & G1 & K1).
      destruct (IH (S k) fuel ltac:(lia) ltac:(lia) s1 W1 (St _ _ _ G1 P))
        as (s2 & d2 & E2 & W2 & G2 & n & Hn & K2).
      exists s2, (both d1 d2). split.
      * unfold mbind, M_bind. rewrite E1. exact E2.
      * split; [exact W2|]. split; [eapply grown_trans; eassumption|].
        exists (S n). split; [lia|].
        replace (S n * lo)%nat with (lo + n * lo)%nat by lia.
        replace (S n * hi)%nat with (hi + n * hi)%nat by lia.
        apply (shape_both lo hi 0 0 (n * lo) (n * hi) 0 0); assumption.
    + exists s, nothing. split; [reflexivity|]. split; [exact W|]. split; [apply grown_refl|].
      exists O. split; [|apply shape_nothing]. split; [|lia].
      destruct (Nat.lt_ge_cases k 10) as [Hlt|Hge]; [|lia]. exfalso.
      pose proof (count_below_10 k Hlt) as C.
      assert (F : B64.flt (count_from k) bound).
      { apply B64.flt_iff. apply B64.flt_iff in C. apply B64.fle_iff in L. intuition lia. }
      unfold B64.flt in F. congruence.
Qed.

(** *** The parts of [buildWorld] *)

Section Blocks.

Variable Math_random : N -> float.
Variables Math_sin Math_cos Math_acos : float -> float.

(** [Math.random] returns a number of [0, 1). *)
Hypothesis random_unit :
  forall n, B64.fle 0 (Math_random n) /\ B64.flt (Math_random n) 1.

Lemma quiet_random : quiet (random Math_random).
Proof. intros s. eexists _, _. split; [reflexivity|]. repeat split. Qed.

Ltac quietly :=
  repeat first [apply quiet_times | apply quiet_bind; [|intros ?] | apply quiet_random
               | apply quiet_ret].

Ltac one_object s W :=
  open_scene s W;
  eexists _, _; split; [exec; reflexivity|]; split; [made_facts|]; repeat split; reflexivity.

Ltac one_child s W :=
  open_scene s W;
  eexists _, _; split; [exec; reflexivity|made_facts].

Lemma starfield_spec i al : spec (fun _ => True) (starfield Math_random) (shape 1 1 0 0 i al).
Proof.
  unfold starfield.
  apply (spec_seq _ _ _ 0 0 0 0 1 1 0 0); [apply stable_True|apply quiet_spec; quietly|].
  apply (spec_seq _ _ _ 0 0 0 0 1 1 0 0); [apply stable_True|apply quiet_spec; apply quiet_ret|].
  apply made_animated. intros s W _. unfold stars_object. one_object s W.
Qed.

Lemma galaxy_spec i al : spec (fun _ => True) galaxy (shape 1 1 0 0 i al).
Proof. apply made_animated. intros s W _. unfold galaxy. one_object s W. Qed.

Lemma ground_spec i al : spec (fun _ => True) (ground Math_random) (shape 0 0 0 2 i al).
Proof.
  unfold ground.
  apply (spec_seq _ _ _ 0 0 0 0 0 0 0 2);
    [apply stable_True|apply quiet_spec; unfold createGroundTexture; quietly|].
  apply (spec_seq _ _ _ 0 0 0 1 0 0 0 1); [apply stable_True| |].
  - apply made_child. intros s W _. unfold ground_object. one_child s W.
  - apply made_child. intros s W _. unfold grid_object. one_child s W.
Qed.

(** **** Islands and their crystals *)

Definition live (r : nat) (s : Scene) : Prop :=
  (r < created s)%nat /\ exists obj, heap (world s) !! r = Some obj.

Lemma stable_live r : stable (live r).
Proof.
  intros s s' d G (L & obj & E). split.
  - pose proof (grown_le _ _ _ G). lia.
  - exists obj. rewrite (g_frame _ _ _ G) by exact L. exact E.
Qed.

Lemma crystal_spec island i al :
  spec (live island) (crystal Math_random island) (shape 1 1 0 0 i al).
Proof.
  apply made_animated. intros s W (L & obj & E).
  open_scene s W. fields_in L. fields_in E.
  eexists _, _. split.
  - unfold crystal, position_of. exec.
    rewrite lookup_insert_ne by lia. rewrite E. reflexivity.
  - split; [made_facts|]. split; reflexivity.
Qed.

Lemma island_spec fuel i al :
  (30 <= fuel)%nat ->
  spec (fun _ => True) (island Math_random Math_sin Math_cos fuel) (shape 11 30 0 0 i al).
Proof.
  intros Hf s W _.
  destruct (random_unit (N.succ (N.succ (N.succ (N.succ (N.succ (N.succ (N.succ (drawn s)))))))))
    as [R0 R1].
  destruct (FloorTheory.crystalCount_range _ R0 R1) as [B0 B1]. clear R0 R1.
  open_scene s W. fields_in B0. fields_in B1.
  unfold island. exec.
  match goal with
  | |- context [for_lt fuel _ ?b ?body ?S] => set (S1 := S)
  end.
  match type of W with wf ?s => set (s0 := s) in * end.
  assert (Mk : exists obj, made obj true false s0 S1 /\
                 xorb (isMesh obj) (isPoints obj) = true /\ intensity obj = None).
  { eexists. split; [subst S1 s0; made_facts|]. split; reflexivity. }
  destruct Mk as (obj & Mk & K1 & K2).
  pose proof (made_wf _ _ _ _ _ W Mk) as W1.
  pose proof (made_grown obj true false _ S1 W Mk ltac:(auto) ltac:(discriminate)) as G1.
  assert (L1 : live (created s0) S1).
  { destruct Mk as (C & H & _). split; [lia|]. exists obj. rewrite H. apply lookup_insert_eq. }
  destruct (spec_for_lt (live (created s0)) (fun _ => crystal Math_random (created s0))
              1 1 i al _ (stable_live _) (fun _ => crystal_spec _ i al) B0 B1
              29 0 fuel eq_refl ltac:(lia) S1 W1 L1)
    as (s2 & d2 & E2 & W2 & G2 & n & Hn & K).
  match type of G1 with grown _ _ ?d1 => exists s2, (both d1 d2) end.
  split; [exact E2|]. split; [exact W2|].
  split; [eapply grown_trans; eassumption|].
  rewrite !Nat.mul_1_r in K.
  apply (shape_le (1 + n) (1 + n)); try lia.
  apply (shape_both 1 1 0 0 n n 0 0); [apply shape_one_animated|exact K].
Qed.

Lemma islands_spec fuel i al :
  (30 <= fuel)%nat ->
  spec (fun _ => True) (islands Math_random Math_sin Math_cos fuel)
    (shape (200 * 11) (200 * 30) 0 0 i al).
Proof.
  intros Hf. unfold islands.
  apply (spec_for_n _ _ 11 30 0 0 i al stable_True (fun _ => island_spec fuel i al Hf) 200).
Qed.

(** **** Rocks, unique objects and dust *)

Lemma rock_spec i al : spec (fun _ => True) (rock Math_random) (shape 0 0 0 1 i al).
Proof.
  apply made_child. intros s W _. open_scene s W.
  unfold rock. cbv [mbind M_bind new_InstancedMesh new object3D].
  match goal with
  | |- context [times ?n ?body ?S] =>
      destruct (quiet_times n body ltac:(quietly) S) as ([] & s2 & E & Sw & Sc & Sn)
  end.
  rewrite E. exec.
  destruct s2 as [[? ? ? ?] ? ? ? ?]. fields_in Sw. fields_in Sc. fields_in Sn.
  injection Sw as -> -> -> ->. subst.
  eexists _, _. split; [reflexivity|]. made_facts.
Qed.

Lemma rocks_spec i al : spec (fun _ => True) (rocks Math_random) (shape 0 0 0 5 i al).
Proof.
  unfold rocks.
  apply (spec_for_n _ _ 0 0 0 1 i al stable_True (fun _ => rock_spec i al) 5).
Qed.

Lemma unique_object_spec i al :
  spec (fun _ => True) (unique_object Math_random Math_sin Math_cos Math_acos)
    (shape 1 1 0 0 i al).
Proof. apply made_animated. intros s W _. unfold unique_object. one_object s W. Qed.

Lemma unique_spec i al :
  spec (fun _ => True) (unique Math_random Math_sin Math_cos Math_acos)
    (shape 1500 1500 0 0 i al).
Proof.
  unfold unique.
  apply (spec_for_n _ _ 1 1 0 0 i al stable_True (fun _ => unique_object_spec i al) 1500).
Qed.

Lemma dust_spec i al : spec (fun _ => True) (dust Math_random) (shape 1 1 0 0 i al).
Proof.
  unfold dust.
  apply (spec_seq _ _ _ 0 0 0 0 1 1 0 0); [apply stable_True|apply quiet_spec; quietly|].
  apply made_animated. intros s W _. unfold dust_object. one_object s W.
Qed.

(** **** Teleporters *)

Lemma collect_n_quiet {A} (body : float -> M A) :
  (forall j, quiet (body j)) ->
  forall n j s, exists l s', collect_n n j body s = Some (l, s') /\ same s s' /\ length l = n.
Proof.
  intros Q n. induction n as [|n IH]; intros j s.
  - exists nil, s. split; [reflexivity|]. split; [apply same_refl|reflexivity].
  - destruct (Q j s) as (a & s1 & E1 & S1). destruct (IH (j + 1)%float s1) as (l & s2 & E2 & S2 & Ln).
    exists (a :: l), s2. split.
    + cbn [collect_n]. unfold mbind, M_bind. rewrite E1, E2. reflexivity.
    + split; [eapply same_trans; eassumption|cbn; lia].
Qed.

Lemma light_spec Pre i pos : spec Pre (light_object i pos) (parts 0 0 i nil (pos :: nil)).
Proof.
  apply made_light. intros s W _. unfold light_object. open_scene s W.
  eexists _, _; split; [exec; reflexivity|]; split; [made_facts|]. repeat split; reflexivity.
Qed.

Lemma teleporter_spec pos :
  spec (fun _ => True) (teleporter Math_random pos) (shape 2 2 1 0 1.5 false).
Proof.
  unfold teleporter.
  apply (spec_seq _ _ _ 1 1 0 0 1 1 1 0); [apply stable_True| |].
  { apply made_animated. intros s W _. unfold ring_object. one_object s W. }
  apply (spec_seq _ _ _ 1 1 0 0 0 0 1 0); [apply stable_True| |].
  { unfold swirl_object.
    apply (spec_seq _ _ _ 0 0 0 0 1 1 0 0); [apply stable_True|apply quiet_spec; quietly|].
    apply made_animated. intros s W _. one_object s W. }
  eapply spec_weaken; [|apply light_spec].
  intros d H. apply (parts_shape_false 0 0 _ (pos :: nil)). exact H.
Qed.

Lemma teleporters_spec :
  spec (fun _ => True) (teleporters Math_random Math_sin Math_cos) (shape 20 20 10 0 1.5 false).
Proof.
  intros s W _. unfold teleporters, teleporterPositions.
  match goal with
  | |- context [collect_n 10 0%float ?body] =>
      destruct (collect_n_quiet body ltac:(intros j; quietly) 10 0%float s)
        as (l & s1 & E1 & S1 & Ln)
  end.
  destruct (spec_forEach (fun _ => True) (teleporter Math_random) 2 2 1 0 1.5 false
              stable_True teleporter_spec l s1 (same_wf _ _ S1 W) I)
    as (s2 & d & E2 & W2 & G2 & K).
  exists s2, d. split.
  - unfold mbind at 1. unfold M_bind at 1. rewrite E1. exact E2.
  - split; [exact W2|]. split.
    + rewrite <- (both_nothing_l d). eapply grown_trans; [apply same_grown; exact S1|exact G2].
    + rewrite Ln in K. exact K.
Qed.

(** **** Anomaly zones *)

Lemma push_spec Pre i pos :
  spec Pre (anomalyPositions_push pos) (parts 0 0 i (pos :: nil) nil).
Proof.
  intros s W _.
  eexists _, {| animated := nil; lights := nil; positions := pos :: nil; kids := nil |}.
  split; [exec; reflexivity|]. split; [|split].
  - destruct W as [H1 H2 H3 H4]. split; cbn; assumption.
  - split; cbn; rewrite ?app_nil_r, ?Nat.add_0_r; auto; constructor.
  - unfold parts. cbn. repeat split; constructor.
Qed.

Lemma core_spec pos i al :
  spec (fun _ => True) (core_object Math_random pos) (shape 1 1 0 0 i al).
Proof. apply made_animated. intros s W _. unfold core_object. one_object s W. Qed.

Lemma zone_ring_spec pos r i al :
  spec (fun _ => True) (zone_ring pos r) (shape 1 1 0 0 i al).
Proof. apply made_animated. intros s W _. unfold zone_ring. one_object s W. Qed.

Lemma zone_orb_spec pos o i al :
  spec (fun _ => True) (zone_orb Math_random Math_sin Math_cos pos o) (shape 1 1 0 0 i al).
Proof. apply made_animated. intros s W _. unfold zone_orb. one_object s W. Qed.

Lemma zone_spec pos :
  spec (fun _ => True) (zone Math_random Math_sin Math_cos pos) (shape 12 12 1 0 2 true).
Proof.
  eapply spec_weaken; [intros d H; apply (parts_shape 12 0 2 (pos :: nil)); exact H|].
  unfold zone.
  apply (spec_seq_gen _ _ _ (parts 0 0 2 (pos :: nil) nil) (parts 12 0 2 nil (pos :: nil)));
    [apply stable_True|apply push_spec| |intros d1 d2; apply (parts_both 0 0 (pos :: nil) nil 12 0 nil (pos :: nil))].
  apply (spec_seq_gen _ _ _ (parts 1 0 2 nil nil) (parts 11 0 2 nil (pos :: nil)));
    [apply stable_True| | |intros d1 d2; apply (parts_both 1 0 nil nil 11 0 nil (pos :: nil))].
  { eapply spec_weaken; [intros d; apply shape_parts|]. apply core_spec. }
  apply (spec_seq_gen _ _ _ (parts 3 0 2 nil nil) (parts 8 0 2 nil (pos :: nil)));
    [apply stable_True| | |intros d1 d2; apply (parts_both 3 0 nil nil 8 0 nil (pos :: nil))].
  { eapply spec_weaken; [intros d; apply shape_parts|].
    apply (spec_for_n _ _ 1 1 0 0 2 false stable_True (fun r => zone_ring_spec pos r 2 false) 3). }
  apply (spec_seq_gen _ _ _ (parts 8 0 2 nil nil) (parts 0 0 2 nil (pos :: nil)));
    [apply stable_True| |apply light_spec|intros d1 d2; apply (parts_both 8 0 nil nil 0 0 nil (pos :: nil))].
  eapply spec_weaken; [intros d; apply shape_parts|].
  apply (spec_for_n _ _ 1 1 0 0 2 false stable_True (fun o => zone_orb_spec pos o 2 false) 8).
Qed.

Lemma anomaly_spec :
  spec (fun _ => True) (anomaly Math_random Math_sin Math_cos) (shape 12 12 1 0 2 true).
Proof.
  unfold anomaly.
  apply spec_bind_quiet; [apply stable_True|apply quiet_random|intros a].
  apply spec_bind_quiet; [apply stable_True|apply quiet_random|intros b].
  apply spec_bind_quiet; [apply stable_True|apply quiet_random|intros c].
  apply zone_spec.
Qed.

Lemma anomalies_spec :
  spec (fun _ => True) (anomalies Math_random Math_sin Math_cos) (shape 240 240 20 0 2 true).
Proof.
  unfold anomalies.
  apply (spec_for_n _ _ 12 12 1 0 2 true stable_True (fun _ => anomaly_spec) 20).
Qed.

(** **** The lights of the scene and the fog *)

Lemma lighting_spec i al : spec (fun _ => True) lighting (shape 0 0 0 3 i al).
Proof.
  unfold lighting.
  apply (spec_seq _ _ _ 0 0 0 1 0 0 0 2); [apply stable_True| |].
  { apply made_child. intros s W _. unfold ambient_object. one_child s W. }
  apply (spec_seq _ _ _ 0 0 0 1 0 0 0 1); [apply stable_True| |].
  { apply made_child. intros s W _. unfold dirLight_object. one_child s W. }
  apply made_child. intros s W _. unfold backLight_object. one_child s W.
Qed.

Lemma quiet_set_fog f : quiet (set_fog f).
Proof. intros s. eexists _, _. split; [reflexivity|]. repeat split. Qed.

(** *** The whole of [buildWorld] *)

(** The summary of the teleporters and all that follows them: ten lights
    of intensity 1.5, then twenty of intensity 2 at the points pushed to
    [anomalyPositions]. *)
Definition final (lo hi k : nat) (d : added) : Prop :=
  (lo <= length (animated d) <= hi)%nat /\
  length (kids d) = (length (animated d) + 30 + k)%nat /\
  exists l1 l2, lights d = l1 ++ l2 /\ length l1 = 10%nat /\ length l2 = 20%nat /\
    Forall (fun x => snd x = 1.5%float) l1 /\
    Forall (fun x => snd x = 2%float) l2 /\
    positions d = map (fun x => snd (fst x)) l2.

Lemma final_tail d1 d2 :
  shape 20 20 10 0 1.5 false d1 -> shape 240 240 20 3 2 true d2 ->
  final 260 260 3 (both d1 d2).
Proof.
  intros (A1 & L1 & K1 & I1 & P1) (A2 & L2 & K2 & I2 & P2).
  unfold final. cbn [both animated lights positions kids]. rewrite !length_app.
  split; [lia|]. split; [lia|].
  exists (lights d1), (lights d2). rewrite P1, P2. repeat split; assumption.
Qed.

Lemma final_both lo1 hi1 k1 lo2 hi2 k2 i d1 d2 :
  shape lo1 hi1 0 k1 i false d1 -> final lo2 hi2 k2 d2 ->
  final (lo1 + lo2) (hi1 + hi2) (k1 + k2) (both d1 d2).
Proof.
  intros (A1 & L1 & K1 & I1 & P1) (A2 & K2 & l1 & l2 & E & R).
  apply nil_length_inv in L1.
  unfold final. cbn [both animated lights positions kids]. rewrite !length_app.
  rewrite L1, P1 in *. cbn [length app] in *.
  split; [lia|]. split; [lia|]. exists l1, l2. split; [exact E|exact R].
Qed.

Lemma spec_seq_final Pre c1 c2 lo1 hi1 k1 lo2 hi2 k2 i :
  stable Pre ->
  spec Pre c1 (shape lo1 hi1 0 k1 i false) -> spec Pre c2 (final lo2 hi2 k2) ->
  spec Pre (c1;; c2) (final (lo1 + lo2) (hi1 + hi2) (k1 + k2)).
Proof.
  intros St S1 S2. eapply spec_seq_gen; [exact St|exact S1|exact S2|].
  intros d1 d2. apply final_both.
Qed.

Lemma buildWorld_spec fuel :
  (30 <= fuel)%nat ->
  spec (fun _ => True) (buildWorld Math_random Math_sin Math_cos Math_acos fuel)
    (final (1 + (1 + (0 + (200 * 11 + (0 + (1500 + (1 + 260)))))))
           (1 + (1 + (0 + (200 * 30 + (0 + (1500 + (1 + 260)))))))
           (0 + (0 + (2 + (0 + (5 + (0 + (0 + 3)))))))).
Proof.
  intros Hf. unfold buildWorld.
  apply spec_seq_final with (i := 1.5%float); [apply stable_True|apply starfield_spec|].
  apply spec_seq_final with (i := 1.5%float); [apply stable_True|apply galaxy_spec|].
  apply spec_seq_final with (i := 1.5%float); [apply stable_True|apply ground_spec|].
  apply spec_seq_final with (i := 1.5%float);
    [apply stable_True|apply islands_spec; exact Hf|].
  apply spec_seq_final with (i := 1.5%float); [apply stable_True|apply rocks_spec|].
  apply spec_seq_final with (i := 1.5%float); [apply stable_True|apply unique_spec|].
  apply spec_seq_final with (i := 1.5%float); [apply stable_True|apply dust_spec|].
  apply (spec_seq_gen _ _ _ (shape 20 20 10 0 1.5 false) (shape 240 240 20 3 2 true));
    [apply stable_True|apply teleporters_spec| |apply final_tail].
  apply (spec_seq _ _ _ 240 240 20 0 0 0 0 3); [apply stable_True|apply anomalies_spec|].
  apply (spec_seq _ _ _ 0 0 0 3 0 0 0 0); [apply stable_True|apply lighting_spec|].
  apply quiet_spec. apply quiet_set_fog.
Qed.

(** The last statement of [buildWorld] sets the fog. *)
Definition sets_fog (f : FogExp2) (c : M unit) : Prop :=
  forall s s', c s = Some (tt, s') -> fog s' = Some f.

Lemma sets_fog_seq f (c1 c2 : M unit) : sets_fog f c2 -> sets_fog f (c1;; c2).
Proof.
  intros H s s'. unfold mbind, M_bind. destruct (c1 s) as [[[] s1]|]; [apply H|discriminate].
Qed.

Lemma buildWorld_fog fuel :
  sets_fog {| color := 0x0a0a14; density := 0.002 |}
    (buildWorld Math_random Math_sin Math_cos Math_acos fuel).
Proof.
  unfold buildWorld. do 10 apply sets_fog_seq.
  intros s s' E. injection E as <-. reflexivity.
Qed.

Lemma wf_scene0 : wf scene0.
Proof. split; cbn; constructor. Qed.

(** The scene [buildWorld] leaves, with what it added. *)
Lemma built fuel :
  (30 <= fuel)%nat ->
  exists s d,
    buildWorld Math_random Math_sin Math_cos Math_acos fuel scene0 = Some (tt, s) /\
    wf s /\ grown scene0 s d /\ final 3963 7763 10 d /\
    fog s = Some {| color := 0x0a0a14; density := 0.002 |}.
Proof.
  intros Hf.
  destruct (buildWorld_spec fuel Hf scene0 wf_scene0 I) as (s & d & E & W & G & F).
  exists s, d. split; [exact E|]. split; [exact W|]. split; [exact G|].
  split; [|exact (buildWorld_fog fuel _ _ E)].
  destruct F as (A & R). split; [|exact R].
  revert A. generalize (length (animated d)). intros n [A1 A2]. split.
  - eapply Nat.le_trans; [|exact A1]. apply Nat.leb_le; vm_compute; reflexivity.
  - eapply Nat.le_trans; [exact A2|]. apply Nat.leb_le; vm_compute; reflexivity.
Qed.

(** What the arrays track in the scene [buildWorld] leaves. *)
Lemma built_tracking fuel :
  (30 <= fuel)%nat ->
  exists s,
    buildWorld Math_random Math_sin Math_cos Math_acos fuel scene0 = Some (tt, s) /\
    NoDup (children s) /\
    NoDup (animatedObjects (world s)) /\
    NoDup (pulsatingLights (world s)) /\
    (forall r, r ∈ animatedObjects (world s) ->
       r ∈ children s /\
       exists obj, heap (world s) !! r = Some obj /\
         xorb (isMesh obj) (isPoints obj) = true /\ intensity obj = None) /\
    (forall r, r ∈ pulsatingLights (world s) ->
       r ∈ children s /\
       exists light i, heap (world s) !! r = Some light /\
         intensity light = Some i /\ isMesh light = false /\ isPoints light = false) /\
    (forall r, r ∈ children s -> is_Some (heap (world s) !! r)).
Proof.
  intros Hf. destruct (built fuel Hf) as (s & d & E & W & G & F & _).
  destruct G as [c f a l p k ia il ik lv ak lk na nl nk].
  cbn in a, l, k. exists s. rewrite a, l, k.
  rewrite Forall_forall in ia. rewrite Forall_forall in il. rewrite Forall_forall in lv.
  rewrite Forall_forall in ak. rewrite Forall_forall in lk.
  split; [exact E|]. split; [exact nk|]. split; [exact na|]. split; [exact nl|].
  split; [|split].
  - intros r Hr. split; [apply ak; exact Hr|].
    destruct (ia r Hr) as (_ & obj & H). exists obj. exact H.
  - intros r Hr. split; [apply lk; exact Hr|].
    apply list_elem_of_fmap in Hr as (x & -> & Hx).
    destruct (il x Hx) as (_ & obj & H1 & _ & H2 & H3 & H4).
    exists obj, (snd x). auto.
  - exact lv.
Qed.

Lemma occurrences_1 r (l : list nat) :
  NoDup l -> r ∈ l -> WorldSpec.occurrences r l = 1%nat.
Proof.
  induction 1 as [|x l Hx Hl IH]; intros Hr.
  - apply elem_of_nil in Hr. contradiction.
  - unfold WorldSpec.occurrences. cbn [count_occ].
    destruct (Nat.eq_dec x r) as [->|Hne].
    + f_equal. apply WorldSpec.occurrences_0. exact Hx.
    + apply elem_of_cons in Hr as [->|Hr]; [congruence|]. apply IH. exact Hr.
Qed.


(** X9: in the scene [buildWorld] leaves, no child occurs twice and no
    reference is tracked twice, by one array or by both; every tracked
    reference is a child of the scene and every child is an object of
    the store; an animated object is a mesh or a point cloud and has no
    intensity, a pulsating light has an intensity and is neither. *)
Theorem buildWorld_tracks_children fuel :
  (30 <= fuel)%nat ->
  exists s,
    buildWorld Math_random Math_sin Math_cos Math_acos fuel scene0 = Some (tt, s) /\
    NoDup (children s) /\
    NoDup (animatedObjects (world s) ++ pulsatingLights (world s)) /\
    (forall r, r ∈ animatedObjects (world s) ++ pulsatingLights (world s) ->
       r ∈ children s) /\
    (forall r, r ∈ children s -> is_Some (heap (world s) !! r)) /\
    (forall r, r ∈ animatedObjects (world s) ->
       exists obj, heap (world s) !! r = Some obj /\
         xorb (isMesh obj) (isPoints obj) = true /\ intensity obj = None) /\
    (forall r, r ∈ pulsatingLights (world s) ->
       exists light i, heap (world s) !! r = Some light /\
         intensity light = Some i /\ isMesh light = false /\ isPoints light = false).
Proof.
  intros Hf. destruct (built_tracking fuel Hf) as (s & E & Nk & Na & Nl & Ha & Hl & Hk).
  exists s. split; [exact E|]. split; [exact Nk|]. split; [|split; [|split; [exact Hk|split]]].
  - apply NoDup_app. split; [exact Na|]. split; [|exact Nl].
    intros r H1 H2.
    destruct (Ha r H1) as (_ & obj & E1 & _ & I1).
    destruct (Hl r H2) as (_ & light & i & E2 & I2 & _).
    congruence.
  - intros r Hr. apply elem_of_app in Hr as [Hr|Hr]; [apply Ha|apply Hl]; exact Hr.
  - intros r Hr. apply Ha. exact Hr.
  - intros r Hr. apply Hl. exact Hr.
Qed.

(** X10: the lights the arrays track are where the program put them:
    the first ten, of the teleporters, have intensity 1.5, and the
    twenty after them are the lights of the anomaly zones, of intensity
    2, the [i]-th of them at the [i]-th anomaly position, which is the
    point the driver measures the distance of the camera to. *)
Theorem anomaly_lights fuel :
  (30 <= fuel)%nat ->
  exists s,
    buildWorld Math_random Math_sin Math_cos Math_acos fuel scene0 = Some (tt, s) /\
    (forall i r, (i < 10)%nat -> pulsatingLights (world s) !! i = Some r ->
       exists light, heap (world s) !! r = Some light /\
         intensity light = Some 1.5%float) /\
    (forall i pos, anomalyPositions (world s) !! i = Some pos ->
       exists r light,
         pulsatingLights (world s) !! (10 + i)%nat = Some r /\
         heap (world s) !! r = Some light /\
         position light = pos /\ intensity light = Some 2%float).
Proof.
  intros Hf.
  destruct (built fuel Hf)
    as (s & d & E & W & G & (A & K & l1 & l2 & L & N1 & N2 & I1 & I2 & P) & F).
  destruct G as [c f a l p k ia il ik lv ak lk na nl nk].
  cbn in l, p. exists s. rewrite l, p, P, L. clear l p.
  rewrite L in il. apply Forall_app in il as [il1 il2].
  rewrite Forall_forall in il1. rewrite Forall_forall in il2.
  rewrite Forall_forall in I1. rewrite Forall_forall in I2.
  split; [exact E|]. split.
  - intros i r Hi H. rewrite map_app in H.
    rewrite lookup_app_l in H by (rewrite length_map; lia).
    apply list_lookup_fmap_Some in H as (x & -> & Hx).
    apply list_elem_of_lookup_2 in Hx.
    destruct (il1 x Hx) as (_ & obj & H1 & _ & H2 & _).
    exists obj. rewrite <- (I1 x Hx). auto.
  - intros i pos H.
    apply list_lookup_fmap_Some in H as (x & -> & Hx).
    exists (light_ref x).
    pose proof (list_elem_of_lookup_2 _ _ _ Hx) as Hin.
    destruct (il2 x Hin) as (_ & obj & H1 & H2 & H3 & _).
    exists obj. split.
    + rewrite map_app, lookup_app_r by (rewrite length_map; lia).
      rewrite length_map, N1. replace (10 + i - 10)%nat with i by lia.
      change (map light_ref l2) with (light_ref <$> l2).
      rewrite list_lookup_fmap, Hx. reflexivity.
    + rewrite <- (I2 x Hin). auto.
Qed.

(** X11: the first [updateWorld] on the world [buildWorld] leaves:
    every tracked light is pulsed once, and so gets the intensity the
    call computes, every animated object is rotated once and no light
    is rotated, and nothing else in the store changes; in particular
    the ten children that no array tracks keep the values they were
    built with. *)
Theorem first_update_of_built_world fuel :
  (30 <= fuel)%nat ->
  exists s,
    buildWorld Math_random Math_sin Math_cos Math_acos fuel scene0 = Some (tt, s) /\
    forall time i,
      (forall r, r ∈ pulsatingLights (world s) ->
         exists light, heap (world s) !! r = Some light /\
           heap (updateWorld Math_sin (world s) time i) !! r
           = Some (pulse Math_sin time i light)) /\
      (forall r, r ∈ animatedObjects (world s) ->
         exists obj, heap (world s) !! r = Some obj /\
           heap (updateWorld Math_sin (world s) time i) !! r = Some (rotate obj) /\
           (isMesh obj || isPoints obj = true)) /\
      (forall r, r ∉ animatedObjects (world s) -> r ∉ pulsatingLights (world s) ->
         heap (updateWorld Math_sin (world s) time i) !! r = heap (world s) !! r).
Proof.
  intros Hf. destruct (built_tracking fuel Hf) as (s & E & Nk & Na & Nl & Ha & Hl & Hk).
  exists s. split; [exact E|]. intros time i.
  assert (D : forall r, r ∈ animatedObjects (world s) -> r ∉ pulsatingLights (world s)).
  { intros r H1 H2.
    destruct (Ha r H1) as (_ & obj & E1 & _ & I1).
    destruct (Hl r H2) as (_ & light & j & E2 & I2 & _).
    congruence. }
  split; [|split].
  - intros r Hr. destruct (Hl r Hr) as (_ & light & j & E1 & _).
    exists light. split; [exact E1|].
    rewrite WorldSpec.updateWorld_lookup, E1, (occurrences_1 _ _ Nl Hr).
    rewrite WorldSpec.occurrences_0 by (intros H; exact (D r H Hr)).
    reflexivity.
  - intros r Hr. destruct (Ha r Hr) as (_ & obj & E1 & X & _).
    exists obj. split; [exact E1|]. split.
    + rewrite WorldSpec.updateWorld_lookup, E1, (occurrences_1 _ _ Na Hr).
      rewrite WorldSpec.occurrences_0 by (apply D; exact Hr).
      reflexivity.
    + destruct (isMesh obj), (isPoints obj); try reflexivity; discriminate.
  - intros r H1 H2.
    rewrite WorldSpec.updateWorld_lookup, !WorldSpec.occurrences_0 by assumption.
    destruct (heap (world s) !! r); reflexivity.
Qed.

End Blocks.

(** Random numbers and stand-ins for [Math.cos] and [Math.acos] where an
    instance needs them. *)
Definition random0 (n : N) : float :=
  match (n mod 4)%N with
  | 0%N => 0%float
  | 1%N => 0.25%float
  | 2%N => 0.5%float
  | _ => 0.75%float
  end.

Definition cos0 (x : float) : float := x.
Definition acos0 (x : float) : float := x.

Lemma random0_unit n : B64.fle 0 (random0 n) /\ B64.flt (random0 n) 1.
Proof.
  unfold random0. destruct (n mod 4)%N as [|[[?|?|]|[?|?|]|]]; split; reflexivity.
Qed.


Lemma buildWorld_tracks_children_witness :
  exists s,
    buildWorld random0 Example.sin0 cos0 acos0 30 scene0 = Some (tt, s) /\
    NoDup (children s) /\
    NoDup (animatedObjects (world s) ++ pulsatingLights (world s)) /\
    (forall r, r ∈ children s -> is_Some (heap (world s) !! r)).
Proof.
  destruct (buildWorld_tracks_children random0 Example.sin0 cos0 acos0 random0_unit 30
              ltac:(lia)) as (s & E & N1 & N2 & _ & L & _).
  exists s. split; [exact E|]. split; [exact N1|]. split; [exact N2|exact L].
Defined.

Lemma anomaly_lights_witness :
  exists s,
    buildWorld random0 Example.sin0 cos0 acos0 30 scene0 = Some (tt, s) /\
    (forall i pos, anomalyPositions (world s) !! i = Some pos ->
       exists r light,
         pulsatingLights (world s) !! (10 + i)%nat = Some r /\
         heap (world s) !! r = Some light /\
         position light = pos /\ intensity light = Some 2%float).
Proof.
  destruct (anomaly_lights random0 Example.sin0 cos0 acos0 random0_unit 30 ltac:(lia))
    as (s & E & _ & H).
  exists s. split; [exact E|exact H].
Defined.

Lemma first_update_of_built_world_witness :
  exists s,
    buildWorld random0 Example.sin0 cos0 acos0 30 scene0 = Some (tt, s) /\
    (forall r, r ∈ pulsatingLights (world s) ->
       exists light, heap (world s) !! r = Some light /\
         heap (updateWorld Example.sin0 (world s) (JS.number 1.5) (JS.number 0.5)) !! r
         = Some (pulse Example.sin0 (JS.number 1.5) (JS.number 0.5) light)).
Proof.
  destruct (first_update_of_built_world random0 Example.sin0 cos0 acos0 random0_unit 30
              ltac:(lia)) as (s & E & H).
  exists s. split; [exact E|]. apply (H (JS.number 1.5) (JS.number 0.5)).
Defined.

End BuildSpec.
